(** * MarkdownContent (src/markdown-new.vue): incremental markdown rendering

    A shallow embedding of the component's methods, followed by the
    properties of its boundary detector, block splitter, merge engine and
    block store.  The earlier version of the component
    (src/unnamed/part_000) is embedded beside it and compared with it.

    JavaScript strings are sequences of UTF-16 code units; a code unit is
    modelled as an [N] and a string as a [list N].  JavaScript numbers that
    hold indices, lengths and the [-1] sentinels are modelled as [Z]. *)

From Stdlib Require Import ZArith NArith List Bool Lia String Ascii.
From Stdlib Require Import Decimal DecimalZ.
From stdpp Require Import base list.

Local Open Scope Z_scope.

(* ================================================================== *)
(** ** JavaScript string primitives *)
(* ================================================================== *)

Module JS.

Abbreviation jsstring := (list N).

(** String literals: the two characters backslash-n stand for a line feed,
    as in the JavaScript source. *)
Fixpoint js (s : string) : jsstring :=
  match s with
  | EmptyString => []
  | String "\"%char (String "n"%char s') => 10%N :: js s'
  | String a s' => N_of_ascii a :: js s'
  end.

Definition strlen (s : jsstring) : Z := Z.of_nat (length s).

(** [!s] for a string and [a.length === 0] for an array. *)
Definition isEmpty {A : Type} (s : list A) : bool :=
  match s with [] => true | _ => false end.

Definition streq (a b : jsstring) : bool := bool_decide (a = b).

(** WhiteSpace and LineTerminator code units: the set matched by [\s] and
    removed by [String.prototype.trim]. *)
Definition isWhiteSpace (c : N) : bool :=
  ((9 <=? c) && (c <=? 13) || (c =? 32) || (c =? 160) || (c =? 0x1680)
   || (0x2000 <=? c) && (c <=? 0x200a) || (c =? 0x2028) || (c =? 0x2029)
   || (c =? 0x202f) || (c =? 0x205f) || (c =? 0x3000) || (c =? 0xfeff))%N.

(** [\d] *)
Definition isDigit (c : N) : bool := ((48 <=? c) && (c <=? 57))%N.

(** [\w] *)
Definition isWordChar (c : N) : bool :=
  ((48 <=? c) && (c <=? 57) || (65 <=? c) && (c <=? 90)
   || (97 <=? c) && (c <=? 122) || (c =? 95))%N.

(** [toLowerCase] on one code unit, for the ASCII letters; the strings it is
    applied to in this component consist of [\w] code units only. *)
Definition lowerChar (c : N) : N :=
  if ((65 <=? c) && (c <=? 90))%N then (c + 32)%N else c.

Definition toLowerCase (s : jsstring) : jsstring := map lowerChar s.

(** Equality of code units under the [i] flag without the [u] flag, for an
    ASCII letter or sign in the pattern: a code unit above 127 never
    matches an ASCII one. *)
Definition charEq (ci : bool) (p c : N) : bool :=
  if ci then (lowerChar p =? lowerChar c)%N else (p =? c)%N.

Fixpoint dropWhile (f : N -> bool) (s : jsstring) : jsstring :=
  match s with
  | [] => []
  | c :: s' => if f c then dropWhile f s' else s
  end.

Fixpoint takeWhile (f : N -> bool) (s : jsstring) : jsstring :=
  match s with
  | [] => []
  | c :: s' => if f c then c :: takeWhile f s' else []
  end.

Definition trimStart (s : jsstring) : jsstring := dropWhile isWhiteSpace s.
Definition trimEnd (s : jsstring) : jsstring :=
  rev (dropWhile isWhiteSpace (rev s)).
Definition trim (s : jsstring) : jsstring := trimEnd (trimStart s).

(** [s.substring(a, b)]: both arguments are clamped to [0, s.length] and
    swapped when [a > b]. *)
Definition clamp (s : jsstring) (k : Z) : nat :=
  Z.to_nat (Z.min (Z.max k 0) (strlen s)).

Definition substring (s : jsstring) (a b : Z) : jsstring :=
  let a' := clamp s a in
  let b' := clamp s b in
  take (Nat.max a' b' - Nat.min a' b') (drop (Nat.min a' b') s).

(** [s.substring(a)] *)
Definition substringFrom (s : jsstring) (a : Z) : jsstring :=
  drop (clamp s a) s.

(** [s.split('\n')]: never empty. *)
Fixpoint splitLines (s : jsstring) : list jsstring :=
  match s with
  | [] => [[]]
  | c :: s' =>
      if (c =? 10)%N then [] :: splitLines s'
      else match splitLines s' with
           | l :: ls => (c :: l) :: ls
           | [] => [[c]]
           end
  end.

(** [s.lastIndexOf('\n')], scanning with the index of the head in [i]. *)
Fixpoint lastIndexOfFrom (c : N) (s : jsstring) (i : Z) (found : Z) : Z :=
  match s with
  | [] => found
  | d :: s' => lastIndexOfFrom c s' (i + 1) (if (d =? c)%N then i else found)
  end.

Definition lastIndexOf (c : N) (s : jsstring) : Z := lastIndexOfFrom c s 0 (-1).

(** [pat] is a prefix of [s] (with the [i] flag when [ci]); the rest of [s]
    after it. *)
Fixpoint stripPrefix (ci : bool) (pat s : jsstring) : option jsstring :=
  match pat, s with
  | [], _ => Some s
  | p :: pat', c :: s' => if charEq ci p c then stripPrefix ci pat' s' else None
  | _ :: _, [] => None
  end.

(** Some suffix of [s] satisfies [f]: an unanchored [test]. *)
Fixpoint existsSuffix (f : jsstring -> bool) (s : jsstring) : bool :=
  f s || match s with [] => false | _ :: s' => existsSuffix f s' end.

(** Array [includes] on strings. *)
Definition includes (l : list jsstring) (x : jsstring) : bool :=
  existsb (streq x) l.

End JS.
Import JS.

(* ================================================================== *)
(** ** Line patterns of the boundary detector *)
(* ================================================================== *)

(** The fence pattern of processCodeBlock: leading [\s] code units, then
    three backticks or three tildes.  The result is the second group. *)
Definition fenceMatch (line : jsstring) : option jsstring :=
  match dropWhile isWhiteSpace line with
  | 96%N :: 96%N :: 96%N :: _ => Some (js "```")
  | 126%N :: 126%N :: 126%N :: _ => Some (js "~~~")
  | _ => None
  end.

(** [/^#{1,6}\s+/.test(line)] *)
Definition headingMatch (line : jsstring) : bool :=
  let hashes := takeWhile (N.eqb 35) line in
  (1 <=? length hashes)%nat && (length hashes <=? 6)%nat &&
  match dropWhile (N.eqb 35) line with
  | c :: _ => isWhiteSpace c
  | [] => false
  end.

(** The list-item pattern of processListItem and processEmptyLine: leading
    [\s] code units, then one of [-], [*], [+] or digits and a dot, then
    at least one [\s].  The result is the length of the first group. *)
Definition listMatch (line : jsstring) : option Z :=
  let indent := strlen (takeWhile isWhiteSpace line) in
  match dropWhile isWhiteSpace line with
  | c :: rest =>
      if (c =? 45)%N || (c =? 42)%N || (c =? 43)%N then
        match rest with
        | w :: _ => if isWhiteSpace w then Some indent else None
        | [] => None
        end
      else if isDigit c then
        match dropWhile isDigit rest with
        | 46%N :: w :: _ => if isWhiteSpace w then Some indent else None
        | _ => None
        end
      else None
  | [] => None
  end.

(* ================================================================== *)
(** ** Boundary detector (detectBlockBoundaries and its helpers) *)
(* ================================================================== *)

Record ScanState := mkScan {
  currentIndex : Z;
  inCodeBlock : bool;
  codeBlockFence : jsstring;
  inList : bool;
  listIndent : Z;
  lastNonEmptyLineIndex : Z
}.

Definition initialScan : ScanState := mkScan 0 false [] false (-1) (-1).

Definition setCurrentIndex (k : Z) (st : ScanState) : ScanState :=
  mkScan k (inCodeBlock st) (codeBlockFence st) (inList st) (listIndent st)
    (lastNonEmptyLineIndex st).

Definition setCode (b : bool) (fence : jsstring) (st : ScanState) : ScanState :=
  mkScan (currentIndex st) b fence (inList st) (listIndent st)
    (lastNonEmptyLineIndex st).

Definition setList (b : bool) (indent : Z) (st : ScanState) : ScanState :=
  mkScan (currentIndex st) (inCodeBlock st) (codeBlockFence st) b indent
    (lastNonEmptyLineIndex st).

Definition setLastNonEmpty (k : Z) (st : ScanState) : ScanState :=
  mkScan (currentIndex st) (inCodeBlock st) (codeBlockFence st) (inList st)
    (listIndent st) k.

(** [state.lastNonEmptyLineIndex >= 0 && state.lastNonEmptyLineIndex < lineIndex - 1] *)
Definition gapBefore (st : ScanState) (lineIndex : Z) : bool :=
  (0 <=? lastNonEmptyLineIndex st) && (lastNonEmptyLineIndex st <? lineIndex - 1).

Definition processCodeBlock (line : jsstring) (lineIndex lineEndIndex : Z)
    (st : ScanState) (boundaries : list Z) (lineStartIndex : Z)
  : bool * ScanState * list Z :=
  match fenceMatch line with
  | None => (false, st, boundaries)
  | Some fence =>
      if negb (inCodeBlock st) then
        let boundaries' :=
          if gapBefore st lineIndex then boundaries ++ [currentIndex st - 1]
          else boundaries in
        (false, setCode true fence st, boundaries')
      else if streq fence (codeBlockFence st) then
        (true, setLastNonEmpty lineIndex (setCode false [] st),
         boundaries ++ [lineEndIndex])
      else (false, st, boundaries)
  end.

Definition processHeading (line : jsstring) (lineIndex lineEndIndex : Z)
    (st : ScanState) (boundaries : list Z) (lineStartIndex : Z)
  : bool * ScanState * list Z :=
  if negb (headingMatch line) || inList st then (false, st, boundaries)
  else
    let boundaries' :=
      if gapBefore st lineIndex then boundaries ++ [lineStartIndex - 1]
      else boundaries in
    (true, setLastNonEmpty lineIndex st, boundaries' ++ [lineEndIndex]).

Definition processListItem (line : jsstring) (lineIndex : Z)
    (isEmptyLine : bool) (lineEndIndex : Z) (st : ScanState)
    (boundaries : list Z) (lineStartIndex : Z)
  : bool * ScanState * list Z :=
  if isEmptyLine then (false, st, boundaries)
  else match listMatch line with
  | None => (false, st, boundaries)
  | Some indent =>
      if negb (inList st) || (indent <? listIndent st) then
        let boundaries' :=
          if inList st && (0 <=? lastNonEmptyLineIndex st)
          then boundaries ++ [lineStartIndex - 1] else boundaries in
        (true, setLastNonEmpty lineIndex (setList true indent st), boundaries')
      else (true, setLastNonEmpty lineIndex st, boundaries)
  end.

Definition processEmptyLine (line : jsstring) (lineIndex : Z)
    (isEmptyLine : bool) (lines : list jsstring) (lineStartIndex : Z)
    (st : ScanState) (boundaries : list Z)
  : ScanState * list Z :=
  if negb isEmptyLine then
    (if negb (inList st) then setLastNonEmpty lineIndex st else st, boundaries)
  else
    let boundaries' :=
      if gapBefore st lineIndex then boundaries ++ [lineStartIndex - 1]
      else boundaries in
    if inList st then
      if lineIndex <? Z.of_nat (length lines) - 1 then
        match lines !! Z.to_nat (lineIndex + 1) with
        | Some nextLine =>
            match listMatch nextLine with
            | Some nextIndent =>
                if nextIndent <? listIndent st
                then (setList false (-1) st, boundaries')
                else (st, boundaries')
            | None => (setList false (-1) st, boundaries')
            end
        | None => (setList false (-1) st, boundaries')
        end
      else (setList false (-1) st, boundaries')
    else (st, boundaries').

(** The body of the [for] loop for the line of index [i]. *)
Definition scanLine (lines : list jsstring) (i : Z) (line : jsstring)
    (st : ScanState) (boundaries : list Z) : ScanState * list Z :=
  let lineStartIndex := currentIndex st in
  let lineEndIndex := currentIndex st + strlen line in
  let isEmptyLine := isEmpty (trim line) in
  let '(hit, st1, b1) :=
    processCodeBlock line i lineEndIndex st boundaries lineStartIndex in
  if hit then (setCurrentIndex (lineEndIndex + 1) st1, b1)
  else if inCodeBlock st1 then (setCurrentIndex (lineEndIndex + 1) st1, b1)
  else
    let '(hit, st2, b2) :=
      processHeading line i lineEndIndex st1 b1 lineStartIndex in
    if hit then (setCurrentIndex (lineEndIndex + 1) st2, b2)
    else
      let '(hit, st3, b3) :=
        processListItem line i isEmptyLine lineEndIndex st2 b2 lineStartIndex in
      if hit then (setCurrentIndex (lineEndIndex + 1) st3, b3)
      else
        let '(st4, b4) :=
          processEmptyLine line i isEmptyLine lines lineStartIndex st3 b3 in
        (setCurrentIndex (lineEndIndex + 1) st4, b4).

(** The [for] loop, over the lines not yet visited; [i] is the index of the
    head of [rest] in [lines]. *)
Fixpoint scanLines (lines rest : list jsstring) (i : Z) (st : ScanState)
    (boundaries : list Z) : list Z :=
  match rest with
  | [] => boundaries
  | line :: rest' =>
      let '(st', boundaries') := scanLine lines i line st boundaries in
      scanLines lines rest' (i + 1) st' boundaries'
  end.

Definition detectBlockBoundaries (markdown : jsstring) : list Z :=
  let lines := splitLines markdown in
  scanLines lines lines 0 initialScan [].

(* ================================================================== *)
(** ** Patterns over HTML text *)
(* ================================================================== *)

(** The rest of [s] after its first [>] (code unit 62), when there is one:
    what is left once a greedy run of code units other than [>] and then
    [>] itself have been consumed. *)
Definition afterFirstGt (s : jsstring) : option jsstring :=
  match dropWhile (fun c => negb (c =? 62)%N) s with
  | _ :: r => Some r
  | [] => None
  end.

(** The tail of an opening tag after its name: either [>] at once, or one
    [\s], any code units other than [>], and [>]. *)
Definition tagTail (s : jsstring) : option jsstring :=
  match s with
  | c :: r =>
      if (c =? 62)%N then Some r
      else if isWhiteSpace c then afterFirstGt r
      else None
  | [] => None
  end.

(** An opening tag with one of the [names] at the start of [s]; the rest of
    [s] after the tag. *)
Fixpoint openTag (ci : bool) (names : list jsstring) (s : jsstring)
  : option jsstring :=
  match names with
  | [] => None
  | n :: names' =>
      match stripPrefix ci (60%N :: n) s with
      | Some r =>
          match tagTail r with
          | Some r' => Some r'
          | None => openTag ci names' s
          end
      | None => openTag ci names' s
      end
  end.

(** A closing tag with one of the [names] at the start of [s]; the rest of
    [s] after the tag. *)
Fixpoint closeTag (ci : bool) (names : list jsstring) (s : jsstring)
  : option jsstring :=
  match names with
  | [] => None
  | n :: names' =>
      match stripPrefix ci (js "</" ++ n ++ js ">") s with
      | Some r => Some r
      | None => closeTag ci names' s
      end
  end.

(** A closing tag followed by [\s] code units only, up to the end. *)
Definition closeTagToEnd (ci : bool) (names : list jsstring) (s : jsstring)
  : bool :=
  match closeTag ci names s with
  | Some r => forallb isWhiteSpace r
  | None => false
  end.

(** [s.replace(re, '')] for a pattern [re] anchored at the end of the
    input: everything from the leftmost position at which [f] accepts the
    whole rest is removed. *)
Fixpoint cutAtSuffix (f : jsstring -> bool) (s : jsstring) : jsstring :=
  if f s then []
  else match s with
       | [] => []
       | c :: s' => c :: cutAtSuffix f s'
       end.

(** [s.replace(re, by)] with the [g] flag.  [m] gives the length of the
    match of [re] at the start of a string, when there is one; [skip] counts
    the code units of the current match still to be passed over. *)
Fixpoint replaceAllFrom (m : jsstring -> option nat) (by_ : jsstring)
    (skip : nat) (s : jsstring) : jsstring :=
  match s with
  | [] => []
  | c :: s' =>
      match skip with
      | S k => replaceAllFrom m by_ k s'
      | O =>
          match m s with
          | Some (S k) => by_ ++ replaceAllFrom m by_ k s'
          | _ => c :: replaceAllFrom m by_ 0%nat s'
          end
      end
  end.

Definition replaceAll (m : jsstring -> option nat) (by_ s : jsstring)
  : jsstring := replaceAllFrom m by_ 0%nat s.

(** [s.match(re)] with the [g] flag: the matched substrings, left to
    right. *)
Fixpoint matchAllFrom (m : jsstring -> option nat) (skip : nat)
    (s : jsstring) : list jsstring :=
  match s with
  | [] => []
  | c :: s' =>
      match skip with
      | S k => matchAllFrom m k s'
      | O =>
          match m s with
          | Some (S k) => take (S k) s :: matchAllFrom m k s'
          | _ => matchAllFrom m 0%nat s'
          end
      end
  end.

Definition matchAll (m : jsstring -> option nat) (s : jsstring)
  : list jsstring := matchAllFrom m 0%nat s.

(** Length of the match at the start of [s], from the rest after it. *)
Definition consumed (s : jsstring) (rest : option jsstring) : option nat :=
  match rest with
  | Some r => Some (length s - length r)%nat
  | None => None
  end.

(** The rest of [s] after the first occurrence of [pat]. *)
Fixpoint afterFirst (ci : bool) (pat s : jsstring) : option jsstring :=
  match stripPrefix ci pat s with
  | Some r => Some r
  | None => match s with
            | [] => None
            | _ :: s' => afterFirst ci pat s'
            end
  end.

(** A tag in the sense of isParagraphComplete: [<], at least one code unit
    other than [>], and [>]. *)
Definition anyTag (s : jsstring) : option nat :=
  match s with
  | 60%N :: c :: r =>
      if (c =? 62)%N then None else consumed s (afterFirstGt r)
  | _ => None
  end.

(** [<NAME], code units other than [>], [>], then as few code units as
    possible up to the closing tag of NAME: the row and item patterns of
    mergeBlocks, with the [i] flag. *)
Definition elementSpan (name : jsstring) (s : jsstring) : option nat :=
  match stripPrefix true (60%N :: name) s with
  | Some r =>
      match afterFirstGt r with
      | Some r' => consumed s (afterFirst true (js "</" ++ name ++ js ">") r')
      | None => None
      end
  | None => None
  end.

Definition contains (ci : bool) (pat s : jsstring) : bool :=
  existsSuffix (fun t => bool_decide (is_Some (stripPrefix ci pat t))) s.

(** The sentence-ending marks of isParagraphComplete: the ideographic full
    stop, the fullwidth exclamation and question marks, and [.], [!], [?]. *)
Definition isTerminator (c : N) : bool :=
  ((c =? 0x3002) || (c =? 0xff01) || (c =? 0xff1f)
   || (c =? 46) || (c =? 33) || (c =? 63))%N.

(** One sentence-ending mark, then [\s] code units only, up to the end. *)
Definition terminatorToEnd (s : jsstring) : bool :=
  match s with
  | c :: r => isTerminator c && forallb isWhiteSpace r
  | [] => false
  end.

(* ================================================================== *)
(** ** Block predicates of the merge engine *)
(* ================================================================== *)

Definition listNames : list jsstring := [js "ul"; js "ol"].

Definition isParagraphBlock (html : jsstring) : bool :=
  if isEmpty html then false
  else
    let trimmed := trim html in
    bool_decide (is_Some (openTag false [js "p"] trimmed))
    && existsSuffix (closeTagToEnd false [js "p"]) trimmed.

Definition isParagraphComplete (html : jsstring) : bool :=
  if isEmpty html then false
  else
    let textContent := trim (replaceAll anyTag [] html) in
    existsSuffix terminatorToEnd textContent || contains false (js "<img") html.

Definition isIncompleteList (html : jsstring) : bool :=
  if isEmpty html then false
  else
    let trimmed := trim html in
    let hasListStart :=
      existsSuffix (fun t => bool_decide (is_Some (openTag true listNames t))) trimmed in
    let hasListEnd :=
      existsSuffix (fun t => bool_decide (is_Some (closeTag true listNames t))) trimmed in
    hasListStart && negb hasListEnd.

Definition isListItemBlock (html : jsstring) : bool :=
  if isEmpty html then false
  else
    let trimmed := trim html in
    bool_decide (is_Some (openTag false [js "li"] trimmed))
    && existsSuffix (closeTagToEnd false [js "li"]) trimmed.

Definition isListBlock (html : jsstring) : bool :=
  if isEmpty html then false
  else
    let trimmed := trim html in
    bool_decide (is_Some (openTag true listNames trimmed))
    && existsSuffix (closeTagToEnd true listNames) trimmed.

Definition isIncompleteTable (html : jsstring) : bool :=
  if isEmpty html then false
  else
    let trimmed := trim html in
    let hasTableStart :=
      existsSuffix (fun t => bool_decide (is_Some (openTag true [js "table"] t))) trimmed in
    let hasTableEnd := contains true (js "</table>") trimmed in
    hasTableStart && negb hasTableEnd.

Definition isTableRowBlock (html : jsstring) : bool :=
  if isEmpty html then false
  else
    let trimmed := trim html in
    bool_decide (is_Some (openTag false [js "tr"] trimmed))
    && existsSuffix (closeTagToEnd false [js "tr"]) trimmed.

Definition isTableBlock (html : jsstring) : bool :=
  if isEmpty html then false
  else
    let trimmed := trim html in
    bool_decide (is_Some (openTag true [js "table"] trimmed))
    && existsSuffix (closeTagToEnd true [js "table"]) trimmed.

Definition isIncompleteBlockquote (html : jsstring) : bool :=
  if isEmpty html then false
  else
    let trimmed := trim html in
    let hasBlockquoteStart :=
      existsSuffix (fun t => bool_decide (is_Some (openTag true [js "blockquote"] t))) trimmed in
    let hasBlockquoteEnd := contains true (js "</blockquote>") trimmed in
    hasBlockquoteStart && negb hasBlockquoteEnd.

Definition blockquoteContentNames : list jsstring :=
  [js "p"; js "h1"; js "h2"; js "h3"; js "h4"; js "h5"; js "h6";
   js "ul"; js "ol"; js "blockquote"].

Definition isBlockquoteContent (html : jsstring) : bool :=
  if isEmpty html then false
  else bool_decide (is_Some (openTag true blockquoteContentNames (trim html))).

(** [<img], as few code units as possible, [>]; with the [i] flag. *)
Definition containsImage (html : jsstring) : bool :=
  if isEmpty html then false
  else
    existsSuffix
      (fun t => match stripPrefix true (js "<img") t with
                | Some r => bool_decide (is_Some (afterFirstGt r))
                | None => false
                end) html.

Definition shouldMergeBlocks (lastBlockHtml currentBlockHtml : jsstring) : bool :=
  if isEmpty lastBlockHtml || isEmpty currentBlockHtml then false
  else if isParagraphBlock lastBlockHtml && isParagraphBlock currentBlockHtml then
    negb (isParagraphComplete lastBlockHtml)
  else if isIncompleteList lastBlockHtml then
    isListItemBlock currentBlockHtml || isListBlock currentBlockHtml
    || isParagraphBlock currentBlockHtml
  else if isIncompleteTable lastBlockHtml then
    isTableRowBlock currentBlockHtml || isTableBlock currentBlockHtml
  else if isIncompleteBlockquote lastBlockHtml then
    isBlockquoteContent currentBlockHtml
  else false.

(* ================================================================== *)
(** ** Block store and merge engine *)
(* ================================================================== *)

Record Block := mkBlock { id : jsstring; html : jsstring }.

(** [s.replace(re, '')] for the opening-tag pattern anchored at the start:
    [<NAME], code units other than [>], [>]. *)
Definition dropOpening (ci : bool) (name : jsstring) (s : jsstring) : jsstring :=
  match stripPrefix ci (60%N :: name) s with
  | Some r => match afterFirstGt r with
              | Some r' => r'
              | None => s
              end
  | None => s
  end.

(** The first group of the first match of the list-opening pattern in
    [s], lower-cased. *)
Fixpoint firstListType (s : jsstring) : option jsstring :=
  match openTag true listNames s with
  | Some _ => Some (toLowerCase (take 2 (drop 1 s)))
  | None => match s with
            | [] => None
            | _ :: s' => firstListType s'
            end
  end.

Definition listEndPattern (s : jsstring) : option nat :=
  consumed s (closeTag true listNames s).

Definition mergeBlocks (lastBlock : Block) (currentBlockHtml : jsstring)
  : option Block :=
  let lastHtml := html lastBlock in
  let currentHtml := currentBlockHtml in
  if isParagraphBlock lastHtml && isParagraphBlock currentHtml then
    let lastContent := cutAtSuffix (closeTagToEnd false [js "p"]) lastHtml in
    let currentContent :=
      cutAtSuffix (closeTagToEnd false [js "p"]) (dropOpening false (js "p") currentHtml) in
    Some (mkBlock (id lastBlock) (lastContent ++ currentContent ++ js "</p>"))
  else if isIncompleteList lastHtml then
    let listType :=
      match firstListType lastHtml with Some t => t | None => js "ul" end in
    let listTag := if streq listType (js "ul") then js "ul" else js "ol" in
    let lastContent := replaceAll listEndPattern [] lastHtml in
    if isListItemBlock currentHtml then
      Some (mkBlock (id lastBlock)
              (lastContent ++ currentHtml ++ js "</" ++ listTag ++ js ">"))
    else if isListBlock currentHtml then
      let listItems := matchAll (elementSpan (js "li")) currentHtml in
      Some (mkBlock (id lastBlock)
              (lastContent ++ concat listItems ++ js "</" ++ listTag ++ js ">"))
    else if isParagraphBlock currentHtml then
      let paragraphContent :=
        cutAtSuffix (closeTagToEnd false [js "p"]) (dropOpening false (js "p") currentHtml) in
      Some (mkBlock (id lastBlock)
              (lastContent ++ js "<li>" ++ paragraphContent ++ js "</li></"
               ++ listTag ++ js ">"))
    else Some lastBlock
  else if isIncompleteTable lastHtml then
    let lastContent := cutAtSuffix (closeTagToEnd true [js "table"]) lastHtml in
    if isTableRowBlock currentHtml then
      Some (mkBlock (id lastBlock) (lastContent ++ currentHtml ++ js "</table>"))
    else if isTableBlock currentHtml then
      let tableRows := matchAll (elementSpan (js "tr")) currentHtml in
      Some (mkBlock (id lastBlock) (lastContent ++ concat tableRows ++ js "</table>"))
    else Some lastBlock
  else if isIncompleteBlockquote lastHtml then
    let lastContent := cutAtSuffix (closeTagToEnd true [js "blockquote"]) lastHtml in
    let currentContent :=
      cutAtSuffix (closeTagToEnd true [js "blockquote"])
        (dropOpening true (js "blockquote") currentHtml) in
    Some (mkBlock (id lastBlock) (lastContent ++ currentContent ++ js "</blockquote>"))
  else None.

(* ================================================================== *)
(** ** HTML block splitter *)
(* ================================================================== *)

Record StackEntry := mkEntry { name : jsstring; index : Z }.

(** The object returned by processStartTag; [startOf] is its
    [currentBlockStart] field. *)
Record TagResult := mkTagResult { startOf : Z; nextIndex : Z }.

Definition topLevelBlockElements : list jsstring :=
  [js "p"; js "h1"; js "h2"; js "h3"; js "h4"; js "h5"; js "h6";
   js "ul"; js "ol"; js "blockquote"; js "pre"; js "table"; js "hr"].

Definition isSelfClosingTag (tagName : jsstring) : bool :=
  includes [js "img"; js "br"; js "hr"; js "input"] (toLowerCase tagName).

Definition endsWith (s suffix : jsstring) : bool :=
  streq (drop (length s - length suffix)%nat s) suffix
  && (length suffix <=? length s)%nat.

(** The opening-tag pattern of processStartTag at the start of [s]: [<], a
    run of [\w], optionally [\s] and code units other than [>], optionally
    [\s] code units and [/], then [>].  The result is the whole match and
    its first group. *)
Definition startTagMatch (s : jsstring) : option (jsstring * jsstring) :=
  match s with
  | 60%N :: r =>
      let w := takeWhile isWordChar r in
      if isEmpty w then None
      else
        match dropWhile isWordChar r with
        | 62%N :: _ => Some (60%N :: w ++ [62%N], w)
        | 47%N :: 62%N :: _ => Some (60%N :: w ++ [47%N; 62%N], w)
        | c :: r2 =>
            if isWhiteSpace c then
              match dropWhile (fun c => negb (c =? 62)%N) r2 with
              | _ :: _ =>
                  Some (60%N :: w ++ c :: takeWhile (fun c => negb (c =? 62)%N) r2
                          ++ [62%N], w)
              | [] => None
              end
            else None
        | [] => None
        end
  | _ => None
  end.

(** The closing-tag pattern of processCloseTag at the start of [s]. *)
Definition closeTagMatch (s : jsstring) : option (jsstring * jsstring) :=
  match s with
  | 60%N :: 47%N :: r =>
      let w := takeWhile isWordChar r in
      if isEmpty w then None
      else
        match dropWhile isWordChar r with
        | 62%N :: _ => Some (60%N :: 47%N :: w ++ [62%N], w)
        | _ => None
        end
  | _ => None
  end.

(** The text between [currentBlockStart] and [i], pushed when it is not
    blank: the common first step of both block handlers. *)
Definition pushPrevBlock (html : jsstring) (i currentBlockStart : Z)
    (blocks : list jsstring) : list jsstring :=
  if (0 <=? currentBlockStart) && (currentBlockStart <? i) then
    let prevBlock := trim (substring html currentBlockStart i) in
    if isEmpty prevBlock then blocks else blocks ++ [prevBlock]
  else blocks.

Definition handleSelfClosingBlock (html : jsstring) (i : Z)
    (tagMatch : jsstring * jsstring) (currentBlockStart : Z)
    (blocks : list jsstring) : TagResult * list jsstring :=
  let blocks1 := pushPrevBlock html i currentBlockStart blocks in
  let tagEnd := i + strlen (fst tagMatch) in
  (mkTagResult (-1) tagEnd, blocks1 ++ [substring html i tagEnd]).

Definition handleNonSelfClosingBlock (html : jsstring) (i : Z)
    (tagName : jsstring) (stack : list StackEntry) (currentBlockStart : Z)
    (blocks : list jsstring) : TagResult * list StackEntry * list jsstring :=
  let blocks1 := pushPrevBlock html i currentBlockStart blocks in
  (mkTagResult i (i + 1), stack ++ [mkEntry tagName i], blocks1).

Definition processStartTag (html : jsstring) (i : Z) (stack : list StackEntry)
    (currentBlockStart : Z) (blocks : list jsstring)
    (topLevel : list jsstring)
  : option TagResult * list StackEntry * list jsstring :=
  match startTagMatch (substringFrom html i) with
  | None => (None, stack, blocks)
  | Some tagMatch =>
      let tagName := toLowerCase (snd tagMatch) in
      let isTopLevelBlock := includes topLevel tagName in
      let isSelfClosing :=
        endsWith (fst tagMatch) (js "/>") || isSelfClosingTag tagName in
      if negb isTopLevelBlock then
        if negb (isEmpty stack) && negb isSelfClosing
        then (None, stack ++ [mkEntry tagName i], blocks)
        else (None, stack, blocks)
      else if isSelfClosing then
        let '(r, blocks1) :=
          handleSelfClosingBlock html i tagMatch currentBlockStart blocks in
        (Some r, stack, blocks1)
      else
        let '(r, stack1, blocks1) :=
          handleNonSelfClosingBlock html i tagName stack currentBlockStart blocks in
        (Some r, stack1, blocks1)
  end.

(** The highest index of an entry of [stack] named [tagName]. *)
Fixpoint lastNamed (tagName : jsstring) (stack : list StackEntry) : option nat :=
  match stack with
  | [] => None
  | e :: rest =>
      match lastNamed tagName rest with
      | Some j => Some (S j)
      | None => if streq (name e) tagName then Some 0%nat else None
      end
  end.

(** The result is the new [currentBlockStart], when one is returned. *)
Definition processCloseTag (html : jsstring) (i : Z) (stack : list StackEntry)
    (currentBlockStart : Z) (blocks : list jsstring)
    (topLevel : list jsstring)
  : option Z * list StackEntry * list jsstring :=
  match closeTagMatch (substringFrom html i) with
  | None => (None, stack, blocks)
  | Some closeTagMatch =>
      if isEmpty stack then (None, stack, blocks)
      else
        let tagName := toLowerCase (snd closeTagMatch) in
        match lastNamed tagName stack with
        | None => (None, stack, blocks)
        | Some j =>
            let stack1 := take j stack in
            if isEmpty stack1 && (0 <=? currentBlockStart)
               && includes topLevel tagName then
              let blockEnd := i + strlen (fst closeTagMatch) in
              let completeBlock := substring html currentBlockStart blockEnd in
              (Some (-1), stack1, blocks ++ [completeBlock])
            else (None, stack1, blocks)
        end
  end.

Definition processLastBlock (html : jsstring) (currentBlockStart : Z)
    (blocks : list jsstring) : list jsstring :=
  if (0 <=? currentBlockStart) && (currentBlockStart <? strlen html) then
    let lastBlock := trim (substringFrom html currentBlockStart) in
    if isEmpty lastBlock then blocks else blocks ++ [lastBlock]
  else if isEmpty blocks then blocks ++ [html]
  else blocks.

Definition charAt (s : jsstring) (i : Z) : option N :=
  if i <? 0 then None else s !! Z.to_nat i.

Definition charIs (s : jsstring) (i : Z) (c : N) : bool :=
  match charAt s i with
  | Some d => (d =? c)%N
  | None => false
  end.

(** The [while] loop of splitIntoCompleteBlocks.  Every turn moves [i]
    forward, so [length html] turns are enough: more fuel never changes the
    result ([splitLoop_fuel]). *)
Fixpoint splitLoop (fuel : nat) (html : jsstring) (i : Z)
    (stack : list StackEntry) (currentBlockStart : Z)
    (blocks : list jsstring) : Z * list jsstring :=
  match fuel with
  | O => (currentBlockStart, blocks)
  | S fuel' =>
      if negb (i <? strlen html) then (currentBlockStart, blocks)
      else if charIs html i 60 && negb (charIs html (i + 1) 47)
              && negb (charIs html (i + 1) 33) then
        match processStartTag html i stack currentBlockStart blocks
                topLevelBlockElements with
        | (Some r, stack1, blocks1) =>
            splitLoop fuel' html (nextIndex r) stack1 (startOf r) blocks1
        | (None, stack1, blocks1) =>
            splitLoop fuel' html (i + 1) stack1 currentBlockStart blocks1
        end
      else if charIs html i 60 && charIs html (i + 1) 47 then
        match processCloseTag html i stack currentBlockStart blocks
                topLevelBlockElements with
        | (Some cbs, stack1, blocks1) =>
            splitLoop fuel' html (i + 1) stack1 cbs blocks1
        | (None, stack1, blocks1) =>
            splitLoop fuel' html (i + 1) stack1 currentBlockStart blocks1
        end
      else splitLoop fuel' html (i + 1) stack currentBlockStart blocks
  end.

Definition splitIntoCompleteBlocks (html : jsstring) : list jsstring :=
  if isEmpty html || isEmpty (trim html) then []
  else
    let '(currentBlockStart, blocks) :=
      splitLoop (length html) html 0 [] (-1) [] in
    processLastBlock html currentBlockStart blocks.

(* ================================================================== *)
(** ** Component state and the render pipeline *)
(* ================================================================== *)

Record State := mkState {
  renderBlocks : list Block;
  processedLength : Z;
  blockCounter : Z;
  accumulatedMarkdown : jsstring
}.

(** The state of [data()], and of every reset. *)
Definition initialState : State := mkState [] 0 0 [].

Fixpoint digits (d : Decimal.uint) : jsstring :=
  match d with
  | Decimal.Nil => []
  | Decimal.D0 d => 48%N :: digits d
  | Decimal.D1 d => 49%N :: digits d
  | Decimal.D2 d => 50%N :: digits d
  | Decimal.D3 d => 51%N :: digits d
  | Decimal.D4 d => 52%N :: digits d
  | Decimal.D5 d => 53%N :: digits d
  | Decimal.D6 d => 54%N :: digits d
  | Decimal.D7 d => 55%N :: digits d
  | Decimal.D8 d => 56%N :: digits d
  | Decimal.D9 d => 57%N :: digits d
  end.

(** An integer inside a template literal. *)
Definition numberToString (z : Z) : jsstring :=
  match Z.to_int z with
  | Decimal.Pos d => digits d
  | Decimal.Neg d => 45%N :: digits d
  end.

Definition blockId (counter : Z) : jsstring :=
  js "md-block-" ++ numberToString counter.

(** [this.renderBlocks.push({ id: `md-block-${this.blockCounter++}`, html })] *)
Definition pushBlock (st : State) (h : jsstring) : State :=
  mkState (renderBlocks st ++ [mkBlock (blockId (blockCounter st)) h])
    (processedLength st) (blockCounter st + 1) (accumulatedMarkdown st).

(** [Object.assign(lastBlock, mergedBlock)] on the last element of the
    store. *)
Definition assignLast (st : State) (merged : Block) : State :=
  mkState (<[(length (renderBlocks st) - 1)%nat := merged]> (renderBlocks st))
    (processedLength st) (blockCounter st) (accumulatedMarkdown st).

Definition setAccumulated (buffer : jsstring) (st : State) : State :=
  mkState (renderBlocks st) (processedLength st) (blockCounter st) buffer.

Definition setProcessedLength (n : Z) (st : State) : State :=
  mkState (renderBlocks st) n (blockCounter st) (accumulatedMarkdown st).

(** The callback of [blocks.forEach] in appendNewContent. *)
Definition appendBlock (st : State) (blockHtml : jsstring) : State :=
  if isEmpty (trim blockHtml) then st
  else
    match last (renderBlocks st) with
    | Some lastBlock =>
        if shouldMergeBlocks (html lastBlock) blockHtml then
          if containsImage (html lastBlock) then pushBlock st blockHtml
          else
            match mergeBlocks lastBlock blockHtml with
            | Some mergedBlock => assignLast st mergedBlock
            | None => st
            end
        else pushBlock st blockHtml
    | None => pushBlock st blockHtml
    end.

(** The replacement text of the table post-processing step; code unit 34
    is the double quote. *)
Definition styledTableTag : jsstring :=
  js "<table class=" ++ [34%N] ++ js "markdown-table" ++ [34%N] ++ js ">".

Definition tablePattern (s : jsstring) : option nat :=
  consumed s (stripPrefix false (js "<table>") s).

(** What a call of an external collaborator does: it returns a string or
    throws. *)
Inductive completion : Type :=
  | Value (s : jsstring)
  | Exception.

(** What a method of the component does: it returns, or an exception
    leaves it, in both cases with the state it has reached. *)
Inductive outcome : Type :=
  | Returned (st : State)
  | Threw (st : State).

Definition stateOf (o : outcome) : State :=
  match o with Returned st => st | Threw st => st end.

Module Component.

Section Pipeline.

(** The external collaborators: [marked(newPart, options)] (with the
    construction of its renderer), [DOMPurify.sanitize(html, allowList)]
    and [DOMPurify.sanitize(newPart)]. *)
Variable marked : jsstring -> completion.
Variable sanitizeAllowList : jsstring -> completion.
Variable sanitize : jsstring -> completion.

(** The [catch] clause: the counter is read and incremented before the
    sanitizer is called. *)
Definition renderFallback (st : State) (newPart : jsstring) : outcome :=
  match sanitize newPart with
  | Value h => Returned (pushBlock st h)
  | Exception =>
      Threw (mkState (renderBlocks st) (processedLength st)
               (blockCounter st + 1) (accumulatedMarkdown st))
  end.

Definition appendNewContent (st : State) (newPart : jsstring) : outcome :=
  match marked newPart with
  | Value html =>
      match sanitizeAllowList html with
      | Value cleanHtml =>
          let styledHtml := replaceAll tablePattern styledTableTag cleanHtml in
          let blocks := splitIntoCompleteBlocks styledHtml in
          Returned (fold_left appendBlock blocks st)
      | Exception => renderFallback st newPart
      end
  | Exception => renderFallback st newPart
  end.

(** [blockBoundaries.forEach] in processAccumulatedContent; the result
    carries the final [lastIndex]. *)
Fixpoint flushBoundaries (st : State) (lastIndex : Z) (boundaries : list Z)
  : outcome * Z :=
  match boundaries with
  | [] => (Returned st, lastIndex)
  | boundaryIndex :: rest =>
      let blockMarkdown :=
        substring (accumulatedMarkdown st) lastIndex (boundaryIndex + 1) in
      let o := if isEmpty (trim blockMarkdown) then Returned st
               else appendNewContent st blockMarkdown in
      match o with
      | Returned st1 => flushBoundaries st1 (boundaryIndex + 1) rest
      | Threw st1 => (Threw st1, lastIndex)
      end
  end.

(** The size-based second half of processAccumulatedContent. *)
Definition flushOverflow (st : State) : outcome :=
  if 1000 <? strlen (accumulatedMarkdown st) then
    let lastNewline := lastIndexOf 10%N (accumulatedMarkdown st) in
    if 100 <? lastNewline then
      let blockMarkdown := substring (accumulatedMarkdown st) 0 (lastNewline + 1) in
      match appendNewContent st blockMarkdown with
      | Returned st1 =>
          Returned (setAccumulated
                      (substringFrom (accumulatedMarkdown st1) (lastNewline + 1)) st1)
      | Threw st1 => Threw st1
      end
    else Returned st
  else Returned st.

Definition processAccumulatedContent (st : State) : outcome :=
  if isEmpty (accumulatedMarkdown st) then Returned st
  else
    let blockBoundaries := detectBlockBoundaries (accumulatedMarkdown st) in
    if negb (isEmpty blockBoundaries) then
      match flushBoundaries st 0 blockBoundaries with
      | (Returned st1, lastIndex) =>
          flushOverflow
            (setAccumulated (substringFrom (accumulatedMarkdown st1) lastIndex) st1)
      | (Threw st1, _) => Threw st1
      end
    else flushOverflow st.

(** [newContent] is [None] for an absent value ([null], [undefined]). *)
Definition handleContentUpdate (st : State) (newContent : option jsstring)
  : outcome :=
  match newContent with
  | None => Returned initialState
  | Some content =>
      if isEmpty content then Returned initialState
      else
        let st1 :=
          if strlen content <? processedLength st then initialState else st in
        let newPart := substringFrom content (processedLength st1) in
        if negb (isEmpty newPart) then
          match processAccumulatedContent
                  (setAccumulated (accumulatedMarkdown st1 ++ newPart) st1) with
          | Returned st2 => Returned (setProcessedLength (strlen content) st2)
          | Threw st2 => Threw st2
          end
        else Returned (setProcessedLength (strlen content) st1)
  end.

(** The watcher of [isCompleted]. *)
Definition handleCompleted (st : State) (isCompleted : bool) : outcome :=
  if isCompleted && negb (isEmpty (accumulatedMarkdown st)) then
    let o := if negb (isEmpty (trim (accumulatedMarkdown st)))
             then appendNewContent st (accumulatedMarkdown st)
             else Returned st in
    match o with
    | Returned st1 => Returned (setAccumulated [] st1)
    | Threw st1 => Threw st1
    end
  else Returned st.

End Pipeline.

End Component.
Import Component.

(** Successive values of the [content] prop, each handled in turn; an
    exception ends the run. *)
Fixpoint feed (marked sanitizeAllowList sanitize : jsstring -> completion)
    (st : State) (contents : list jsstring) : outcome :=
  match contents with
  | [] => Returned st
  | c :: rest =>
      match handleContentUpdate marked sanitizeAllowList sanitize st (Some c) with
      | Returned st1 => feed marked sanitizeAllowList sanitize st1 rest
      | Threw st1 => Threw st1
      end
  end.

(** Stand-ins for the collaborators, used to run the pipeline on examples:
    a converter and a sanitizer that hand their input back, so that the
    store shows the chunks as they were flushed, and ones that throw. *)
Definition echo (s : jsstring) : completion := Value s.
Definition failing (s : jsstring) : completion := Exception.

(* ================================================================== *)
(** ** The earlier version of the component (src/unnamed/part_000) *)
(* ================================================================== *)

(** The earlier component has no buffer and no boundary detector: every
    increment of the content is converted at once.  Its splitter is one
    loop with the handling of tags written in place, and its store merges
    paragraphs only.  What it shares word for word with the later version
    (the patterns, the closing-tag handling, the last block, the paragraph
    predicates) is taken from the definitions above. *)
Module Legacy.

Record State := mkState {
  renderBlocks : list Block;
  processedLength : Z;
  blockCounter : Z
}.

Definition initialState : State := mkState [] 0 0.

Definition pushBlock (st : State) (h : jsstring) : State :=
  mkState (renderBlocks st ++ [mkBlock (blockId (blockCounter st)) h])
    (processedLength st) (blockCounter st + 1).

(** [lastBlock.html = ...] on the last element of the store. *)
Definition setLastHtml (st : State) (h : jsstring) : State :=
  match last (renderBlocks st) with
  | Some lastBlock =>
      mkState (<[(length (renderBlocks st) - 1)%nat := mkBlock (id lastBlock) h]>
                 (renderBlocks st))
        (processedLength st) (blockCounter st)
  | None => st
  end.

Definition setProcessedLength (n : Z) (st : State) : State :=
  mkState (renderBlocks st) n (blockCounter st).

(** The [while] loop of splitIntoCompleteBlocks.  A top-level element
    starts a block, and a self-closing one is a block, only when the stack
    is empty. *)
Fixpoint splitLoop (fuel : nat) (html : jsstring) (i : Z)
    (stack : list StackEntry) (currentBlockStart : Z)
    (blocks : list jsstring) : Z * list jsstring :=
  match fuel with
  | O => (currentBlockStart, blocks)
  | S fuel' =>
      if negb (i <? strlen html) then (currentBlockStart, blocks)
      else if charIs html i 60 && negb (charIs html (i + 1) 47)
              && negb (charIs html (i + 1) 33) then
        match startTagMatch (substringFrom html i) with
        | Some tagMatch =>
            let tagName := toLowerCase (snd tagMatch) in
            let isTopLevelBlock := includes topLevelBlockElements tagName in
            let isSelfClosing :=
              endsWith (fst tagMatch) (js "/>") || isSelfClosingTag tagName in
            if isTopLevelBlock then
              if isSelfClosing then
                if isEmpty stack then
                  let blocks1 := pushPrevBlock html i currentBlockStart blocks in
                  let tagEnd := i + strlen (fst tagMatch) in
                  splitLoop fuel' html tagEnd stack (-1)
                    (blocks1 ++ [substring html i tagEnd])
                else splitLoop fuel' html (i + 1) stack currentBlockStart blocks
              else if isEmpty stack then
                splitLoop fuel' html (i + 1) (stack ++ [mkEntry tagName i]) i
                  (pushPrevBlock html i currentBlockStart blocks)
              else
                splitLoop fuel' html (i + 1) (stack ++ [mkEntry tagName i])
                  currentBlockStart blocks
            else if negb (isEmpty stack) && negb isSelfClosing then
              splitLoop fuel' html (i + 1) (stack ++ [mkEntry tagName i])
                currentBlockStart blocks
            else splitLoop fuel' html (i + 1) stack currentBlockStart blocks
        | None => splitLoop fuel' html (i + 1) stack currentBlockStart blocks
        end
      else if charIs html i 60 && charIs html (i + 1) 47 then
        match processCloseTag html i stack currentBlockStart blocks
                topLevelBlockElements with
        | (Some cbs, stack1, blocks1) =>
            splitLoop fuel' html (i + 1) stack1 cbs blocks1
        | (None, stack1, blocks1) =>
            splitLoop fuel' html (i + 1) stack1 currentBlockStart blocks1
        end
      else splitLoop fuel' html (i + 1) stack currentBlockStart blocks
  end.

Definition splitIntoCompleteBlocks (html : jsstring) : list jsstring :=
  if isEmpty html || isEmpty (trim html) then []
  else
    let '(currentBlockStart, blocks) :=
      splitLoop (length html) html 0 [] (-1) [] in
    processLastBlock html currentBlockStart blocks.

(** The callback of [blocks.forEach] in appendNewContent. *)
Definition appendBlock (st : State) (blockHtml : jsstring) : State :=
  if isEmpty (trim blockHtml) then st
  else
    let isLastBlockParagraph :=
      match last (renderBlocks st) with
      | Some lastBlock => isParagraphBlock (html lastBlock)
      | None => false
      end in
    let isCurrentBlockParagraph := isParagraphBlock blockHtml in
    match last (renderBlocks st) with
    | Some lastBlock =>
        if isLastBlockParagraph && isCurrentBlockParagraph
           && negb (isParagraphComplete (html lastBlock)) then
          let lastBlockContent :=
            cutAtSuffix (closeTagToEnd false [js "p"]) (html lastBlock) in
          let currentBlockContent :=
            cutAtSuffix (closeTagToEnd false [js "p"])
              (dropOpening false (js "p") blockHtml) in
          setLastHtml st (lastBlockContent ++ currentBlockContent ++ js "</p>")
        else pushBlock st blockHtml
    | None => pushBlock st blockHtml
    end.

Inductive outcome : Type :=
  | Returned (st : State)
  | Threw (st : State).

Section Pipeline.

Variable marked : jsstring -> completion.
Variable sanitizeAllowList : jsstring -> completion.
Variable sanitize : jsstring -> completion.

Definition renderFallback (st : State) (newPart : jsstring) : outcome :=
  match sanitize newPart with
  | Value h => Returned (pushBlock st h)
  | Exception =>
      Threw (mkState (renderBlocks st) (processedLength st) (blockCounter st + 1))
  end.

Definition appendNewContent (st : State) (newPart : jsstring) : outcome :=
  match marked newPart with
  | Value html =>
      match sanitizeAllowList html with
      | Value cleanHtml =>
          let styledHtml := replaceAll tablePattern styledTableTag cleanHtml in
          let blocks := splitIntoCompleteBlocks styledHtml in
          Returned (fold_left appendBlock blocks st)
      | Exception => renderFallback st newPart
      end
  | Exception => renderFallback st newPart
  end.

Definition handleContentUpdate (st : State) (newContent : option jsstring)
  : outcome :=
  match newContent with
  | None => Returned initialState
  | Some content =>
      if isEmpty content then Returned initialState
      else
        let st1 :=
          if strlen content <? processedLength st then initialState else st in
        let newPart := substringFrom content (processedLength st1) in
        if negb (isEmpty (trim newPart)) then
          match appendNewContent st1 newPart with
          | Returned st2 => Returned (setProcessedLength (strlen content) st2)
          | Threw st2 => Threw st2
          end
        else Returned (setProcessedLength (strlen content) st1)
  end.

End Pipeline.

(** The loop from index [i] on, with the turns that are left. *)
Definition splitFrom (html : jsstring) (i : Z) (stack : list StackEntry)
    (currentBlockStart : Z) (blocks : list jsstring) : Z * list jsstring :=
  splitLoop (Z.to_nat (strlen html - i)) html i stack currentBlockStart blocks.

End Legacy.

(* ================================================================== *)
(** ** Notions used by the statements *)
(* ================================================================== *)

(** The fenced code blocks of a buffer, read off its lines: for each, the
    offset at which its opening line starts and, when it is closed, the
    offset at which its closing line ends.  [opened] holds the start and
    the marker of the fence that is open at [pos]. *)
Fixpoint fenceSpans (rest : list jsstring) (pos : Z)
    (opened : option (Z * jsstring)) : list (Z * option Z) :=
  match rest with
  | [] => match opened with
          | Some (a, _) => [(a, None)]
          | None => []
          end
  | line :: rest' =>
      let next := pos + strlen line + 1 in
      match opened, fenceMatch line with
      | None, Some f => fenceSpans rest' next (Some (pos, f))
      | Some (a, f), Some g =>
          if streq g f
          then (a, Some (pos + strlen line)) :: fenceSpans rest' next None
          else fenceSpans rest' next opened
      | _, None => fenceSpans rest' next opened
      end
  end.

Definition fences (markdown : jsstring) : list (Z * option Z) :=
  fenceSpans (splitLines markdown) 0 None.

(** Cutting the buffer at offset [p] (the text before [p] is flushed)
    falls strictly inside the fence [span]: after the start of its opening
    line and not after the end of its closing line. *)
Definition cutsFence (span : Z * option Z) (p : Z) : Prop :=
  fst span < p /\ match snd span with
                  | Some e => p <= e
                  | None => True
                  end.

Definition insideFence (markdown : jsstring) (p : Z) : Prop :=
  exists span, In span (fences markdown) /\ cutsFence span p.

(** A helper leaves the fence state and the cursor alone. *)
Definition keepsFence (st st' : ScanState) : Prop :=
  inCodeBlock st' = inCodeBlock st /\
  codeBlockFence st' = codeBlockFence st /\
  currentIndex st' = currentIndex st.

(** A helper only appends offsets taken from [allowed]. *)
Definition appendsFrom (allowed : list Z) (bs bs' : list Z) : Prop :=
  exists new, bs' = bs ++ new /\ forall b, In b new -> In b allowed.

(** The fence state of the scan agrees with the fence that [fenceSpans]
    has open. *)
Definition fenceAgrees (st : ScanState) (opened : option (Z * jsstring)) : Prop :=
  match opened with
  | None => inCodeBlock st = false
  | Some (a, f) =>
      inCodeBlock st = true /\ codeBlockFence st = f /\ a < currentIndex st
  end.

(** The store [l'] continues the store [l]: no entry is removed or moved,
    no identifier changes, and the only entry whose [html] may differ is
    the last one of [l], and then only if it holds no image. *)
Definition continues (l l' : list Block) : Prop :=
  (length l <= length l')%nat /\
  forall i b, l !! i = Some b ->
    exists b', l' !! i = Some b' /\ id b' = id b /\
      ((S i < length l)%nat \/ containsImage (html b) = true ->
       html b' = html b).

(** The identifiers of the store are pairwise distinct and were all issued
    from counter values below the current one. *)
Definition wellFormed (st : State) : Prop :=
  0 <= blockCounter st /\
  NoDup (map id (renderBlocks st)) /\
  forall b, In b (renderBlocks st) ->
    exists k, 0 <= k < blockCounter st /\ id b = blockId k.

(** One operation of a stream that does not reset it. *)
Definition evolves (st st' : State) : Prop :=
  continues (renderBlocks st) (renderBlocks st') /\
  blockCounter st <= blockCounter st' /\
  (wellFormed st -> wellFormed st').

(** What the host sees of one operation on the store: the identifiers
    already issued stay where they are, new ones are only added after them,
    all are pairwise distinct, and every entry but the last one of the old
    store is exactly as it was. *)
Definition appendOnly (st st' : State) : Prop :=
  (exists added,
     map id (renderBlocks st') = map id (renderBlocks st) ++ added) /\
  NoDup (map id (renderBlocks st')) /\
  (forall i, (S i < length (renderBlocks st))%nat ->
             renderBlocks st' !! i = renderBlocks st !! i).

(** Code units that are not white space. *)
Definition inkCount (s : jsstring) : nat :=
  length (filter (fun c => isWhiteSpace c = false) s).

(** The text that isParagraphComplete looks at: the html with its tags
    removed, trimmed. *)
Definition strippedText (html : jsstring) : jsstring :=
  trim (replaceAll anyTag [] html).

(** A text ends in one of the six sentence-ending marks. *)
Definition endsInTerminator (text : jsstring) : bool :=
  match last text with
  | Some c => isTerminator c
  | None => false
  end.

(** A paragraph element as text: the opening tag with what stands between
    its name and its [>], the inner content, the closing tag, and white
    space after it. *)
Definition paragraphSpan (attrs inner trailing : jsstring) : jsstring :=
  js "<p" ++ attrs ++ js ">" ++ inner ++ js "</p>" ++ trailing.

(** The conditions under which the callback of appendNewContent reaches
    the paragraph branch of mergeBlocks: the block is not blank, there is a
    last stored block, shouldMergeBlocks accepts the pair, the last block
    passes the image check, and both are paragraph blocks. *)
Definition mergesAsParagraph (st : State) (blockHtml : jsstring) : bool :=
  negb (isEmpty (trim blockHtml)) &&
  match last (renderBlocks st) with
  | Some lastBlock =>
      shouldMergeBlocks (html lastBlock) blockHtml
      && negb (containsImage (html lastBlock))
      && (isParagraphBlock (html lastBlock) && isParagraphBlock blockHtml)
  | None => false
  end.

(** A line of running text: it holds no line feed, is not blank, and is
    neither a fence line, nor a heading, nor a list item. *)
Definition plainLine (line : jsstring) : bool :=
  forallb (fun c => negb (c =? 10)%N) line
  && negb (isEmpty (trim line))
  && bool_decide (fenceMatch line = None)
  && negb (headingMatch line)
  && bool_decide (listMatch line = None).

(** The text of a paragraph: complete lines, each ended by a line feed, and
    the beginning of one more line. *)
Definition paragraphText (ls : list jsstring) (final : jsstring) : jsstring :=
  concat (map (fun l => l ++ [10%N]) ls) ++ final.

(** What one helper can add to the boundaries: nothing, the offset before
    the line, the offset at its end, or both in that order. *)
Definition lineCuts (s e : Z) (bs bs' : list Z) : Prop :=
  bs' = bs \/ bs' = bs ++ [s - 1] \/ bs' = bs ++ [e] \/ bs' = bs ++ [s - 1; e].

(** The boundaries [bs] cut forward from offset [lastIndex]: each cut
    point (a boundary plus one) is at or after the one before it. *)
Fixpoint cutsFrom (lastIndex : Z) (bs : list Z) : Prop :=
  match bs with
  | [] => True
  | b :: rest => lastIndex <= b + 1 /\ cutsFrom (b + 1) rest
  end.

(** The value of [lastIndex] after the loop over the boundaries. *)
Fixpoint lastCut (lastIndex : Z) (bs : list Z) : Z :=
  match bs with
  | [] => lastIndex
  | b :: rest => lastCut (b + 1) rest
  end.

(** The slices of the buffer that the loop over the boundaries takes. *)
Fixpoint slices (buffer : jsstring) (lastIndex : Z) (bs : list Z)
  : list jsstring :=
  match bs with
  | [] => []
  | b :: rest => substring buffer lastIndex (b + 1) :: slices buffer (b + 1) rest
  end.

(** Rendering chunks in order, blank ones skipped, up to the first
    exception. *)
Fixpoint renderChunks (marked sanitizeAllowList sanitize : jsstring -> completion)
    (st : State) (chunks : list jsstring) : outcome :=
  match chunks with
  | [] => Returned st
  | c :: rest =>
      match (if isEmpty (trim c) then Returned st
             else appendNewContent marked sanitizeAllowList sanitize st c) with
      | Returned st1 => renderChunks marked sanitizeAllowList sanitize st1 rest
      | Threw st1 => Threw st1
      end
  end.

(** What the two watchers of the component react to: a new value of the
    [content] prop, or a new value of [isCompleted]. *)
Inductive event : Type :=
  | ContentIs (newContent : option jsstring)
  | CompletedIs (isCompleted : bool).

(** The state after one watcher has run; an exception that leaves the
    handler does not undo what it has done. *)
Definition step (marked sanitizeAllowList sanitize : jsstring -> completion)
    (st : State) (ev : event) : State :=
  stateOf match ev with
          | ContentIs newContent =>
              handleContentUpdate marked sanitizeAllowList sanitize st newContent
          | CompletedIs isCompleted =>
              handleCompleted marked sanitizeAllowList sanitize st isCompleted
          end.

(** The state after a sequence of events. *)
Definition run (marked sanitizeAllowList sanitize : jsstring -> completion)
    (st : State) (events : list event) : State :=
  fold_left (step marked sanitizeAllowList sanitize) events st.

(** The counter is the number of stored blocks and the block at index [i]
    has the identifier made from [i]. *)
Definition sequential (st : State) : Prop :=
  blockCounter st = Z.of_nat (length (renderBlocks st)) /\
  forall i b, renderBlocks st !! i = Some b -> id b = blockId (Z.of_nat i).

(** What may stand between the name of an opening tag and its [>]:
    nothing, or one white-space code unit followed by code units other than
    [>]. *)
Definition tagAttributes (attrs : jsstring) : bool :=
  match attrs with
  | [] => true
  | c :: r => isWhiteSpace c && forallb (fun d => negb (d =? 62)%N) r
  end.

(** The state follows the content delivered so far: the cursor is its
    length, and the buffer is its end (the text in front of the buffer is
    what has been flushed). *)
Definition follows (st : State) (content : jsstring) : Prop :=
  processedLength st = strlen content /\
  exists flushed, content = flushed ++ accumulatedMarkdown st.

(** The loop from index [i] on, with the turns that are left. *)
Definition splitFrom (html : jsstring) (i : Z) (stack : list StackEntry)
    (currentBlockStart : Z) (blocks : list jsstring) : Z * list jsstring :=
  splitLoop (Z.to_nat (strlen html - i)) html i stack currentBlockStart blocks.

(** A blockquote that holds one paragraph, as the converter writes it:
    white space may follow the opening tag, the paragraph and the closing
    tag. *)
Definition quotedParagraph (w1 inner w2 w3 : jsstring) : jsstring :=
  js "<blockquote>" ++ w1 ++ js "<p>" ++ inner ++ js "</p>" ++ w2
  ++ js "</blockquote>" ++ w3.

(** The state of the later component as the earlier one has it: without
    the buffer. *)
Definition withoutBuffer (st : State) : Legacy.State :=
  Legacy.mkState (renderBlocks st) (processedLength st) (blockCounter st).

(** A list with one item that holds a paragraph (a loose list), as the
    converter writes it. *)
Definition looseList (w1 w2 inner w3 w4 w5 : jsstring) : jsstring :=
  js "<ul>" ++ w1 ++ js "<li>" ++ w2 ++ js "<p>" ++ inner ++ js "</p>" ++ w3
  ++ js "</li>" ++ w4 ++ js "</ul>" ++ w5.

(** The state of the earlier component as the later one has it: with an
    empty buffer. *)
Definition withBuffer (st : Legacy.State) : State :=
  mkState (Legacy.renderBlocks st) (Legacy.processedLength st)
    (Legacy.blockCounter st) [].

(** The state of the earlier component after successive values of the
    [content] prop; an exception that leaves the handler does not undo what
    it has done. *)
Definition legacyRun (marked sanitizeAllowList sanitize : jsstring -> completion)
    (st : Legacy.State) (contents : list (option jsstring)) : Legacy.State :=
  fold_left
    (fun st newContent =>
       match Legacy.handleContentUpdate marked sanitizeAllowList sanitize st
               newContent with
       | Legacy.Returned st' => st'
       | Legacy.Threw st' => st'
       end) contents st.

(** A document of paragraphs, as the converter writes it: each item is the
    inner content of a paragraph element and the white space after it. *)
Definition paragraphs (items : list (jsstring * jsstring)) : jsstring :=
  concat (map (fun item => paragraphSpan [] (fst item) (snd item)) items).

(** An item of such a document: no [<] in the inner content, white space
    only after the element. *)
Definition flatItem (item : jsstring * jsstring) : Prop :=
  ~ In 60%N (fst item) /\ forallb isWhiteSpace (snd item) = true.

(* ================================================================== *)
(** ** Example inputs *)
(* ================================================================== *)

(** An opening fence, five hundred lines of code and the start of one
    more: 1506 code units, the fence still open. *)
Definition fencedBuffer : jsstring :=
  js "```\n" ++ concat (replicate 500 (js "xy\n")) ++ js "zz".

(** One line of five thousand letters: no line feed, no blank line, no
    fence. *)
Definition unbrokenLine : jsstring := replicate 5000 97%N.

(** One paragraph of three hundred short lines, no blank line, no fence,
    and the start of one more line. *)
Definition longParagraph : jsstring :=
  concat (replicate 300 (js "word\n")) ++ js "wo".

(** A store whose only block holds an image. *)
Definition imageState : State :=
  mkState [mkBlock (js "md-block-0") (js "<p>see <img src=a.png> here</p>")]
    30 1 [].

(** The output of the converter on the two list chunks of the list
    example (what marked returns for them); other text is handed back. *)
Definition markedOnLists (s : jsstring) : completion :=
  if streq s (js "- a\n- b\n\n") then Value (js "<ul>\n<li>a</li>\n<li>b</li>\n</ul>\n")
  else if streq s (js "- c\n") then Value (js "<ul>\n<li>c</li>\n</ul>\n")
  else Value s.

(** The scan state after the single line [- a]: in a list of indentation
    0, cursor at offset 4. *)
Definition afterFirstItem : ScanState := mkScan 4 false [] true 0 0.

(** A store whose only block is an unfinished sentence in a paragraph. *)
Definition paragraphState : State :=
  mkState [mkBlock (js "md-block-0") (js "<p>Hello </p>")] 6 1 [].

(* ================================================================== *)
(** ** Properties of the boundary detector *)
(* ================================================================== *)

Lemma strlen_nonneg (s : jsstring) : 0 <= strlen s.
Proof. unfold strlen. lia. Qed.

Lemma appendsFrom_refl allowed bs : appendsFrom allowed bs bs.
Proof. exists []. split; [by rewrite app_nil_r | intros b []]. Qed.

Lemma appendsFrom_one allowed bs x :
  In x allowed -> appendsFrom allowed bs (bs ++ [x]).
Proof. intros Hx. exists [x]. split; [done|]. intros b [<-|[]]. done. Qed.

Lemma appendsFrom_trans allowed bs1 bs2 bs3 :
  appendsFrom allowed bs1 bs2 -> appendsFrom allowed bs2 bs3 ->
  appendsFrom allowed bs1 bs3.
Proof.
  intros (n1 & -> & H1) (n2 & -> & H2). exists (n1 ++ n2).
  split; [by rewrite app_assoc|].
  intros b Hb. apply in_app_or in Hb as [Hb|Hb]; auto.
Qed.

Create HintDb scan.
#[local] Hint Resolve appendsFrom_refl appendsFrom_one appendsFrom_trans : scan.

Lemma keepsFence_refl st : keepsFence st st.
Proof. by repeat split. Qed.

#[local] Hint Resolve keepsFence_refl : scan.

Ltac break_if H :=
  repeat match type of H with
         | context [if ?c then _ else _] => destruct c eqn:?
         end.

Lemma processHeading_spec line i e st bs s hit st' bs' :
  processHeading line i e st bs s = (hit, st', bs') ->
  keepsFence st st' /\ appendsFrom [s - 1; e] bs bs'.
Proof.
  unfold processHeading. intros H. break_if H; inversion H; subst;
    (split; [by repeat split|]); eauto with scan.
  - eapply appendsFrom_trans; apply appendsFrom_one; simpl; auto.
  - apply appendsFrom_one; simpl; auto.
Qed.

Lemma processListItem_spec line i em e st bs s hit st' bs' :
  processListItem line i em e st bs s = (hit, st', bs') ->
  keepsFence st st' /\ appendsFrom [s - 1; e] bs bs'.
Proof.
  unfold processListItem. intros H.
  destruct em; [|destruct (listMatch line)]; break_if H; inversion H; subst;
    (split; [by repeat split|]); eauto with scan.
  apply appendsFrom_one; simpl; auto.
Qed.

Lemma processEmptyLine_spec line i em lines s st bs st' bs' :
  processEmptyLine line i em lines s st bs = (st', bs') ->
  keepsFence st st' /\ appendsFrom [s - 1] bs bs'.
Proof.
  unfold processEmptyLine. intros H.
  destruct (negb em); [break_if H; inversion H; subst; split; eauto with scan; by repeat split|].
  assert (appendsFrom [s - 1] bs
            (if gapBefore st i then bs ++ [s - 1] else bs)) as Hb.
  { destruct (gapBefore st i); eauto with scan. apply appendsFrom_one; simpl; auto. }
  destruct (inList st); [|inversion H; subst; split; eauto with scan].
  destruct (i <? Z.of_nat (length lines) - 1);
    [|inversion H; subst; split; [by repeat split | done]].
  destruct (lines !! Z.to_nat (i + 1)) as [nextLine|];
    [|inversion H; subst; split; [by repeat split | done]].
  destruct (listMatch nextLine) as [nextIndent|];
    [|inversion H; subst; split; [by repeat split | done]].
  destruct (nextIndent <? listIndent st);
    inversion H; subst; split; (done || by repeat split).
Qed.

(** One turn of the loop: where the cursor goes, which offsets can be
    recorded, and how the fence state moves. *)
Lemma scanLine_spec lines i line st bs st' bs' :
  scanLine lines i line st bs = (st', bs') ->
  currentIndex st' = currentIndex st + strlen line + 1 /\
  exists new, bs' = bs ++ new /\
    (forall b, In b new ->
       b = currentIndex st - 1 \/ b = currentIndex st + strlen line) /\
    match fenceMatch line with
    | None =>
        inCodeBlock st' = inCodeBlock st /\
        codeBlockFence st' = codeBlockFence st /\
        (inCodeBlock st = true -> new = [])
    | Some g =>
        if inCodeBlock st then
          if streq g (codeBlockFence st)
          then inCodeBlock st' = false /\ new = [currentIndex st + strlen line]
          else inCodeBlock st' = true /\
               codeBlockFence st' = codeBlockFence st /\ new = []
        else inCodeBlock st' = true /\ codeBlockFence st' = g /\
             (forall b, In b new -> b = currentIndex st - 1)
    end.
Proof.
  unfold scanLine, processCodeBlock. intros H.
  set (s := currentIndex st) in *. set (e := s + strlen line) in *.
  assert (Hlater : forall st1 b1 st4 b4,
    inCodeBlock st1 = false -> currentIndex st1 = s ->
    (let '(hit, st2, b2) := processHeading line i e st1 b1 s in
     if hit then (setCurrentIndex (e + 1) st2, b2)
     else
       let '(hit0, st3, b3) :=
         processListItem line i (isEmpty (trim line)) e st2 b2 s in
       if hit0 then (setCurrentIndex (e + 1) st3, b3)
       else
         let '(st5, b5) :=
           processEmptyLine line i (isEmpty (trim line)) lines s st3 b3 in
         (setCurrentIndex (e + 1) st5, b5)) = (st4, b4) ->
    currentIndex st4 = e + 1 /\ inCodeBlock st4 = false /\
    codeBlockFence st4 = codeBlockFence st1 /\
    appendsFrom [s - 1; e] b1 b4).
  { intros st1 b1 st4 b4 Hc1 Hs1 Hrun.
    destruct (processHeading line i e st1 b1 s) as [[hit st2] b2] eqn:Hh.
    apply processHeading_spec in Hh as [(Hk1 & Hk2 & Hk3) Ha].
    destruct hit; [inversion Hrun; subst; simpl; repeat split; congruence || done|].
    destruct (processListItem line i (isEmpty (trim line)) e st2 b2 s)
      as [[hit st3] b3] eqn:Hl.
    apply processListItem_spec in Hl as [(Hl1 & Hl2 & Hl3) Hb].
    destruct hit.
    { inversion Hrun; subst; simpl.
      repeat split; try congruence. eauto with scan. }
    destruct (processEmptyLine line i (isEmpty (trim line)) lines s st3 b3)
      as [st5 b5] eqn:He.
    apply processEmptyLine_spec in He as [(He1 & He2 & He3) Hc].
    inversion Hrun; subst; simpl. repeat split; try congruence.
    eapply appendsFrom_trans; [exact Ha|].
    eapply appendsFrom_trans; [exact Hb|].
    destruct Hc as (new & -> & Hnew). exists new. split; [done|].
    intros b Hin. apply Hnew in Hin. simpl in *. tauto. }
  assert (Hin2 : forall new : list Z,
    (forall b, In b new -> In b [s - 1; e]) ->
    forall b, In b new -> b = s - 1 \/ b = e).
  { intros new Hn b Hb. apply Hn in Hb. simpl in Hb. intuition. }
  destruct (fenceMatch line) as [g|] eqn:Hf.
  - destruct (inCodeBlock st) eqn:Hc; simpl in H.
    + destruct (streq g (codeBlockFence st)) eqn:Hg; simpl in H.
      * inversion H; subst; simpl. split; [subst e; lia|].
        exists [e]. repeat split; auto. intros b [<-|[]]. by right.
      * rewrite Hc in H. inversion H; subst; simpl. split; [subst e; lia|].
        exists []. rewrite app_nil_r. repeat split; auto. intros b [].
    + inversion H; subst; simpl. split; [subst e; lia|].
      destruct (gapBefore st i).
      * exists [s - 1]. repeat split; auto; intros b [<-|[]]; auto.
      * exists []. rewrite app_nil_r. repeat split; auto; intros b [].
  - simpl in H. destruct (inCodeBlock st) eqn:Hc.
    + inversion H; subst; simpl. split; [subst e; lia|].
      exists []. rewrite app_nil_r. repeat split; auto. intros b [].
    + apply Hlater in H as (H1 & H2 & H3 & new & -> & Hnew); auto.
      split; [subst e; lia|]. exists new. repeat split; eauto; congruence.
Qed.

Lemma fenceSpans_start rest : forall pos opened span,
  In span (fenceSpans rest pos opened) ->
  pos <= fst span \/ exists f, opened = Some (fst span, f).
Proof.
  induction rest as [|line rest IH]; intros pos opened span Hin; simpl in Hin.
  - destruct opened as [[a f]|]; [|done]. destruct Hin as [<-|[]]. eauto.
  - pose proof (strlen_nonneg line) as Hlen.
    destruct opened as [[a f]|], (fenceMatch line) as [g|].
    + destruct (streq g f).
      * destruct Hin as [<-|Hin]; [eauto|].
        apply IH in Hin as [Hin|[f' Hin]]; [left; lia | done].
      * apply IH in Hin as [Hin|[f' Hin]]; [left; lia | eauto].
    + apply IH in Hin as [Hin|[f' Hin]]; [left; lia | eauto].
    + apply IH in Hin as [Hin|[f' Hin]]; [left; lia|].
      left. inversion Hin. lia.
    + apply IH in Hin as [Hin|[f' Hin]]; [left; lia | done].
Qed.

(** Every offset the loop records from here on lies at or after the
    cursor and cuts no fence. *)
Lemma scanLines_no_cut lines rest : forall i st bs opened b,
  fenceAgrees st opened ->
  In b (scanLines lines rest i st bs) ->
  In b bs \/
  ((currentIndex st - 1 <= b) /\
   (forall span, In span (fenceSpans rest (currentIndex st) opened) ->
                 ~ cutsFence span (b + 1))).
Proof.
  induction rest as [|line rest IH]; intros i st bs opened b Hag Hin;
    simpl in Hin; [by left|].
  destruct (scanLine lines i line st bs) as [st' bs'] eqn:Hstep.
  pose proof (strlen_nonneg line) as Hlen.
  apply scanLine_spec in Hstep as (Hcur & new & -> & Hnew & Hfence).
  set (pos := currentIndex st) in *.
  (* the fence that is open after this line *)
  set (opened' :=
         match opened, fenceMatch line with
         | None, Some f => Some (pos, f)
         | Some (a, f), Some g => if streq g f then None else opened
         | _, None => opened
         end).
  assert (Hag' : fenceAgrees st' opened').
  { subst opened'. unfold fenceAgrees in *.
    destruct opened as [[a f]|], (fenceMatch line) as [g|].
    - destruct Hag as (Hc & Hf & Ha). rewrite Hc, Hf in Hfence.
      destruct (streq g f); [tauto|].
      destruct Hfence as (? & ? & _). repeat split; auto; try congruence. lia.
    - destruct Hag as (Hc & Hf & Ha). destruct Hfence as (-> & -> & _).
      repeat split; auto. lia.
    - rewrite Hag in Hfence. destruct Hfence as (-> & -> & _).
      repeat split; auto. lia.
    - destruct Hfence as (-> & _). done. }
  assert (Hspans : forall span,
    In span (fenceSpans (line :: rest) pos opened) ->
    In span (fenceSpans rest (currentIndex st') opened') \/
    exists a f g, opened = Some (a, f) /\ fenceMatch line = Some g /\
                  streq g f = true /\ span = (a, Some (pos + strlen line))).
  { intros span Hs. simpl in Hs. rewrite Hcur. subst opened'.
    destruct opened as [[a f]|], (fenceMatch line) as [g|] eqn:Hm; auto.
    destruct (streq g f) eqn:Hg; auto.
    destruct Hs as [<-|Hs]; [right; eauto 10 | auto]. }
  apply (IH _ _ _ _ _ Hag') in Hin as [Hin|[Hlow Hno]].
  - apply in_app_or in Hin as [Hin|Hin]; [by left|]. right.
    split; [apply Hnew in Hin; lia|].
    intros span Hs [Hc1 Hc2].
    apply Hspans in Hs as [Hs|(a & f & g & -> & Hm & Hg & ->)].
    + (* a fence that starts at this line or later *)
      apply fenceSpans_start in Hs as [Hs|[f Hs]].
      * apply Hnew in Hin. lia.
      * subst opened'.
        destruct opened as [[a f0]|], (fenceMatch line) as [g|] eqn:Hm.
        -- destruct Hag as (Hc & Hf & Ha). rewrite Hc, Hf in Hfence.
           destruct (streq g f0); [done|].
           destruct Hfence as (_ & _ & ->). done.
        -- destruct Hag as (Hc & Hf & Ha). destruct Hfence as (_ & _ & Hn).
           rewrite (Hn Hc) in Hin. done.
        -- simpl in Hag. rewrite Hag in Hfence.
           destruct Hfence as (_ & _ & Hn). apply Hn in Hin.
           inversion Hs. lia.
        -- done.
    + (* the fence that this line closes *)
      simpl in Hc2. destruct Hag as (Hc & Hf & Ha).
      rewrite Hm, Hc, Hf, Hg in Hfence. destruct Hfence as [_ ->].
      destruct Hin as [<-|[]]. lia.
  - right. split; [lia|].
    intros span Hs [Hc1 Hc2].
    apply Hspans in Hs as [Hs|(a & f & g & -> & Hm & Hg & ->)].
    + by apply (Hno span Hs).
    + simpl in Hc2. lia.
Qed.


(** C1, the part that holds: no offset returned by detectBlockBoundaries
    cuts the buffer strictly inside a fenced code block, closed or still
    open, whatever the lines of the fence body look like. *)
Theorem detectBlockBoundaries_outside_fences (markdown : jsstring) (b : Z) :
  In b (detectBlockBoundaries markdown) -> ~ insideFence markdown (b + 1).
Proof.
  unfold detectBlockBoundaries, insideFence, fences.
  intros Hin (span & Hspan & Hcut).
  apply (scanLines_no_cut _ _ _ _ _ None) in Hin as [[]|[_ Hno]]; [|done].
  by apply (Hno span).
Qed.

Lemma detectBlockBoundaries_outside_fences_witness :
  In 21 (detectBlockBoundaries (js "text\n```\n\n# h\n- x\n```\nafter\n\n")) /\
  ~ insideFence (js "text\n```\n\n# h\n- x\n```\nafter\n\n") (21 + 1).
Proof.
  split; [vm_compute; auto|].
  apply detectBlockBoundaries_outside_fences. vm_compute. auto.
Defined.

(** C1, the part that fails: the size-based fallback of
    processAccumulatedContent cuts at the last line feed of the buffer
    without looking at fences.  On [fencedBuffer] no boundary is detected,
    the only fence starts at offset 0 and is never closed, and the fallback
    flushes the first 1504 code units, leaving the rest of the code in the
    buffer. *)
Lemma overflow_cuts_open_fence :
  detectBlockBoundaries fencedBuffer = [] /\
  fences fencedBuffer = [(0, None)] /\
  lastIndexOf 10 fencedBuffer + 1 = 1504 /\
  processAccumulatedContent echo echo echo
    (setAccumulated fencedBuffer initialState)
  = Returned (mkState [mkBlock (js "md-block-0") (take 1504 fencedBuffer)]
                0 1 (js "zz")) /\
  insideFence fencedBuffer 1504.
Proof.
  repeat split; try (vm_compute; reflexivity).
  exists (0, None). split; [vm_compute; auto|]. split; simpl; [lia | done].
Qed.

(** C6, as the code has it: on a blank line inside a list the detector
    stays in the list exactly when the line right after the blank one is
    already in the buffer and is a list item indented at least as much as
    the list; an offset is recorded at the blank line exactly when the last
    recorded non-blank line lies two or more lines back, list or no list;
    and the buffer of two items, one blank line and a third item, scanned
    as a whole, yields no boundary, so the three items reach the converter
    together. *)
Theorem blank_line_in_list (line : jsstring) (lineIndex lineStartIndex : Z)
    (lines : list jsstring) (st : ScanState) (boundaries : list Z) :
  inList st = true ->
  0 <= lineIndex ->
  (inList (fst (processEmptyLine line lineIndex true lines lineStartIndex
                  st boundaries)) = true
   <-> exists nextLine nextIndent,
         lines !! Z.to_nat (lineIndex + 1) = Some nextLine /\
         listMatch nextLine = Some nextIndent /\
         listIndent st <= nextIndent) /\
  snd (processEmptyLine line lineIndex true lines lineStartIndex st boundaries)
  = (if gapBefore st lineIndex then boundaries ++ [lineStartIndex - 1]
     else boundaries) /\
  detectBlockBoundaries (js "- a\n- b\n\n- c\n") = [].
Proof.
  intros Hin Hi. unfold processEmptyLine. cbn [negb]. rewrite Hin.
  split; [|split; [|reflexivity]].
  - destruct (Z.ltb_spec lineIndex (Z.of_nat (length lines) - 1)) as [Hlt|Hge].
    + destruct (lines !! Z.to_nat (lineIndex + 1)) as [nextLine|] eqn:Hnext.
      * destruct (listMatch nextLine) as [nextIndent|] eqn:Hm.
        -- destruct (Z.ltb_spec nextIndent (listIndent st)); cbn; rewrite ?Hin.
           ++ split; [done|]. intros (l & n & Hl & Hn & Hle).
              inversion Hl; subst l. rewrite Hm in Hn. inversion Hn. lia.
           ++ split; [eauto|done].
        -- cbn. split; [done|]. intros (l & n & Hl & Hn & _).
           inversion Hl; subst l. congruence.
      * cbn. split; [done|]. intros (l & n & Hl & _). done.
    + cbn. split; [done|]. intros (l & n & Hl & _).
      apply lookup_lt_Some in Hl. lia.
  - destruct (lineIndex <? Z.of_nat (length lines) - 1); [|reflexivity].
    destruct (lines !! Z.to_nat (lineIndex + 1)) as [nextLine|]; [|reflexivity].
    destruct (listMatch nextLine) as [nextIndent|]; [|reflexivity].
    destruct (nextIndent <? listIndent st); reflexivity.
Qed.

Lemma blank_line_in_list_witness :
  inList (fst (processEmptyLine [] 2 true (splitLines (js "- a\n- b\n\n- c\n"))
                 8 (mkScan 8 false [] true 0 1) [])) = true.
Proof.
  assert (H1 : inList (mkScan 8 false [] true 0 1) = true) by reflexivity.
  assert (H2 : 0 <= 2) by lia.
  destruct (blank_line_in_list [] 2 8 (splitLines (js "- a\n- b\n\n- c\n"))
              (mkScan 8 false [] true 0 1) [] H1 H2) as [[_ H] _].
  apply H. exists (js "- c"), 0. repeat split. cbn. lia.
Defined.

(** C6, where it fails.  The detector looks at the line right after the
    blank one, not at the next non-blank line, and a blank line that ends
    the buffer always closes the list.  In [- a], two blank lines, [- b],
    the first blank line closes the list although the next non-blank line
    is an item of the same indentation, and the second records offset 4.
    Fed as four deltas, the two first items are cut off at offset 8 as soon
    as the blank line arrives, before the third item is there: the third
    item is rendered from a chunk of its own and the store ends with two
    lists. *)
Lemma list_cut_before_resuming_item :
  scanLine (splitLines (js "- a\n\n\n- b\n")) 0 (js "- a") initialScan []
  = (afterFirstItem, []) /\
  processEmptyLine [] 1 true (splitLines (js "- a\n\n\n- b\n")) 4 afterFirstItem []
  = (setList false (-1) afterFirstItem, []) /\
  listMatch (js "- b") = Some (listIndent afterFirstItem) /\
  detectBlockBoundaries (js "- a\n\n\n- b\n") = [4] /\
  detectBlockBoundaries (js "- a\n- b\n\n") = [8] /\
  feed markedOnLists echo echo initialState
    [js "- a\n"; js "- a\n- b\n"; js "- a\n- b\n\n"; js "- a\n- b\n\n- c\n"]
  = Returned (mkState [mkBlock (js "md-block-0")
                         (js "<ul>\n<li>a</li>\n<li>b</li>\n</ul>")]
                13 1 (js "- c\n")) /\
  handleCompleted markedOnLists echo echo
    (mkState [mkBlock (js "md-block-0") (js "<ul>\n<li>a</li>\n<li>b</li>\n</ul>")]
       13 1 (js "- c\n")) true
  = Returned (mkState [mkBlock (js "md-block-0")
                         (js "<ul>\n<li>a</li>\n<li>b</li>\n</ul>");
                       mkBlock (js "md-block-1") (js "<ul>\n<li>c</li>\n</ul>")]
                13 2 []).
Proof. repeat split; vm_compute; reflexivity. Qed.

(* ================================================================== *)
(** ** Properties of the string primitives *)
(* ================================================================== *)

Lemma lastIndexOfFrom_spec c s : forall i found,
  (lastIndexOfFrom c s i found = found /\ ~ In c s) \/
  (i <= lastIndexOfFrom c s i found < i + strlen s /\
   s !! Z.to_nat (lastIndexOfFrom c s i found - i) = Some c /\
   ~ In c (drop (S (Z.to_nat (lastIndexOfFrom c s i found - i))) s)).
Proof.
  induction s as [|d s IH]; intros i found; simpl; [left; auto|].
  unfold strlen in *. cbn [length].
  destruct (IH (i + 1) (if (d =? c)%N then i else found))
    as [[Hk Hno]|(Hrange & Hat & Hno)].
  - rewrite Hk. destruct (N.eqb_spec d c) as [->|Hne].
    + right. replace (i - i) with 0 by lia. cbn. split; [lia|]. auto.
    + left. split; [done|]. intros [?|?]; auto.
  - right. set (k := lastIndexOfFrom c s (i + 1) _) in *.
    replace (Z.to_nat (k - i)) with (S (Z.to_nat (k - (i + 1)))) by lia.
    cbn. split; [lia|]. auto.
Qed.

(** [lastIndexOf] at a non-negative result: the code unit is there and does
    not occur after it. *)
Lemma lastIndexOf_found c s k :
  lastIndexOf c s = k -> 0 <= k ->
  k < strlen s /\ s !! Z.to_nat k = Some c /\ ~ In c (drop (S (Z.to_nat k)) s).
Proof.
  unfold lastIndexOf. intros <- Hk.
  destruct (lastIndexOfFrom_spec c s 0 (-1)) as [[Hm _]|(Hr & Hat & Hno)];
    [lia|].
  rewrite Z.sub_0_r in *. split; [lia | auto].
Qed.

Lemma substring_prefix s k :
  0 <= k <= strlen s -> substring s 0 k = take (Z.to_nat k) s.
Proof.
  intros Hk. unfold substring, clamp.
  replace (Z.to_nat (Z.min (Z.max 0 0) (strlen s))) with 0%nat by lia.
  replace (Z.to_nat (Z.min (Z.max k 0) (strlen s))) with (Z.to_nat k) by lia.
  rewrite Nat.max_0_l, Nat.min_0_l, Nat.sub_0_r. reflexivity.
Qed.

Lemma substringFrom_drop s k :
  0 <= k <= strlen s -> substringFrom s k = drop (Z.to_nat k) s.
Proof.
  intros Hk. unfold substringFrom, clamp. f_equal. lia.
Qed.

Lemma existsSuffix_true f s :
  existsSuffix f s = true <-> exists pre t, s = pre ++ t /\ f t = true.
Proof.
  induction s as [|c s IH]; simpl.
  - rewrite orb_false_r. split.
    + intros H. by exists [], [].
    + intros (pre & t & Heq & Hf). symmetry in Heq.
      apply app_eq_nil in Heq as [-> ->]. done.
  - rewrite orb_true_iff, IH. split.
    + intros [H|(pre & t & -> & Hf)].
      * by exists [], (c :: s).
      * by exists (c :: pre), t.
    + intros (pre & t & Heq & Hf). destruct pre as [|d pre].
      * left. simpl in Heq. by subst t.
      * right. inversion Heq; subst. eauto.
Qed.

Lemma stripPrefix_exact pat : forall s r,
  stripPrefix false pat s = Some r <-> s = pat ++ r.
Proof.
  induction pat as [|p pat IH]; intros s r; simpl.
  - split; [by intros [= ->] | by intros ->].
  - destruct s as [|c s]; [split; intros; discriminate|].
    unfold charEq. destruct (N.eqb_spec p c) as [->|Hne].
    + rewrite IH. split; [by intros -> | by intros [= ->]].
    + split; [discriminate | intros [= ? ?]; done].
Qed.

Lemma charEq_refl ci p : charEq ci p p = true.
Proof. unfold charEq. destruct ci; apply N.eqb_refl. Qed.

Lemma stripPrefix_app ci pat r : stripPrefix ci pat (pat ++ r) = Some r.
Proof.
  induction pat as [|p pat IH]; simpl; [done|]. by rewrite charEq_refl.
Qed.

Lemma takeWhile_dropWhile f s : s = takeWhile f s ++ dropWhile f s.
Proof.
  induction s as [|c s IH]; simpl; [done|].
  destruct (f c); simpl; [by f_equal | done].
Qed.

Lemma takeWhile_all f s : forallb f (takeWhile f s) = true.
Proof.
  induction s as [|c s IH]; simpl; [done|].
  destruct (f c) eqn:Hc; simpl; [by rewrite Hc | done].
Qed.

Lemma dropWhile_head f s c r : dropWhile f s = c :: r -> f c = false.
Proof.
  induction s as [|d s IH]; simpl; [done|].
  destruct (f d) eqn:Hd; [done|]. by intros [= <- <-].
Qed.

Lemma dropWhile_skip f a rest :
  forallb f a = true -> dropWhile f (a ++ rest) = dropWhile f rest.
Proof.
  induction a as [|c a IH]; simpl; [done|].
  destruct (f c); simpl; [done | discriminate].
Qed.

Lemma forallb_rev (f : N -> bool) s : forallb f (rev s) = forallb f s.
Proof.
  induction s as [|c s IH]; simpl; [done|].
  rewrite forallb_app, IH. simpl. rewrite andb_true_r. apply andb_comm.
Qed.

(** [trim] removes white space at both ends and nothing else. *)
Lemma trim_decompose s :
  exists l r, s = l ++ trim s ++ r /\
              forallb isWhiteSpace l = true /\ forallb isWhiteSpace r = true.
Proof.
  exists (takeWhile isWhiteSpace s),
         (rev (takeWhile isWhiteSpace (rev (trimStart s)))).
  split; [|split].
  - rewrite (takeWhile_dropWhile isWhiteSpace s) at 1. f_equal.
    unfold trim, trimEnd. fold (trimStart s).
    rewrite <- rev_app_distr, <- takeWhile_dropWhile. by rewrite rev_involutive.
  - apply takeWhile_all.
  - rewrite forallb_rev. apply takeWhile_all.
Qed.

Lemma last_rev_head {A} (l : list A) : last (rev l) = head l.
Proof. destruct l as [|x l]; [done|]. simpl. by rewrite last_snoc. Qed.

(** The last code unit of a trimmed string is not white space. *)
Lemma trim_last s c : last (trim s) = Some c -> isWhiteSpace c = false.
Proof.
  unfold trim, trimEnd. rewrite last_rev_head.
  destruct (dropWhile isWhiteSpace (rev (trimStart s))) as [|d r] eqn:Hd;
    [done|].
  intros [= <-]. by eapply dropWhile_head.
Qed.

Lemma afterFirstGt_skip a rest :
  ~ In 62%N a -> afterFirstGt (a ++ 62%N :: rest) = Some rest.
Proof.
  intros Hno. unfold afterFirstGt. rewrite dropWhile_skip; [done|].
  apply forallb_forall. intros c Hc. destruct (N.eqb_spec c 62); [|done].
  subst c. done.
Qed.

Lemma afterFirstGt_some s : In 62%N s -> is_Some (afterFirstGt s).
Proof.
  intros Hin. unfold afterFirstGt.
  destruct (dropWhile (fun c => negb (c =? 62)%N) s) as [|d r] eqn:Hd; [|eauto].
  exfalso. induction s as [|c s IH]; [done|]. simpl in Hd.
  destruct (N.eqb_spec c 62) as [->|Hne]; [done|]. simpl in Hd.
  destruct Hin as [->|Hin]; [done | auto].
Qed.

Lemma inkCount_app a b : inkCount (a ++ b) = (inkCount a + inkCount b)%nat.
Proof. unfold inkCount. by rewrite filter_app, length_app. Qed.

Lemma inkCount_blank s : forallb isWhiteSpace s = true -> inkCount s = 0%nat.
Proof.
  unfold inkCount. induction s as [|c s IH]; simpl; [done|].
  intros [Hc Hs]%andb_true_iff. rewrite filter_cons.
  destruct (decide (isWhiteSpace c = false)); [congruence | auto].
Qed.

Lemma inkCount_cons_ink c s :
  isWhiteSpace c = false -> inkCount (c :: s) = S (inkCount s).
Proof.
  intros Hc. unfold inkCount. rewrite filter_cons.
  by destruct (decide (isWhiteSpace c = false)).
Qed.

Lemma cutAtSuffix_app f x y :
  f y = true ->
  (forall x1 c x2, x = x1 ++ c :: x2 -> f (c :: x2 ++ y) = false) ->
  cutAtSuffix f (x ++ y) = x.
Proof.
  intros Hy. induction x as [|c x IH]; intros Hx.
  - simpl. destruct y; simpl; by rewrite Hy.
  - simpl. rewrite (Hx [] c x eq_refl). f_equal. apply IH.
    intros x1 d x2 ->. apply (Hx (c :: x1) d x2). done.
Qed.

(** Removing the closing paragraph tag at the end removes exactly the last
    closing tag and the white space after it. *)
Lemma cut_closing_paragraph x w :
  forallb isWhiteSpace w = true ->
  cutAtSuffix (closeTagToEnd false [js "p"]) (x ++ js "</p>" ++ w) = x.
Proof.
  intros Hw. apply cutAtSuffix_app.
  - unfold closeTagToEnd. simpl. exact Hw.
  - intros x1 c x2 -> . destruct (closeTagToEnd false [js "p"] _) eqn:Hc; [|done].
    exfalso. unfold closeTagToEnd in Hc. cbn [closeTag] in Hc.
    destruct (stripPrefix false (js "</" ++ js "p" ++ js ">") _) as [r|] eqn:Hs;
      [|done].
    apply stripPrefix_exact in Hs.
    assert (Hcount : inkCount (c :: x2 ++ js "</p>" ++ w)
                     = inkCount ((js "</" ++ js "p" ++ js ">") ++ r))
      by (by rewrite Hs).
    assert (c = 60%N) as -> by (by inversion Hs).
    rewrite inkCount_cons_ink, !inkCount_app in Hcount by done.
    rewrite (inkCount_blank w), (inkCount_blank r) in Hcount by done.
    change (inkCount (js "</p>")) with 4%nat in Hcount.
    change (inkCount (js "</")) with 2%nat in Hcount.
    change (inkCount (js "p")) with 1%nat in Hcount.
    change (inkCount (js ">")) with 1%nat in Hcount. lia.
Qed.

(* ================================================================== *)
(** ** Properties of the block store *)
(* ================================================================== *)

Lemma digits_inj d : forall d', digits d = digits d' -> d = d'.
Proof.
  induction d; intros d' H; destruct d'; simpl in H; try discriminate;
    try reflexivity; inversion H; f_equal; auto.
Qed.

Lemma digits_no_minus d : forall r, digits d <> 45%N :: r.
Proof. destruct d; simpl; intros r H; discriminate. Qed.

Lemma numberToString_inj j k : numberToString j = numberToString k -> j = k.
Proof.
  unfold numberToString. intros H. apply DecimalZ.to_int_inj.
  destruct (Z.to_int j) as [d|d], (Z.to_int k) as [d'|d'].
  - f_equal. by apply digits_inj.
  - by apply digits_no_minus in H.
  - symmetry in H. by apply digits_no_minus in H.
  - inversion H. f_equal. by apply digits_inj.
Qed.

Lemma blockId_inj j k : blockId j = blockId k -> j = k.
Proof.
  unfold blockId. intros H. apply app_inv_head in H.
  by apply numberToString_inj.
Qed.

Lemma continues_refl l : continues l l.
Proof. split; [lia|]. intros i b Hb. exists b. auto. Qed.

Lemma continues_trans l1 l2 l3 :
  continues l1 l2 -> continues l2 l3 -> continues l1 l3.
Proof.
  intros [Hl1 H1] [Hl2 H2]. split; [lia|].
  intros i b Hb. destruct (H1 i b Hb) as (b' & Hb' & Hid & Hh).
  destruct (H2 i b' Hb') as (b'' & Hb'' & Hid' & Hh').
  exists b''. repeat split; [done | congruence |].
  intros Hc. rewrite Hh' , Hh; auto.
  destruct Hc as [Hc|Hc]; [left; lia | right; rewrite Hh; auto].
Qed.

Lemma evolves_refl st : evolves st st.
Proof. split; [apply continues_refl|]. split; [lia | auto]. Qed.

Lemma evolves_trans st1 st2 st3 :
  evolves st1 st2 -> evolves st2 st3 -> evolves st1 st3.
Proof.
  intros (H1 & Hc1 & Hw1) (H2 & Hc2 & Hw2).
  split; [eapply continues_trans; eauto|]. split; [lia | auto].
Qed.

Lemma pushBlock_evolves st h : evolves st (pushBlock st h).
Proof.
  split; [|split].
  - unfold pushBlock; cbn [renderBlocks]. split; [rewrite length_app; lia|].
    intros i b Hb. exists b. split; [|auto]. by apply lookup_app_l_Some.
  - unfold pushBlock; cbn [blockCounter]. lia.
  - intros (Hpos & Hnd & Hids). unfold wellFormed, pushBlock.
    cbn [renderBlocks blockCounter]. split; [lia|]. split.
    + rewrite map_app. apply NoDup_app. split; [done|].
      split; [|apply NoDup_singleton].
      intros x Hx Hx'. apply list_elem_of_singleton in Hx'. subst x.
      apply list_elem_of_In, in_map_iff in Hx as (b & Hb & Hin).
      apply Hids in Hin as (k & Hk & Hid). cbn [id] in Hb. rewrite Hid in Hb.
      apply blockId_inj in Hb. lia.
    + intros b Hb. apply in_app_or in Hb as [Hb|[<-|[]]].
      * apply Hids in Hb as (k & Hk & Hid). exists k. split; [lia | done].
      * exists (blockCounter st). split; [lia | done].
Qed.

Lemma mergeBlocks_id lastBlock cur merged :
  mergeBlocks lastBlock cur = Some merged -> id merged = id lastBlock.
Proof.
  unfold mergeBlocks. intros H.
  repeat match type of H with
         | context [if ?c then _ else _] => destruct c
         end; inversion H; reflexivity.
Qed.

Lemma assignLast_evolves st lastBlock merged :
  last (renderBlocks st) = Some lastBlock ->
  containsImage (html lastBlock) = false ->
  id merged = id lastBlock ->
  evolves st (assignLast st merged).
Proof.
  intros Hlast Himg Hid. rewrite last_lookup in Hlast.
  assert (Hlen : (0 < length (renderBlocks st))%nat).
  { apply lookup_lt_Some in Hlast. lia. }
  replace (Nat.pred (length (renderBlocks st)))
    with (length (renderBlocks st) - 1)%nat in Hlast by lia.
  assert (Hids :
    map id (<[(length (renderBlocks st) - 1)%nat := merged]> (renderBlocks st))
    = map id (renderBlocks st)).
  { change (map id) with (fmap (M:=list) id).
    rewrite list_fmap_insert, list_insert_id; [done|].
    by rewrite list_lookup_fmap, Hlast, Hid. }
  split; [|split].
  - unfold assignLast; cbn [renderBlocks]. split; [by rewrite length_insert|].
    intros i b Hb.
    destruct (decide (i = (length (renderBlocks st) - 1)%nat)) as [->|Hne].
    + exists merged. rewrite list_lookup_insert_eq by lia.
      assert (b = lastBlock) as -> by congruence.
      repeat split; [done|]. intros [Hc|Hc]; [lia | congruence].
    + exists b. by rewrite list_lookup_insert_ne.
  - unfold assignLast; cbn [blockCounter]. lia.
  - intros (Hpos & Hnd & Hk). unfold wellFormed, assignLast.
    cbn [renderBlocks blockCounter]. rewrite Hids. repeat split; [done..|].
    intros b Hb. apply list_elem_of_In, list_elem_of_lookup in Hb as [i Hb].
    destruct (decide (i = (length (renderBlocks st) - 1)%nat)) as [->|Hne].
    + rewrite list_lookup_insert_eq in Hb by lia. inversion Hb; subst b.
      rewrite Hid. apply Hk, list_elem_of_In, list_elem_of_lookup. eauto.
    + rewrite list_lookup_insert_ne in Hb by done.
      apply Hk, list_elem_of_In, list_elem_of_lookup. eauto.
Qed.

Lemma appendBlock_evolves st blockHtml : evolves st (appendBlock st blockHtml).
Proof.
  unfold appendBlock.
  destruct (isEmpty (trim blockHtml)); [apply evolves_refl|].
  destruct (last (renderBlocks st)) as [lastBlock|] eqn:Hlast;
    [|apply pushBlock_evolves].
  destruct (shouldMergeBlocks (html lastBlock) blockHtml);
    [|apply pushBlock_evolves].
  destruct (containsImage (html lastBlock)) eqn:Himg;
    [apply pushBlock_evolves|].
  destruct (mergeBlocks lastBlock blockHtml) as [merged|] eqn:Hm;
    [|apply evolves_refl].
  eapply assignLast_evolves; eauto using mergeBlocks_id.
Qed.

Lemma fold_appendBlock_evolves blocks : forall st,
  evolves st (fold_left appendBlock blocks st).
Proof.
  induction blocks as [|b blocks IH]; intros st; simpl; [apply evolves_refl|].
  eapply evolves_trans; [apply appendBlock_evolves | apply IH].
Qed.

Section PipelineFacts.

Variables marked sanitizeAllowList sanitize : jsstring -> completion.

#[local] Abbreviation appendNewContent :=
  (appendNewContent marked sanitizeAllowList sanitize).
#[local] Abbreviation renderFallback := (renderFallback sanitize).
#[local] Abbreviation flushBoundaries :=
  (flushBoundaries marked sanitizeAllowList sanitize).
#[local] Abbreviation flushOverflow :=
  (flushOverflow marked sanitizeAllowList sanitize).
#[local] Abbreviation processAccumulatedContent :=
  (processAccumulatedContent marked sanitizeAllowList sanitize).
#[local] Abbreviation handleContentUpdate :=
  (handleContentUpdate marked sanitizeAllowList sanitize).
#[local] Abbreviation handleCompleted :=
  (handleCompleted marked sanitizeAllowList sanitize).

Lemma renderFallback_evolves st newPart :
  evolves st (stateOf (renderFallback st newPart)).
Proof.
  unfold Component.renderFallback.
  destruct (sanitize newPart); cbn [stateOf]; [apply pushBlock_evolves|].
  split; [apply continues_refl|]. cbn [blockCounter renderBlocks].
  split; [lia|]. intros (Hpos & Hnd & Hk). repeat split; cbn; [lia | done |].
  intros b Hb. apply Hk in Hb as (k & ? & ?). exists k. split; [lia | done].
Qed.

Lemma appendNewContent_evolves st newPart :
  evolves st (stateOf (appendNewContent st newPart)).
Proof.
  unfold Component.appendNewContent.
  destruct (marked newPart) as [h|]; [|apply renderFallback_evolves].
  destruct (sanitizeAllowList h) as [c|]; [|apply renderFallback_evolves].
  apply fold_appendBlock_evolves.
Qed.

Lemma setAccumulated_evolves st buffer : evolves st (setAccumulated buffer st).
Proof. split; [apply continues_refl|]. split; [cbn; lia | auto]. Qed.

Lemma setProcessedLength_evolves st n : evolves st (setProcessedLength n st).
Proof. split; [apply continues_refl|]. split; [cbn; lia | auto]. Qed.

Lemma flushBoundaries_evolves boundaries : forall st lastIndex,
  evolves st (stateOf (fst (flushBoundaries st lastIndex boundaries))).
Proof.
  induction boundaries as [|b rest IH]; intros st lastIndex; simpl;
    [apply evolves_refl|].
  destruct (isEmpty (trim _)); [apply IH|].
  pose proof (appendNewContent_evolves st
    (substring (accumulatedMarkdown st) lastIndex (b + 1))) as Hev.
  destruct (appendNewContent st _) as [st1|st1]; cbn [stateOf] in Hev.
  - eapply evolves_trans; [exact Hev | apply IH].
  - exact Hev.
Qed.

Lemma flushOverflow_evolves st : evolves st (stateOf (flushOverflow st)).
Proof.
  unfold Component.flushOverflow.
  destruct (1000 <? _); [|apply evolves_refl].
  destruct (100 <? _); [|apply evolves_refl].
  match goal with
  | |- context [appendNewContent st ?c] =>
      pose proof (appendNewContent_evolves st c) as Hev;
      destruct (appendNewContent st c) as [st1|st1]
  end; cbn [stateOf] in *; [|exact Hev].
  eapply evolves_trans; [exact Hev | apply setAccumulated_evolves].
Qed.

Lemma processAccumulatedContent_evolves st :
  evolves st (stateOf (processAccumulatedContent st)).
Proof.
  unfold Component.processAccumulatedContent.
  destruct (isEmpty (accumulatedMarkdown st)); [apply evolves_refl|].
  destruct (negb _); [|apply flushOverflow_evolves].
  pose proof (flushBoundaries_evolves
    (detectBlockBoundaries (accumulatedMarkdown st)) st 0) as Hev.
  destruct (flushBoundaries st 0 _) as [[st1|st1] lastIndex];
    cbn [fst stateOf] in *; [|exact Hev].
  eapply evolves_trans; [exact Hev|].
  eapply evolves_trans; [apply setAccumulated_evolves|].
  apply flushOverflow_evolves.
Qed.

(** An update that is neither empty nor shorter than what was seen. *)
Lemma handleContentUpdate_evolves st content :
  content <> [] -> processedLength st <= strlen content ->
  evolves st (stateOf (handleContentUpdate st (Some content))).
Proof.
  intros Hne Hlen. unfold Component.handleContentUpdate.
  destruct content as [|c content]; [done|]. cbn [isEmpty].
  destruct (strlen (c :: content) <? processedLength st) eqn:Hlt; [lia|].
  destruct (negb _); [|apply setProcessedLength_evolves].
  match goal with
  | |- context [processAccumulatedContent ?s] =>
      pose proof (processAccumulatedContent_evolves s) as Hev;
      destruct (processAccumulatedContent s) as [st2|st2]
  end; cbn [stateOf] in *.
  - eapply evolves_trans; [apply setAccumulated_evolves|].
    eapply evolves_trans; [exact Hev | apply setProcessedLength_evolves].
  - eapply evolves_trans; [apply setAccumulated_evolves | exact Hev].
Qed.

Lemma handleCompleted_evolves st isCompleted :
  evolves st (stateOf (handleCompleted st isCompleted)).
Proof.
  unfold Component.handleCompleted.
  destruct (isCompleted && _); [|apply evolves_refl].
  destruct (negb (isEmpty (trim _))).
  - pose proof (appendNewContent_evolves st (accumulatedMarkdown st)) as Hev.
    destruct (appendNewContent st _) as [st1|st1]; cbn [stateOf] in *;
      [|exact Hev].
    eapply evolves_trans; [exact Hev | apply setAccumulated_evolves].
  - apply setAccumulated_evolves.
Qed.

Lemma appendBlock_accumulated st blockHtml :
  accumulatedMarkdown (appendBlock st blockHtml) = accumulatedMarkdown st.
Proof.
  unfold appendBlock.
  repeat match goal with
         | |- context [if ?c then _ else _] => destruct c
         | |- context [match ?c with _ => _ end] => destruct c
         end; reflexivity.
Qed.

Lemma fold_appendBlock_accumulated blocks : forall st,
  accumulatedMarkdown (fold_left appendBlock blocks st) = accumulatedMarkdown st.
Proof.
  induction blocks as [|b blocks IH]; intros st; simpl; [done|].
  by rewrite IH, appendBlock_accumulated.
Qed.

(** Rendering a chunk does not touch the buffer. *)
Lemma appendNewContent_accumulated st newPart :
  accumulatedMarkdown (stateOf (appendNewContent st newPart))
  = accumulatedMarkdown st.
Proof.
  unfold Component.appendNewContent, Component.renderFallback.
  destruct (marked newPart) as [h|]; [destruct (sanitizeAllowList h)|];
    try (destruct (sanitize newPart); reflexivity).
  apply fold_appendBlock_accumulated.
Qed.

(** The size-based fallback, when it fires. *)
Lemma flushOverflow_fires st k :
  1000 < strlen (accumulatedMarkdown st) ->
  lastIndexOf 10%N (accumulatedMarkdown st) = k ->
  100 < k ->
  flushOverflow st =
    match appendNewContent st (take (Z.to_nat (k + 1)) (accumulatedMarkdown st)) with
    | Returned st1 =>
        Returned (setAccumulated
                    (drop (Z.to_nat (k + 1)) (accumulatedMarkdown st)) st1)
    | Threw st1 => Threw st1
    end.
Proof.
  intros Hlong Hk Hfar. unfold Component.flushOverflow.
  destruct (lastIndexOf_found _ _ _ Hk) as (Hlt & _); [lia|].
  rewrite Hk. destruct (Z.ltb_spec 1000 (strlen (accumulatedMarkdown st))); [|lia].
  destruct (Z.ltb_spec 100 k); [|lia].
  rewrite substring_prefix by lia.
  pose proof (appendNewContent_accumulated st
                (take (Z.to_nat (k + 1)) (accumulatedMarkdown st))) as Hacc.
  destruct (appendNewContent st _) as [st1|st1]; [|done].
  cbn [stateOf] in Hacc. rewrite Hacc, substringFrom_drop by lia. done.
Qed.

(** C5, as the code has it: when the buffer is longer than 1000 code
    units and no boundary has been found, what processAccumulatedContent
    does depends on the offset [k] of the last line feed of the buffer.
    Above 100, it renders the text up to and including that line feed and
    keeps only what follows it; the flushed chunk ends in a line feed and
    what is kept holds none.  At 100 or below, and so when the buffer
    holds no line feed at all, it renders nothing and leaves the state as
    it is, however long the buffer. *)
Theorem overflow_forces_newline_flush (st : State) (k : Z) :
  1000 < strlen (accumulatedMarkdown st) ->
  detectBlockBoundaries (accumulatedMarkdown st) = [] ->
  lastIndexOf 10%N (accumulatedMarkdown st) = k ->
  let buffer := accumulatedMarkdown st in
  let chunk := take (Z.to_nat (k + 1)) buffer in
  let remainder := drop (Z.to_nat (k + 1)) buffer in
  (100 < k ->
   processAccumulatedContent st
   = match appendNewContent st chunk with
     | Returned st1 => Returned (setAccumulated remainder st1)
     | Threw st1 => Threw st1
     end /\
   buffer = chunk ++ remainder /\
   last chunk = Some 10%N /\
   ~ In 10%N remainder) /\
  (k <= 100 -> processAccumulatedContent st = Returned st).
Proof.
  intros Hlong Hnone Hk buffer chunk remainder.
  assert (Hne : isEmpty (accumulatedMarkdown st) = false).
  { destruct (accumulatedMarkdown st); [vm_compute in Hlong; discriminate | done]. }
  split.
  - intros Hfar.
    destruct (lastIndexOf_found _ _ _ Hk) as (Hlt & Hat & Hno); [lia|].
    assert (Hrun : processAccumulatedContent st
                   = match appendNewContent st chunk with
                     | Returned st1 => Returned (setAccumulated remainder st1)
                     | Threw st1 => Threw st1
                     end).
    { unfold Component.processAccumulatedContent. rewrite Hnone, Hne.
      cbn [isEmpty negb]. by apply flushOverflow_fires. }
    assert (Hsplit : buffer = chunk ++ remainder).
    { subst chunk remainder. by rewrite take_drop. }
    assert (Hlast : last chunk = Some 10%N).
    { subst chunk. rewrite last_lookup, length_take.
      fold buffer in Hlt, Hat. unfold strlen in Hlt.
      rewrite Nat.min_l by lia.
      replace (Nat.pred (Z.to_nat (k + 1))) with (Z.to_nat k) by lia.
      rewrite lookup_take_lt by lia. exact Hat. }
    assert (Hrem : ~ In 10%N remainder).
    { subst remainder. replace (Z.to_nat (k + 1)) with (S (Z.to_nat k)) by lia.
      exact Hno. }
    repeat split; auto.
  - intros Hnear. unfold Component.processAccumulatedContent.
    rewrite Hnone, Hne. cbn [isEmpty negb]. unfold Component.flushOverflow.
    rewrite Hk.
    destruct (Z.ltb_spec 1000 (strlen (accumulatedMarkdown st))); [|lia].
    destruct (Z.ltb_spec 100 k); [lia | done].
Qed.

(** A block that holds an image is found unchanged, at the same place,
    in every store that continues the one it is in. *)
Lemma continues_frozen l l' i b :
  continues l l' -> l !! i = Some b -> containsImage (html b) = true ->
  l' !! i = Some b.
Proof.
  intros [_ H] Hb Himg. destruct (H i b Hb) as (b' & Hb' & Hid & Hh).
  rewrite Hb'. f_equal. destruct b, b'; cbn in *. f_equal; auto.
Qed.

Lemma continues_ids l l' :
  continues l l' -> exists added, map id l' = map id l ++ added.
Proof.
  intros [Hlen H]. exists (drop (length l) (map id l')).
  rewrite <- (take_drop (length l) (map id l')) at 1. f_equal.
  apply list_eq. intros i. change (map id) with (fmap (M:=list) id).
  destruct (decide (i < length l)%nat) as [Hi|Hi].
  - rewrite lookup_take_lt by done. rewrite !list_lookup_fmap.
    destruct (lookup_lt_is_Some_2 l i Hi) as [b Hb].
    destruct (H i b Hb) as (b' & Hb' & Hid & _). by rewrite Hb, Hb'; cbn; f_equal.
  - rewrite lookup_take_ge by lia. symmetry. apply lookup_ge_None.
    rewrite length_fmap. lia.
Qed.

Lemma evolves_appendOnly st st' :
  wellFormed st -> evolves st st' -> appendOnly st st'.
Proof.
  intros Hwf (Hc & _ & Hw). split; [by apply continues_ids|].
  split; [apply (Hw Hwf)|].
  intros i Hi. destruct Hc as [Hlen H].
  destruct (lookup_lt_is_Some_2 (renderBlocks st) i) as [b Hb]; [lia|].
  destruct (H i b Hb) as (b' & Hb' & Hid & Hh).
  rewrite Hb, Hb'. f_equal. destruct b, b'; cbn in *. f_equal; auto.
Qed.

(** C2: a stored block whose html holds an image is left as it is, at its
    place, by every call that appends content (appendNewContent itself, the
    boundary-driven flush, the final flush, and an update that neither
    empties nor shortens the content); and when the last stored
    block holds an image, a new non-blank block is never merged into it but
    pushed under an identifier that no stored block has. *)
Theorem image_block_frozen (st : State) (newPart blockHtml : jsstring)
    (i : nat) (b : Block) :
  wellFormed st ->
  renderBlocks st !! i = Some b ->
  containsImage (html b) = true ->
  renderBlocks (stateOf (appendNewContent st newPart)) !! i = Some b /\
  renderBlocks (stateOf (processAccumulatedContent st)) !! i = Some b /\
  renderBlocks (stateOf (handleCompleted st true)) !! i = Some b /\
  (forall content,
     content <> [] -> processedLength st <= strlen content ->
     renderBlocks (stateOf (handleContentUpdate st (Some content))) !! i
     = Some b) /\
  (last (renderBlocks st) = Some b -> isEmpty (trim blockHtml) = false ->
   appendBlock st blockHtml = pushBlock st blockHtml /\
   ~ In (blockId (blockCounter st)) (map id (renderBlocks st))).
Proof.
  intros Hwf Hb Himg.
  split; [|split; [|split; [|split]]].
  - eapply continues_frozen; eauto. apply appendNewContent_evolves.
  - eapply continues_frozen; eauto. apply processAccumulatedContent_evolves.
  - eapply continues_frozen; eauto. apply handleCompleted_evolves.
  - intros content Hne Hlen. eapply continues_frozen; eauto.
    by apply handleContentUpdate_evolves.
  - intros Hlast Hblank. split.
    + unfold appendBlock. rewrite Hblank, Hlast, Himg.
      by destruct (shouldMergeBlocks _ _).
    + intros Hin. apply in_map_iff in Hin as (b0 & Hid & Hin).
      destruct Hwf as (_ & _ & Hk). apply Hk in Hin as (k & Hlt & Hid').
      rewrite Hid' in Hid. apply blockId_inj in Hid. lia.
Qed.

(** C3: within one stream (an update that neither empties nor shortens
    the content, a flush, the final flush) the store is append-only: every
    identifier already issued stays at its place, the identifiers are
    pairwise distinct, and no entry before the last one changes at all; a
    merge keeps the identifier of the block it rewrites. *)
Theorem identifiers_stable (st : State) (content newPart : jsstring) :
  wellFormed st ->
  content <> [] ->
  processedLength st <= strlen content ->
  appendOnly st (stateOf (handleContentUpdate st (Some content))) /\
  appendOnly st (stateOf (appendNewContent st newPart)) /\
  appendOnly st (stateOf (handleCompleted st true)) /\
  (forall lastBlock blockHtml merged,
     mergeBlocks lastBlock blockHtml = Some merged ->
     id merged = id lastBlock) /\
  (forall blockHtml i,
     (S i < length (renderBlocks st))%nat ->
     renderBlocks (appendBlock st blockHtml) !! i = renderBlocks st !! i).
Proof.
  intros Hwf Hne Hlen.
  split; [by apply evolves_appendOnly, handleContentUpdate_evolves|].
  split; [by apply evolves_appendOnly, appendNewContent_evolves|].
  split; [by apply evolves_appendOnly, handleCompleted_evolves|].
  split; [intros; by eapply mergeBlocks_id|].
  intros blockHtml i Hi.
  by apply (evolves_appendOnly st _ Hwf (appendBlock_evolves st blockHtml)).
Qed.

Lemma initialState_wellFormed : wellFormed initialState.
Proof.
  split; [cbn; lia|]. split; [cbn; apply NoDup_nil_2 | intros b []].
Qed.

(** Every update, reset or not, keeps the store well formed: the
    hypothesis of the store properties holds in every state the component
    reaches from its initial state. *)
Lemma handleContentUpdate_wellFormed st newContent :
  wellFormed st -> wellFormed (stateOf (handleContentUpdate st newContent)).
Proof.
  intros Hwf. unfold Component.handleContentUpdate.
  destruct newContent as [content|]; [|apply initialState_wellFormed].
  destruct content as [|c content]; [apply initialState_wellFormed|].
  cbn [isEmpty].
  set (st1 := if strlen (c :: content) <? processedLength st
              then initialState else st).
  assert (Hwf1 : wellFormed st1).
  { subst st1. destruct (_ <? _); [apply initialState_wellFormed | done]. }
  destruct (negb _); [|by apply (setProcessedLength_evolves st1)].
  match goal with
  | |- context [processAccumulatedContent ?s] =>
      pose proof (processAccumulatedContent_evolves s) as Hev;
      assert (Hwfs : wellFormed s) by (by apply (setAccumulated_evolves st1));
      destruct (processAccumulatedContent s) as [st2|st2]
  end; cbn [stateOf] in *.
  - apply (setProcessedLength_evolves st2). by apply Hev.
  - by apply Hev.
Qed.

Lemma feed_wellFormed contents : forall st,
  wellFormed st ->
  wellFormed (stateOf (feed marked sanitizeAllowList sanitize st contents)).
Proof.
  induction contents as [|c contents IH]; intros st Hwf; [done|].
  cbn [feed].
  pose proof (handleContentUpdate_wellFormed st (Some c) Hwf) as Hwf1.
  destruct (handleContentUpdate st (Some c)) as [st1|st1]; cbn [stateOf] in *;
    [by apply IH | done].
Qed.

(** C7: an update whose content is shorter than the length seen so far is
    handled exactly as the same update on the initial state: store, cursor,
    counter and buffer are cleared first, and the whole new content is then
    the buffer that is processed. *)
Theorem shorter_content_restarts (st : State) (content : jsstring) :
  strlen content < processedLength st ->
  handleContentUpdate st (Some content)
  = handleContentUpdate initialState (Some content) /\
  (content <> [] ->
   handleContentUpdate st (Some content)
   = match processAccumulatedContent (setAccumulated content initialState) with
     | Returned st2 => Returned (setProcessedLength (strlen content) st2)
     | Threw st2 => Threw st2
     end).
Proof.
  intros Hlt. unfold Component.handleContentUpdate.
  destruct content as [|c content]; [split; [reflexivity | done]|].
  cbn [isEmpty].
  destruct (Z.ltb_spec (strlen (c :: content)) (processedLength st)); [|lia].
  destruct (Z.ltb_spec (strlen (c :: content)) (processedLength initialState)).
  - split; reflexivity.
  - split; reflexivity.
Qed.

(** C10: an empty or absent content value puts the component back into
    its initial state, whatever the state was and without any call of the
    converter or the sanitizer: no block, cursor and counter at zero, empty
    buffer. *)
Theorem empty_content_clears (st : State) :
  handleContentUpdate st None = Returned initialState /\
  handleContentUpdate st (Some []) = Returned initialState /\
  renderBlocks initialState = [] /\
  processedLength initialState = 0 /\
  blockCounter initialState = 0 /\
  accumulatedMarkdown initialState = [].
Proof. repeat split. Qed.

(** With a sanitizer that returns on raw text, no method of the
    component lets an exception out. *)
Lemma appendNewContent_returns st newPart :
  (forall s, sanitize s <> Exception) ->
  exists st', appendNewContent st newPart = Returned st'.
Proof.
  intros Hsan. unfold Component.appendNewContent, Component.renderFallback.
  specialize (Hsan newPart).
  destruct (marked newPart) as [h|]; [destruct (sanitizeAllowList h)|];
    [eauto | |]; (destruct (sanitize newPart); [eauto | done]).
Qed.

Lemma flushBoundaries_returns boundaries : forall st lastIndex,
  (forall s, sanitize s <> Exception) ->
  exists st', fst (flushBoundaries st lastIndex boundaries) = Returned st'.
Proof.
  induction boundaries as [|b rest IH]; intros st lastIndex Hsan; simpl;
    [eauto|].
  destruct (isEmpty (trim _)); [by apply IH|].
  destruct (appendNewContent_returns st
              (substring (accumulatedMarkdown st) lastIndex (b + 1)) Hsan)
    as [st1 ->].
  by apply IH.
Qed.

Lemma flushOverflow_returns st :
  (forall s, sanitize s <> Exception) ->
  exists st', flushOverflow st = Returned st'.
Proof.
  intros Hsan. unfold Component.flushOverflow.
  destruct (1000 <? _); [|eauto]. destruct (100 <? _); [|eauto].
  match goal with
  | |- context [appendNewContent st ?c] =>
      destruct (appendNewContent_returns st c Hsan) as [st1 ->]
  end. eauto.
Qed.

Lemma handleContentUpdate_returns st newContent :
  (forall s, sanitize s <> Exception) ->
  exists st', handleContentUpdate st newContent = Returned st'.
Proof.
  intros Hsan. unfold Component.handleContentUpdate.
  destruct newContent as [content|]; [|eauto].
  destruct (isEmpty content); [eauto|].
  destruct (negb _); [|eauto].
  unfold Component.processAccumulatedContent.
  match goal with
  | |- context [isEmpty (accumulatedMarkdown ?s)] => set (st0 := s)
  end.
  destruct (isEmpty (accumulatedMarkdown st0)); [eauto|].
  destruct (negb _).
  - destruct (flushBoundaries_returns
                (detectBlockBoundaries (accumulatedMarkdown st0)) st0 0 Hsan)
      as [st1 Hst1].
    destruct (flushBoundaries st0 0 _) as [o lastIndex]. cbn [fst] in Hst1.
    subst o.
    match goal with
    | |- context [flushOverflow ?s] =>
        destruct (flushOverflow_returns s Hsan) as [st2 ->]
    end. eauto.
  - destruct (flushOverflow_returns st0 Hsan) as [st2 ->]. eauto.
Qed.

(** C8: when the converter throws on a chunk, or the allow-list
    sanitization of its output does, appendNewContent still returns: the
    raw chunk is sanitized and pushed as one new block, under an identifier
    that no stored block has, so the store grows by one entry; and with a
    sanitizer that returns on raw text no update lets an exception out,
    whatever the converter does. *)
Theorem conversion_failure_falls_back (st : State) (newPart h : jsstring) :
  wellFormed st ->
  marked newPart = Exception \/
  (exists html, marked newPart = Value html /\
                sanitizeAllowList html = Exception) ->
  sanitize newPart = Value h ->
  appendNewContent st newPart = Returned (pushBlock st h) /\
  renderBlocks (pushBlock st h)
  = renderBlocks st ++ [mkBlock (blockId (blockCounter st)) h] /\
  ~ In (blockId (blockCounter st)) (map id (renderBlocks st)) /\
  ((forall s, sanitize s <> Exception) ->
   forall st0 newContent,
     exists st', handleContentUpdate st0 newContent = Returned st').
Proof.
  intros Hwf Hfail Hsan. split; [|split; [reflexivity|split]].
  - unfold Component.appendNewContent, Component.renderFallback.
    destruct Hfail as [->|(html & -> & ->)]; by rewrite Hsan.
  - intros Hin. apply in_map_iff in Hin as (b0 & Hid & Hin).
    destruct Hwf as (_ & _ & Hk). apply Hk in Hin as (k & Hlt & Hid').
    rewrite Hid' in Hid. apply blockId_inj in Hid. lia.
  - intros Htotal st0 newContent. by apply handleContentUpdate_returns.
Qed.

End PipelineFacts.

Lemma imageState_wellFormed : wellFormed imageState.
Proof.
  split; [cbn; lia|]. split.
  - cbn. apply NoDup_singleton.
  - intros b [<-|[]]. exists 0. split; [cbn; lia | reflexivity].
Qed.

Lemma image_block_frozen_witness :
  renderBlocks (stateOf (appendNewContent echo echo echo imageState
                           (js "<p>and more</p>"))) !! 0%nat
  = Some (mkBlock (js "md-block-0") (js "<p>see <img src=a.png> here</p>")) /\
  appendBlock imageState (js "<p>and more</p>")
  = pushBlock imageState (js "<p>and more</p>").
Proof.
  pose proof (image_block_frozen echo echo echo imageState
                (js "<p>and more</p>") (js "<p>and more</p>") 0%nat
                (mkBlock (js "md-block-0") (js "<p>see <img src=a.png> here</p>"))
                imageState_wellFormed eq_refl eq_refl) as (H1 & _ & _ & _ & H4).
  split; [exact H1|]. apply H4; reflexivity.
Defined.

Lemma identifiers_stable_witness :
  appendOnly imageState
    (stateOf (handleContentUpdate echo echo echo imageState
                (Some (js "![a](a.png) here and a second paragraph\n\n")))) /\
  appendOnly imageState
    (stateOf (appendNewContent echo echo echo imageState (js "<p>more</p>"))).
Proof.
  assert (Hne : js "![a](a.png) here and a second paragraph\n\n" <> [])
    by discriminate.
  assert (Hlen : processedLength imageState
                 <= strlen (js "![a](a.png) here and a second paragraph\n\n"))
    by (vm_compute; discriminate).
  pose proof (identifiers_stable echo echo echo imageState _ (js "<p>more</p>")
                imageState_wellFormed Hne Hlen) as (H1 & H2 & _).
  split; [exact H1 | exact H2].
Defined.

Lemma overflow_forces_newline_flush_witness :
  processAccumulatedContent echo echo echo
    (setAccumulated longParagraph initialState)
  = match appendNewContent echo echo echo
            (setAccumulated longParagraph initialState)
            (take 1500 longParagraph) with
    | Returned st1 => Returned (setAccumulated (js "wo") st1)
    | Threw st1 => Threw st1
    end.
Proof.
  assert (H1 : 1000 < strlen (accumulatedMarkdown
                                (setAccumulated longParagraph initialState)))
    by (vm_compute; reflexivity).
  assert (H2 : detectBlockBoundaries
                 (accumulatedMarkdown (setAccumulated longParagraph initialState))
               = []) by (vm_compute; reflexivity).
  assert (H3 : lastIndexOf 10%N
                 (accumulatedMarkdown (setAccumulated longParagraph initialState))
               = 1499) by (vm_compute; reflexivity).
  assert (H4 : 100 < 1499) by lia.
  pose proof (proj1 (overflow_forces_newline_flush echo echo echo _ _ H1 H2 H3) H4)
    as [H _].
  exact H.
Defined.

(** C5, where it fails: a buffer without a line feed beyond offset 100 is
    never flushed by the fallback.  One line of 5000 letters, alone or
    after a first line of two letters, yields no boundary and no line feed
    above 100: processAccumulatedContent renders nothing and keeps all of
    it, and an update that delivers it stores no block and leaves the
    whole line in the buffer. *)
Lemma unbroken_line_accumulates :
  detectBlockBoundaries unbrokenLine = [] /\
  lastIndexOf 10%N unbrokenLine = -1 /\
  processAccumulatedContent echo echo echo
    (setAccumulated unbrokenLine initialState)
  = Returned (setAccumulated unbrokenLine initialState) /\
  handleContentUpdate echo echo echo initialState (Some unbrokenLine)
  = Returned (mkState [] 5000 0 unbrokenLine) /\
  detectBlockBoundaries (js "ab\n" ++ unbrokenLine) = [] /\
  lastIndexOf 10%N (js "ab\n" ++ unbrokenLine) = 2 /\
  handleContentUpdate echo echo echo initialState
    (Some (js "ab\n" ++ unbrokenLine))
  = Returned (mkState [] 5003 0 (js "ab\n" ++ unbrokenLine)).
Proof. repeat split; vm_compute; reflexivity. Qed.

Lemma shorter_content_restarts_witness :
  handleContentUpdate echo echo echo imageState (Some (js "# New\n"))
  = handleContentUpdate echo echo echo initialState (Some (js "# New\n")).
Proof.
  assert (H : strlen (js "# New\n") < processedLength imageState)
    by (vm_compute; reflexivity).
  exact (proj1 (shorter_content_restarts echo echo echo imageState
                  (js "# New\n") H)).
Defined.

Lemma conversion_failure_falls_back_witness :
  appendNewContent failing echo echo imageState (js "raw *text*\n")
  = Returned (pushBlock imageState (js "raw *text*\n")).
Proof.
  exact (proj1 (conversion_failure_falls_back failing echo echo imageState
                  (js "raw *text*\n") (js "raw *text*\n")
                  imageState_wellFormed (or_introl eq_refl) eq_refl)).
Defined.

(* ================================================================== *)
(** ** Properties of the HTML block splitter *)
(* ================================================================== *)

Lemma startTagMatch_length s m :
  startTagMatch s = Some m -> 0 < strlen (fst m).
Proof.
  unfold startTagMatch. intros H.
  repeat match type of H with
         | context [match ?c with _ => _ end] => destruct c
         | context [if ?c then _ else _] => destruct c
         end; try discriminate; inversion H; unfold strlen; cbn; lia.
Qed.

(** A start tag that is handled moves the scan forward. *)
Lemma processStartTag_advances html i stack cbs blocks top r stack' blocks' :
  processStartTag html i stack cbs blocks top = (Some r, stack', blocks') ->
  i < nextIndex r.
Proof.
  unfold processStartTag, handleSelfClosingBlock, handleNonSelfClosingBlock.
  destruct (startTagMatch (substringFrom html i)) as [m|] eqn:Hm; [|done].
  apply startTagMatch_length in Hm. cbn zeta.
  destruct (negb (includes top (toLowerCase (snd m)))).
  { destruct (_ && _); discriminate. }
  destruct (_ || _); intros [= <- _ _]; cbn; lia.
Qed.

(** Fuel beyond the number of code units left is never used. *)
Lemma splitLoop_fuel fuel : forall extra html i stack cbs blocks,
  strlen html - i <= Z.of_nat fuel ->
  splitLoop (fuel + extra) html i stack cbs blocks
  = splitLoop fuel html i stack cbs blocks.
Proof.
  induction fuel as [|fuel IH]; intros extra html i stack cbs blocks Hleft.
  - destruct extra as [|extra]; [done|]. cbn [Nat.add splitLoop].
    destruct (Z.ltb_spec i (strlen html)); [lia | done].
  - cbn [Nat.add splitLoop].
    destruct (Z.ltb_spec i (strlen html)); [|done]. cbn [negb].
    destruct (charIs html i 60 && negb (charIs html (i + 1) 47)
              && negb (charIs html (i + 1) 33)).
    { destruct (processStartTag html i stack cbs blocks topLevelBlockElements)
        as [[[r|] stack1] blocks1] eqn:Hp.
      - apply processStartTag_advances in Hp. apply IH. lia.
      - apply IH. lia. }
    destruct (charIs html i 60 && charIs html (i + 1) 47).
    { destruct (processCloseTag html i stack cbs blocks topLevelBlockElements)
        as [[[c|] stack1] blocks1]; apply IH; lia. }
    apply IH. lia.
Qed.

Lemma charIs_nat html (k : nat) c :
  charIs html (Z.of_nat k) c
  = match html !! k with Some d => (d =? c)%N | None => false end.
Proof.
  unfold charIs, charAt. destruct (Z.ltb_spec (Z.of_nat k) 0); [lia|].
  by rewrite Nat2Z.id.
Qed.

(** A run of code units other than [<] is passed over without effect. *)
Lemma splitLoop_skip k : forall fuel (i : nat) html stack cbs blocks,
  (forall j, (i <= j < i + k)%nat ->
             exists d, html !! j = Some d /\ d <> 60%N) ->
  splitLoop (k + fuel) html (Z.of_nat i) stack cbs blocks
  = splitLoop fuel html (Z.of_nat (i + k)) stack cbs blocks.
Proof.
  induction k as [|k IH]; intros fuel i html stack cbs blocks Hrun.
  - by rewrite Nat.add_0_r.
  - cbn [Nat.add splitLoop].
    destruct (Hrun i) as (d & Hd & Hne); [lia|].
    pose proof (lookup_lt_Some _ _ _ Hd) as Hlt.
    destruct (Z.ltb_spec (Z.of_nat i) (strlen html));
      [|unfold strlen in *; lia].
    cbn [negb]. rewrite charIs_nat, Hd.
    destruct (N.eqb_spec d 60); [done|]. cbn [andb].
    replace (Z.of_nat i + 1) with (Z.of_nat (S i)) by lia.
    rewrite IH; [f_equal; lia|].
    intros j Hj. apply Hrun. lia.
Qed.

Lemma substringFrom_app a b : substringFrom (a ++ b) (Z.of_nat (length a)) = b.
Proof.
  unfold substringFrom, clamp, strlen. rewrite length_app.
  replace (Z.to_nat _) with (length a) by lia. by rewrite drop_app_length.
Qed.

Lemma substring_middle a b c :
  substring (a ++ b ++ c) (Z.of_nat (length a))
    (Z.of_nat (length a) + Z.of_nat (length b)) = b.
Proof.
  unfold substring, clamp, strlen. rewrite !length_app.
  replace (Z.to_nat (Z.min (Z.max (Z.of_nat (length a)) 0) _))
    with (length a) by lia.
  replace (Z.to_nat (Z.min (Z.max (Z.of_nat (length a) + Z.of_nat (length b)) 0) _))
    with (length a + length b)%nat by lia.
  rewrite Nat.min_l, Nat.max_r by lia.
  replace (length a + length b - length a)%nat with (length b) by lia.
  by rewrite drop_app_length, take_app_length.
Qed.

Lemma trim_nonblank s c :
  In c s -> isWhiteSpace c = false -> isEmpty (trim s) = false.
Proof.
  intros Hin Hc. destruct (trim_decompose s) as (l & r & Hs & Hl & Hr).
  destruct (trim s); [|done]. exfalso. rewrite Hs in Hin. simpl in Hin.
  rewrite forallb_forall in Hl, Hr.
  apply in_app_or in Hin as [Hin|Hin]; [apply Hl in Hin | apply Hr in Hin];
    congruence.
Qed.

(** Where each code unit of a text followed by one paragraph element
    lies. *)
Lemma paragraph_layout text inner j d :
  (text ++ js "<p>" ++ inner ++ js "</p>") !! j = Some d ->
  text !! j = Some d \/
  (j = length text /\ d = 60%N) \/
  (j = length text + 1 /\ d = 112%N)%nat \/
  (j = length text + 2 /\ d = 62%N)%nat \/
  (length text + 3 <= j /\ inner !! (j - (length text + 3)) = Some d)%nat \/
  (j = length text + 3 + length inner /\ d = 60%N)%nat \/
  (j = length text + 3 + length inner + 1 /\ d = 47%N)%nat \/
  (j = length text + 3 + length inner + 2 /\ d = 112%N)%nat \/
  (j = length text + 3 + length inner + 3 /\ d = 62%N)%nat.
Proof.
  change (js "<p>") with [60%N; 112%N; 62%N].
  change (js "</p>") with [60%N; 47%N; 112%N; 62%N].
  rewrite lookup_app_Some. cbn [app].
  rewrite !lookup_cons_Some, lookup_app_Some, !lookup_cons_Some, lookup_nil.
  intros [?|[Hl [[? ?]|[? [[? ?]|[? [[? ?]|[? [?|[? H]]]]]]]]]]; auto.
  - right; left. lia.
  - right; right; left. lia.
  - right; right; right; left. lia.
  - right; right; right; right; left. split; [lia|].
    rewrite <- H. f_equal. lia.
  - do 5 right.
    destruct H as [[? ?]|[? [[? ?]|[? [[? ?]|[? [[? ?]|[? ?]]]]]]]];
      [left|right;left|right;right;left|right;right;right|done];
      split; (done || lia).
Qed.

Ltac layout_cases Hd :=
  apply paragraph_layout in Hd
    as [Hd|[[? Hd]|[[? Hd]|[[? Hd]|[[? Hd]|[[? Hd]|[[? Hd]|[[? Hd]|[? Hd]]]]]]]]];
  try (apply lookup_lt_Some in Hd); try lia; try congruence.

Lemma splitLoop_start fuel html i stack cbs blocks r stack1 blocks1 :
  i < strlen html ->
  charIs html i 60 = true ->
  charIs html (i + 1) 47 = false ->
  charIs html (i + 1) 33 = false ->
  processStartTag html i stack cbs blocks topLevelBlockElements
  = (Some r, stack1, blocks1) ->
  splitLoop (S fuel) html i stack cbs blocks
  = splitLoop fuel html (nextIndex r) stack1 (startOf r) blocks1.
Proof.
  intros Hi H0 H1 H2 Hp. cbn [splitLoop].
  destruct (Z.ltb_spec i (strlen html)); [|lia].
  by rewrite H0, H1, H2, Hp.
Qed.

Lemma splitLoop_close fuel html i stack cbs blocks c stack1 blocks1 :
  i < strlen html ->
  charIs html i 60 = true ->
  charIs html (i + 1) 47 = true ->
  processCloseTag html i stack cbs blocks topLevelBlockElements
  = (Some c, stack1, blocks1) ->
  splitLoop (S fuel) html i stack cbs blocks
  = splitLoop fuel html (i + 1) stack1 c blocks1.
Proof.
  intros Hi H0 H1 Hp. cbn [splitLoop].
  destruct (Z.ltb_spec i (strlen html)); [|lia].
  by rewrite H0, H1, Hp.
Qed.

(** Text in front of a first paragraph element is in no block of the
    output, whatever it is. *)
Lemma text_before_paragraph_dropped text inner :
  ~ In 60%N text -> ~ In 60%N inner ->
  splitIntoCompleteBlocks (text ++ js "<p>" ++ inner ++ js "</p>")
  = [js "<p>" ++ inner ++ js "</p>"].
Proof.
  intros Htext Hinner.
  set (html := text ++ js "<p>" ++ inner ++ js "</p>").
  set (n := length text). set (m := length inner).
  assert (Hlen : length html = (n + S ((2 + m) + S (3 + 0)))%nat).
  { subst html n m. rewrite !length_app. cbn. lia. }
  assert (Hbrackets : forall j, html !! j = Some 60%N ->
                                (j = n \/ j = n + 3 + m)%nat).
  { intros j Hd. subst html n m. pose proof Hd as Hd'.
    apply paragraph_layout in Hd
      as [Hd|[[? Hd]|[[? Hd]|[[? Hd]|[[? Hd]|[[? Hd]|[[? Hd]|[[? Hd]|[? Hd]]]]]]]]];
      try discriminate; auto.
    - apply list_elem_of_lookup_2, list_elem_of_In in Hd. done.
    - apply list_elem_of_lookup_2, list_elem_of_In in Hd. done. }
  assert (Hskip : forall i k, (i + k <= length html)%nat ->
            (forall j, (i <= j < i + k)%nat -> j <> n /\ j <> (n + 3 + m)%nat) ->
            forall j, (i <= j < i + k)%nat ->
              exists d, html !! j = Some d /\ d <> 60%N).
  { intros i k Hk Hzone j Hj.
    destruct (lookup_lt_is_Some_2 html j) as [d Hd]; [lia|].
    exists d. split; [done|]. intros ->. apply Hbrackets in Hd.
    destruct (Hzone j Hj). lia. }
  assert (Hc0 : html !! n = Some 60%N).
  { destruct (lookup_lt_is_Some_2 html n) as [d Hd]; [lia|]. rewrite Hd.
    subst html n m. layout_cases Hd. }
  assert (Hc1 : html !! (n + 1)%nat = Some 112%N).
  { destruct (lookup_lt_is_Some_2 html (n + 1)) as [d Hd]; [lia|]. rewrite Hd.
    subst html n m. layout_cases Hd. }
  assert (Hd0 : html !! (n + 3 + m)%nat = Some 60%N).
  { destruct (lookup_lt_is_Some_2 html (n + 3 + m)) as [d Hd]; [lia|].
    rewrite Hd. subst html n m. layout_cases Hd. }
  assert (Hd1 : html !! (n + 3 + m + 1)%nat = Some 47%N).
  { destruct (lookup_lt_is_Some_2 html (n + 3 + m + 1)) as [d Hd]; [lia|].
    rewrite Hd. subst html n m. layout_cases Hd. }
  assert (Hopen : substringFrom html (Z.of_nat n) = js "<p>" ++ inner ++ js "</p>")
    by apply substringFrom_app.
  assert (Hclose : substringFrom html (Z.of_nat (n + 3 + m)) = js "</p>").
  { subst html n m.
    replace (text ++ js "<p>" ++ inner ++ js "</p>")
      with ((text ++ js "<p>" ++ inner) ++ js "</p>") by (by rewrite <- !app_assoc).
    replace (length text + 3 + length inner)%nat
      with (length (text ++ js "<p>" ++ inner))
      by (rewrite !length_app; cbn; lia).
    apply substringFrom_app. }
  assert (Hblock : substring html (Z.of_nat n) (Z.of_nat (n + 3 + m) + 4)
                   = js "<p>" ++ inner ++ js "</p>").
  { subst html n m.
    rewrite <- (app_nil_r (text ++ js "<p>" ++ inner ++ js "</p>")).
    rewrite <- app_assoc.
    replace (Z.of_nat (length text + 3 + length inner) + 4)
      with (Z.of_nat (length text)
            + Z.of_nat (length (js "<p>" ++ inner ++ js "</p>")))
      by (rewrite !length_app; cbn; lia).
    apply substring_middle. }
  unfold splitIntoCompleteBlocks.
  assert (isEmpty html = false) as -> by (subst html; by destruct text).
  rewrite (trim_nonblank html 60%N);
    [|subst html; apply in_or_app; right; by left|done].
  cbn [orb]. rewrite Hlen.
  (* the text in front *)
  change 0 with (Z.of_nat 0). rewrite splitLoop_skip by (apply Hskip; lia).
  change (0 + n)%nat with n.
  (* the opening tag *)
  rewrite (splitLoop_start _ html (Z.of_nat n) [] (-1) []
             (mkTagResult (Z.of_nat n) (Z.of_nat (n + 1)))
             [mkEntry (js "p") (Z.of_nat n)] []).
  2: unfold strlen; lia.
  2: by rewrite charIs_nat, Hc0.
  2: { replace (Z.of_nat n + 1) with (Z.of_nat (n + 1)) by lia.
       by rewrite charIs_nat, Hc1. }
  2: { replace (Z.of_nat n + 1) with (Z.of_nat (n + 1)) by lia.
       by rewrite charIs_nat, Hc1. }
  2: { unfold processStartTag. rewrite Hopen.
       replace (Z.of_nat (n + 1)) with (Z.of_nat n + 1) by lia. reflexivity. }
  cbn [nextIndex startOf].
  (* the inner content *)
  rewrite splitLoop_skip by (apply Hskip; lia).
  (* the closing tag *)
  rewrite (splitLoop_close _ html _ _ _ _ (-1) []
             [js "<p>" ++ inner ++ js "</p>"]).
  2: unfold strlen; lia.
  2: { replace (n + 1 + (2 + m))%nat with (n + 3 + m)%nat by lia.
       by rewrite charIs_nat, Hd0. }
  2: { replace (Z.of_nat (n + 1 + (2 + m)) + 1)
         with (Z.of_nat (n + 3 + m + 1)) by lia.
       by rewrite charIs_nat, Hd1. }
  2: { replace (n + 1 + (2 + m))%nat with (n + 3 + m)%nat by lia.
       unfold processCloseTag. rewrite Hclose.
       change (closeTagMatch (js "</p>")) with (Some (js "</p>", js "p")).
       cbn [fst snd isEmpty app].
       change (toLowerCase (js "p")) with (js "p").
       assert (lastNamed (js "p") [mkEntry (js "p") (Z.of_nat n)] = Some 0%nat)
         as -> by reflexivity.
       change (includes topLevelBlockElements (js "p")) with true.
       change (strlen (js "</p>")) with 4.
       cbn [take isEmpty andb].
       destruct (Z.leb_spec 0 (Z.of_nat n)); [|lia].
       by rewrite Hblock. }
  (* the rest of the closing tag *)
  replace (Z.of_nat (n + 1 + (2 + m)) + 1)
    with (Z.of_nat (n + 3 + m + 1)) by lia.
  rewrite (splitLoop_skip 3 0) by (apply Hskip; lia).
  reflexivity.
Qed.

(** C9, as the code has it: at the opening tag of a top-level block
    element that is not self-closing, processStartTag pushes the tag and
    starts a block at [i]; it emits the trimmed text between
    [currentBlockStart] and [i] as a block of its own exactly when a block
    is open before [i] (the start is not [-1]) and that text is not blank.
    With no block open nothing is emitted, whatever precedes the tag: a
    text without [<] in front of a first paragraph element is in no block
    of the output of splitIntoCompleteBlocks. *)
Theorem start_tag_emits_open_span (html : jsstring) (i : Z)
    (stack : list StackEntry) (currentBlockStart : Z)
    (blocks : list jsstring) (tagMatch : jsstring * jsstring) :
  startTagMatch (substringFrom html i) = Some tagMatch ->
  includes topLevelBlockElements (toLowerCase (snd tagMatch)) = true ->
  endsWith (fst tagMatch) (js "/>")
  || isSelfClosingTag (toLowerCase (snd tagMatch)) = false ->
  processStartTag html i stack currentBlockStart blocks topLevelBlockElements
  = (Some (mkTagResult i (i + 1)),
     stack ++ [mkEntry (toLowerCase (snd tagMatch)) i],
     if (0 <=? currentBlockStart) && (currentBlockStart <? i)
        && negb (isEmpty (trim (substring html currentBlockStart i)))
     then blocks ++ [trim (substring html currentBlockStart i)]
     else blocks) /\
  (currentBlockStart = -1 ->
   processStartTag html i stack currentBlockStart blocks topLevelBlockElements
   = (Some (mkTagResult i (i + 1)),
      stack ++ [mkEntry (toLowerCase (snd tagMatch)) i], blocks)) /\
  (forall text inner,
     ~ In 60%N text -> ~ In 60%N inner ->
     splitIntoCompleteBlocks (text ++ js "<p>" ++ inner ++ js "</p>")
     = [js "<p>" ++ inner ++ js "</p>"]).
Proof.
  intros Hm Htop Hself.
  assert (Hrun :
    processStartTag html i stack currentBlockStart blocks topLevelBlockElements
    = (Some (mkTagResult i (i + 1)),
       stack ++ [mkEntry (toLowerCase (snd tagMatch)) i],
       pushPrevBlock html i currentBlockStart blocks)).
  { unfold processStartTag. rewrite Hm. cbn zeta. rewrite Htop, Hself.
    reflexivity. }
  rewrite Hrun. unfold pushPrevBlock. split; [|split].
  - destruct ((0 <=? currentBlockStart) && (currentBlockStart <? i));
      [|reflexivity].
    cbn [andb]. by destruct (isEmpty (trim _)).
  - intros ->. reflexivity.
  - apply text_before_paragraph_dropped.
Qed.

Lemma start_tag_emits_open_span_witness :
  processStartTag (js "<ul><li>a</li><p>b</p>") 14 [mkEntry (js "ul") 0] 0 []
    topLevelBlockElements
  = (Some (mkTagResult 14 15), [mkEntry (js "ul") 0; mkEntry (js "p") 14],
     [js "<ul><li>a</li>"]).
Proof.
  assert (H1 : startTagMatch (substringFrom (js "<ul><li>a</li><p>b</p>") 14)
               = Some (js "<p>", js "p")) by reflexivity.
  assert (H2 : includes topLevelBlockElements (toLowerCase (snd (js "<p>", js "p")))
               = true) by reflexivity.
  assert (H3 : endsWith (fst (js "<p>", js "p")) (js "/>")
               || isSelfClosingTag (toLowerCase (snd (js "<p>", js "p"))) = false)
    by reflexivity.
  exact (proj1 (start_tag_emits_open_span (js "<ul><li>a</li><p>b</p>") 14
                  [mkEntry (js "ul") 0] 0 [] (js "<p>", js "p") H1 H2 H3)).
Defined.

(** C9, where it fails: text in front of the first top-level tag, between
    two top-level blocks and after the last one is in no block of the
    output. *)
Lemma text_outside_blocks_dropped :
  splitIntoCompleteBlocks (js "hello<p>a</p>") = [js "<p>a</p>"] /\
  splitIntoCompleteBlocks (js "<p>a</p>between<p>b</p>after")
  = [js "<p>a</p>"; js "<p>b</p>"] /\
  processStartTag (js "hello<p>a</p>") 5 [] (-1) [] topLevelBlockElements
  = (Some (mkTagResult 5 6), [mkEntry (js "p") 5], []).
Proof. repeat split; vm_compute; reflexivity. Qed.

(* ================================================================== *)
(** ** Properties of the merge engine *)
(* ================================================================== *)

Lemma isParagraphBlock_nonblank h :
  isParagraphBlock h = true -> isEmpty h = false /\ isEmpty (trim h) = false.
Proof.
  unfold isParagraphBlock. destruct (isEmpty h); [done|].
  intros [Ho _]%andb_true_iff. split; [done|].
  destruct (trim h); [|done]. by vm_compute in Ho.
Qed.

(** A paragraph block ends, up to white space, in [>]. *)
Lemma isParagraphBlock_ends_gt h :
  isParagraphBlock h = true ->
  exists a b, h = a ++ 62%N :: b /\ forallb isWhiteSpace b = true.
Proof.
  unfold isParagraphBlock. destruct (isEmpty h); [done|].
  intros [_ Hc]%andb_true_iff.
  apply existsSuffix_true in Hc as (pre & t & Ht & Hc).
  unfold closeTagToEnd in Hc. cbn [closeTag] in Hc.
  destruct (stripPrefix false (js "</" ++ js "p" ++ js ">") t) as [r|] eqn:Hs;
    [|done].
  apply stripPrefix_exact in Hs. subst t.
  destruct (trim_decompose h) as (l & r' & Hh & Hl & Hr).
  exists (l ++ pre ++ js "</p"), (r ++ r'). split.
  - rewrite Hh at 1. rewrite Ht. rewrite <- !app_assoc. reflexivity.
  - rewrite forallb_app. by rewrite Hc, Hr.
Qed.

(** In a paragraph block, the two image tests agree on [<img]: what the
    completeness test finds, containsImage finds too. *)
Lemma img_in_paragraph h :
  isParagraphBlock h = true ->
  contains false (js "<img") h = true -> containsImage h = true.
Proof.
  intros Hp Himg.
  destruct (isParagraphBlock_nonblank h Hp) as [Hne _].
  destruct (isParagraphBlock_ends_gt h Hp) as (a & b & Hh & Hb).
  unfold contains in Himg.
  apply existsSuffix_true in Himg as (pre & t & Ht & Hs).
  destruct (stripPrefix false (js "<img") t) as [post|] eqn:Hpost;
    [|by vm_compute in Hs].
  apply stripPrefix_exact in Hpost. subst t.
  unfold containsImage. rewrite Hne. apply existsSuffix_true.
  exists pre, (js "<img" ++ post). split; [done|].
  rewrite stripPrefix_app. apply bool_decide_eq_true, afterFirstGt_some.
  (* the code unit at the place of the g of the image tag *)
  assert (Hg : h !! (length pre + 3)%nat = Some 103%N).
  { rewrite Ht, lookup_app_r by lia.
    by replace (length pre + 3 - length pre)%nat with 3%nat by lia. }
  (* the closing bracket of the block, on both decompositions *)
  assert (Hgt : h !! length a = Some 62%N).
  { rewrite Hh, lookup_app_r by lia. by rewrite Nat.sub_diag. }
  destruct (decide (length pre + 3 < length a)%nat) as [Hlt|Hge].
  - rewrite Ht, lookup_app_r in Hgt by lia.
    change (js "<img" ++ post) with (js "<img" ++ post) in Hgt.
    rewrite lookup_app_r in Hgt by (cbn; lia).
    apply list_elem_of_In, list_elem_of_lookup. eauto.
  - exfalso. rewrite Hh in Hg.
    destruct (decide (length pre + 3 = length a)%nat) as [Heq|Hne2].
    + rewrite lookup_app_r, Heq, Nat.sub_diag in Hg by lia. done.
    + rewrite lookup_app_r in Hg by lia.
      destruct (length pre + 3 - length a)%nat as [|n] eqn:Hn; [lia|].
      cbn in Hg. apply list_elem_of_lookup_2, list_elem_of_In in Hg.
      rewrite forallb_forall in Hb. by apply Hb in Hg.
Qed.

(** On a trimmed text the pattern of isParagraphComplete (a mark, then
    white space up to the end) says that the text ends in a mark. *)
Lemma terminator_pattern_trimmed s :
  existsSuffix terminatorToEnd (trim s) = endsInTerminator (trim s).
Proof.
  unfold endsInTerminator.
  destruct (existsSuffix terminatorToEnd (trim s)) eqn:He.
  - apply existsSuffix_true in He as (pre & t & Ht & Hm).
    destruct t as [|c r]; [done|]. cbn in Hm.
    apply andb_true_iff in Hm as [Hc Hr].
    destruct r as [|d r] using rev_ind.
    + rewrite Ht, last_snoc. by rewrite Hc.
    + exfalso. clear IHr.
      assert (Hl : last (trim s) = Some d).
      { rewrite Ht. change (pre ++ c :: r ++ [d]) with (pre ++ (c :: r) ++ [d]).
        by rewrite !app_assoc, last_snoc. }
      apply trim_last in Hl. rewrite forallb_app in Hr. cbn in Hr.
      rewrite Hl in Hr. by rewrite andb_false_r in Hr.
  - destruct (last (trim s)) as [c|] eqn:Hl; [|done].
    destruct (isTerminator c) eqn:Hc; [|done].
    apply last_Some in Hl as [pre Hl].
    assert (existsSuffix terminatorToEnd (trim s) = true); [|congruence].
    apply existsSuffix_true. exists pre, [c]. split; [done|].
    cbn. by rewrite Hc.
Qed.

Lemma shouldMergeBlocks_paragraphs lastHtml cur :
  isParagraphBlock lastHtml = true -> isParagraphBlock cur = true ->
  shouldMergeBlocks lastHtml cur
  = negb (endsInTerminator (strippedText lastHtml)
          || contains false (js "<img") lastHtml).
Proof.
  intros Hl Hc. unfold shouldMergeBlocks.
  destruct (isParagraphBlock_nonblank _ Hl) as [Hl1 _].
  destruct (isParagraphBlock_nonblank _ Hc) as [Hc1 _].
  rewrite Hl1, Hc1, Hl, Hc. cbn [orb andb].
  unfold isParagraphComplete. rewrite Hl1.
  by rewrite terminator_pattern_trimmed.
Qed.

Lemma mergesAsParagraph_iff st lastBlock blockHtml :
  last (renderBlocks st) = Some lastBlock ->
  mergesAsParagraph st blockHtml = true <->
  isParagraphBlock (html lastBlock) = true /\
  isParagraphBlock blockHtml = true /\
  endsInTerminator (strippedText (html lastBlock)) = false /\
  containsImage (html lastBlock) = false.
Proof.
  intros Hlast. unfold mergesAsParagraph. rewrite Hlast.
  destruct (isParagraphBlock (html lastBlock)) eqn:Hl;
    [|cbn [andb]; rewrite !andb_false_r; split; [done | intros (? & _); done]].
  destruct (isParagraphBlock blockHtml) eqn:Hc;
    [|cbn [andb]; rewrite !andb_false_r; split; [done | intros (_ & ? & _); done]].
  destruct (isParagraphBlock_nonblank _ Hc) as [_ ->].
  rewrite shouldMergeBlocks_paragraphs by done.
  cbn [negb andb]. rewrite andb_true_r.
  destruct (endsInTerminator _); [split; [done | intros (_ & _ & ? & _); done]|].
  cbn [orb].
  destruct (containsImage (html lastBlock)) eqn:Hi.
  - rewrite andb_false_r. split; [done | intros (_ & _ & _ & ?); done].
  - destruct (contains false (js "<img") (html lastBlock)) eqn:Hm.
    + apply img_in_paragraph in Hm; [congruence | done].
    + done.
Qed.

Lemma insert_last {A} (l : list A) (x m : A) :
  last l = Some x ->
  <[(length l - 1)%nat := m]> l = take (length l - 1) l ++ [m].
Proof.
  intros [l' ->]%last_Some. rewrite length_app. cbn [length].
  replace (length l' + 1 - 1)%nat with (length l' + 0)%nat by lia.
  rewrite insert_app_r. cbn. by rewrite Nat.add_0_r, take_app_length.
Qed.

(** Two texts that end in different closing tags differ. *)
Lemma closing_tags_differ (x y : jsstring) (c : N) :
  c <> 112%N -> x ++ [c; 62%N] <> y ++ js "</p>".
Proof.
  intros Hc Heq.
  change (js "</p>") with (js "</" ++ [112%N; 62%N]) in Heq.
  rewrite app_assoc in Heq. apply app_inj_2 in Heq as [_ Heq]; [|done].
  congruence.
Qed.

Lemma pushBlock_not_merged st h blocks :
  pushBlock st h
  <> mkState blocks (processedLength st) (blockCounter st) (accumulatedMarkdown st).
Proof. unfold pushBlock. intros [= _ H]. lia. Qed.

(** The callback on two paragraph blocks that merge. *)
Lemma appendBlock_paragraph_merge st lastBlock blockHtml :
  last (renderBlocks st) = Some lastBlock ->
  mergesAsParagraph st blockHtml = true ->
  appendBlock st blockHtml
  = assignLast st
      (mkBlock (id lastBlock)
         (cutAtSuffix (closeTagToEnd false [js "p"]) (html lastBlock)
          ++ cutAtSuffix (closeTagToEnd false [js "p"])
               (dropOpening false (js "p") blockHtml)
          ++ js "</p>")).
Proof.
  intros Hlast Hm. pose proof Hm as Hm'.
  apply (mergesAsParagraph_iff st lastBlock blockHtml Hlast) in Hm'
    as (Hl & Hc & Ht & Hi).
  unfold mergesAsParagraph in Hm. rewrite Hlast in Hm.
  apply andb_true_iff in Hm as [Hnb Hm].
  apply andb_true_iff in Hm as [Hm _].
  apply andb_true_iff in Hm as [Hs _].
  unfold appendBlock. rewrite Hlast, Hs, Hi.
  destruct (isEmpty (trim blockHtml)); [done|].
  unfold mergeBlocks. by rewrite Hl, Hc.
Qed.

(** What mergeBlocks writes outside its paragraph branch never ends in the
    closing tag of a paragraph. *)
Lemma mergeBlocks_other_rules lastBlock blockHtml merged y :
  shouldMergeBlocks (html lastBlock) blockHtml = true ->
  isParagraphBlock (html lastBlock) && isParagraphBlock blockHtml = false ->
  mergeBlocks lastBlock blockHtml = Some merged ->
  html merged <> y ++ js "</p>".
Proof.
  intros Hs Hpp Hm. unfold shouldMergeBlocks in Hs. unfold mergeBlocks in Hm.
  rewrite Hpp in Hs, Hm.
  destruct (isEmpty (html lastBlock) || isEmpty blockHtml); [done|].
  destruct (isIncompleteList (html lastBlock)).
  { set (listTag := if streq _ (js "ul") then js "ul" else js "ol") in Hm.
    assert (Htag : js "</" ++ listTag ++ js ">"
                   = js "</" ++ [if streq listTag (js "ul") then 117%N else 111%N]
                     ++ [108%N; 62%N]).
    { subst listTag. by destruct (streq _ (js "ul")). }
    destruct (isListItemBlock blockHtml).
    { apply (inj Some) in Hm. subst merged. cbn [html].
      rewrite Htag, !app_assoc. by apply closing_tags_differ. }
    destruct (isListBlock blockHtml).
    { apply (inj Some) in Hm. subst merged. cbn [html].
      rewrite Htag, !app_assoc. by apply closing_tags_differ. }
    destruct (isParagraphBlock blockHtml); [|done].
    apply (inj Some) in Hm. subst merged. cbn [html].
    change (js "</li></" ++ listTag ++ js ">")
      with (js "</li>" ++ js "</" ++ listTag ++ js ">").
    rewrite Htag, !app_assoc. by apply closing_tags_differ. }
  destruct (isIncompleteTable (html lastBlock)).
  { destruct (isTableRowBlock blockHtml).
    { apply (inj Some) in Hm. subst merged. cbn [html].
      change (js "</table>") with (js "</tabl" ++ [101%N; 62%N]).
      rewrite !app_assoc. by apply closing_tags_differ. }
    destruct (isTableBlock blockHtml); [|done].
    apply (inj Some) in Hm. subst merged. cbn [html].
    change (js "</table>") with (js "</tabl" ++ [101%N; 62%N]).
    rewrite !app_assoc. by apply closing_tags_differ. }
  destruct (isIncompleteBlockquote (html lastBlock)); [|done].
  apply (inj Some) in Hm. subst merged. cbn [html].
  change (js "</blockquote>") with (js "</blockquot" ++ [101%N; 62%N]).
  rewrite !app_assoc. by apply closing_tags_differ.
Qed.

Lemma paragraph_span_merge attrs1 inner1 white1 attrs2 inner2 white2 :
  ~ In 62%N attrs2 ->
  forallb isWhiteSpace white1 = true -> forallb isWhiteSpace white2 = true ->
  cutAtSuffix (closeTagToEnd false [js "p"]) (paragraphSpan attrs1 inner1 white1)
  ++ cutAtSuffix (closeTagToEnd false [js "p"])
       (dropOpening false (js "p") (paragraphSpan attrs2 inner2 white2))
  ++ js "</p>"
  = paragraphSpan attrs1 (inner1 ++ inner2) [].
Proof.
  intros Hno Hw1 Hw2. unfold paragraphSpan.
  assert (Hdrop : dropOpening false (js "p")
                    (js "<p" ++ attrs2 ++ js ">" ++ inner2 ++ js "</p>" ++ white2)
                  = inner2 ++ js "</p>" ++ white2).
  { unfold dropOpening.
    change (60%N :: js "p") with (js "<p"). rewrite stripPrefix_app.
    change (js ">" ++ inner2 ++ js "</p>" ++ white2)
      with (62%N :: inner2 ++ js "</p>" ++ white2).
    by rewrite afterFirstGt_skip. }
  rewrite Hdrop, cut_closing_paragraph by done.
  replace (js "<p" ++ attrs1 ++ js ">" ++ inner1 ++ js "</p>" ++ white1)
    with ((js "<p" ++ attrs1 ++ js ">" ++ inner1) ++ js "</p>" ++ white1)
    by (by rewrite <- !app_assoc).
  rewrite cut_closing_paragraph by done.
  rewrite app_nil_r, <- !app_assoc. reflexivity.
Qed.

(** C4: with a last stored block, the callback of appendNewContent merges
    a new block that is not blank into it as a paragraph (the last entry of
    the store becomes, under its identifier, the last html without its
    closing tag, followed by the new html without its opening and closing
    tags, followed by one closing tag; the other entries, the counter, the
    cursor and the buffer stay as they are) if and only if both are
    paragraph blocks, the text of the last block (tags removed, trimmed)
    does not end in one of the six sentence-ending marks, and the last
    block holds no image.  Two paragraph blocks of which the first ends in
    such a mark or holds an image are not merged: the new block is pushed
    under a new identifier.  For two paragraph elements the merged html is
    the opening tag of the first, both inner contents in order, and one
    closing tag. *)
Theorem paragraph_merge_rule (st : State) (lastBlock : Block)
    (blockHtml : jsstring) :
  last (renderBlocks st) = Some lastBlock ->
  isEmpty (trim blockHtml) = false ->
  let mergedHtml :=
    cutAtSuffix (closeTagToEnd false [js "p"]) (html lastBlock)
    ++ cutAtSuffix (closeTagToEnd false [js "p"])
         (dropOpening false (js "p") blockHtml)
    ++ js "</p>" in
  let merged :=
    mkState (take (length (renderBlocks st) - 1) (renderBlocks st)
             ++ [mkBlock (id lastBlock) mergedHtml])
      (processedLength st) (blockCounter st) (accumulatedMarkdown st) in
  let pushed :=
    mkState (renderBlocks st ++ [mkBlock (blockId (blockCounter st)) blockHtml])
      (processedLength st) (blockCounter st + 1) (accumulatedMarkdown st) in
  (appendBlock st blockHtml = merged <->
   isParagraphBlock (html lastBlock) = true /\
   isParagraphBlock blockHtml = true /\
   endsInTerminator (strippedText (html lastBlock)) = false /\
   containsImage (html lastBlock) = false) /\
  (isParagraphBlock (html lastBlock) = true ->
   isParagraphBlock blockHtml = true ->
   endsInTerminator (strippedText (html lastBlock)) = true \/
   containsImage (html lastBlock) = true ->
   appendBlock st blockHtml = pushed) /\
  (forall attrs1 inner1 white1 attrs2 inner2 white2,
     html lastBlock = paragraphSpan attrs1 inner1 white1 ->
     blockHtml = paragraphSpan attrs2 inner2 white2 ->
     ~ In 62%N attrs2 ->
     forallb isWhiteSpace white1 = true ->
     forallb isWhiteSpace white2 = true ->
     mergedHtml = paragraphSpan attrs1 (inner1 ++ inner2) []).
Proof.
  intros Hlast Hblank mergedHtml merged pushed.
  assert (Hiff := mergesAsParagraph_iff st lastBlock blockHtml Hlast).
  split; [split|split].
  - (* only if *)
    intros Heq. unfold appendBlock in Heq. rewrite Hblank, Hlast in Heq.
    destruct (shouldMergeBlocks (html lastBlock) blockHtml) eqn:Hs;
      [|by apply pushBlock_not_merged in Heq].
    destruct (containsImage (html lastBlock)) eqn:Hi;
      [by apply pushBlock_not_merged in Heq|].
    destruct (isParagraphBlock (html lastBlock) && isParagraphBlock blockHtml)
      eqn:Hpp.
    + apply Hiff. unfold mergesAsParagraph.
      by rewrite Hblank, Hlast, Hs, Hi, Hpp.
    + exfalso.
      destruct (mergeBlocks lastBlock blockHtml) as [m|] eqn:Hm.
      * apply (mergeBlocks_other_rules _ _ _
                 (cutAtSuffix (closeTagToEnd false [js "p"]) (html lastBlock)
                  ++ cutAtSuffix (closeTagToEnd false [js "p"])
                       (dropOpening false (js "p") blockHtml)) Hs Hpp) in Hm.
        apply Hm. unfold assignLast in Heq.
        rewrite (insert_last _ lastBlock m Hlast) in Heq.
        injection Heq as Heq. apply app_inj_tail in Heq as [_ ->].
        subst mergedHtml. cbn [html]. by rewrite <- app_assoc.
      * unfold shouldMergeBlocks in Hs. unfold mergeBlocks in Hm.
        rewrite Hpp in Hs, Hm.
        destruct (isEmpty (html lastBlock) || isEmpty blockHtml); [done|].
        repeat match type of Hm with
               | context [if ?c then _ else _] => destruct c
               end; done.
  - (* if *)
    intros HP. apply Hiff in HP.
    rewrite (appendBlock_paragraph_merge st lastBlock blockHtml Hlast HP).
    unfold assignLast. by rewrite (insert_last _ lastBlock _ Hlast).
  - (* a complete paragraph, or one with an image, is left as it is *)
    intros Hl Hc Hdone. unfold appendBlock. rewrite Hblank, Hlast.
    destruct (shouldMergeBlocks (html lastBlock) blockHtml) eqn:Hs; [|done].
    destruct (containsImage (html lastBlock)) eqn:Hi; [done|].
    rewrite shouldMergeBlocks_paragraphs in Hs by done.
    destruct Hdone as [Ht|?]; [|done]. by rewrite Ht in Hs.
  - intros attrs1 inner1 white1 attrs2 inner2 white2 Hl Hc Hno Hw1 Hw2.
    subst mergedHtml. rewrite Hl, Hc. by apply paragraph_span_merge.
Qed.

Lemma paragraph_merge_rule_witness :
  appendBlock paragraphState (js "<p class=x>world.</p>\n")
  = mkState [mkBlock (js "md-block-0") (js "<p>Hello world.</p>")] 6 1 [] /\
  appendBlock
    (mkState [mkBlock (js "md-block-0") (js "<p>Hello.</p>")] 6 1 [])
    (js "<p>world</p>")
  = mkState [mkBlock (js "md-block-0") (js "<p>Hello.</p>");
             mkBlock (js "md-block-1") (js "<p>world</p>")] 6 2 [].
Proof.
  split.
  - assert (Hlast : last (renderBlocks paragraphState)
                    = Some (mkBlock (js "md-block-0") (js "<p>Hello </p>")))
      by reflexivity.
    assert (Hblank : isEmpty (trim (js "<p class=x>world.</p>\n")) = false)
      by reflexivity.
    apply (proj2 (proj1 (paragraph_merge_rule paragraphState _ _ Hlast Hblank))).
    repeat split; vm_compute; reflexivity.
  - assert (Hlast : last (renderBlocks
                            (mkState [mkBlock (js "md-block-0") (js "<p>Hello.</p>")]
                               6 1 []))
                    = Some (mkBlock (js "md-block-0") (js "<p>Hello.</p>")))
      by reflexivity.
    assert (Hblank : isEmpty (trim (js "<p>world</p>")) = false) by reflexivity.
    apply (proj1 (proj2 (paragraph_merge_rule _ _ _ Hlast Hblank))).
    + vm_compute; reflexivity.
    + vm_compute; reflexivity.
    + left. vm_compute; reflexivity.
Defined.

(* ================================================================== *)
(** ** Further properties of the boundary detector *)
(* ================================================================== *)

Lemma splitLines_line l rest :
  forallb (fun c => negb (c =? 10)%N) l = true ->
  splitLines (l ++ 10%N :: rest) = l :: splitLines rest.
Proof.
  induction l as [|c l IH]; simpl; [done|].
  intros [Hc Hl]%andb_true_iff. destruct (c =? 10)%N; [done|].
  by rewrite IH.
Qed.

Lemma splitLines_last l :
  forallb (fun c => negb (c =? 10)%N) l = true -> splitLines l = [l].
Proof.
  induction l as [|c l IH]; simpl; [done|].
  intros [Hc Hl]%andb_true_iff. destruct (c =? 10)%N; [done|].
  by rewrite IH.
Qed.

Lemma splitLines_paragraph ls final :
  Forall (fun l => forallb (fun c => negb (c =? 10)%N) l = true) ls ->
  forallb (fun c => negb (c =? 10)%N) final = true ->
  splitLines (paragraphText ls final) = ls ++ [final].
Proof.
  intros Hls Hfinal. unfold paragraphText.
  induction Hls as [|l ls Hl Hls IH]; simpl; [by apply splitLines_last|].
  rewrite <- !app_assoc. simpl. rewrite splitLines_line by done. by rewrite IH.
Qed.

Lemma dropWhile_all f s : forallb f s = true -> dropWhile f s = [].
Proof.
  induction s as [|c s IH]; simpl; [done|].
  intros [-> Hs]%andb_true_iff. auto.
Qed.

Lemma blank_dropWhile line :
  isEmpty (trim line) = true -> dropWhile isWhiteSpace line = [].
Proof.
  intros He. destruct (trim_decompose line) as (l & r & Hline & Hl & Hr).
  destruct (trim line); [|done]. rewrite Hline. simpl.
  apply dropWhile_all. rewrite forallb_app. by rewrite Hl, Hr.
Qed.

(** A line of running text outside fences and lists records nothing. *)
Lemma scanLine_plain lines i line st bs :
  plainLine line = true ->
  inCodeBlock st = false -> inList st = false ->
  scanLine lines i line st bs
  = (setCurrentIndex (currentIndex st + strlen line + 1)
       (setLastNonEmpty i st), bs).
Proof.
  unfold plainLine. intros H Hc Hl.
  apply andb_true_iff in H as [H Hlist].
  apply andb_true_iff in H as [H Hhead].
  apply andb_true_iff in H as [H Hfence].
  apply andb_true_iff in H as [_ Hblank].
  apply bool_decide_eq_true in Hlist, Hfence.
  apply negb_true_iff in Hhead, Hblank.
  unfold scanLine, processCodeBlock, processHeading, processListItem,
    processEmptyLine.
  rewrite Hfence, Hc, Hhead, Hblank, Hlist. cbn. by rewrite Hl.
Qed.

(** A blank line right after the last non-blank one, outside fences and
    lists, records nothing either. *)
Lemma scanLine_blank lines i line st bs :
  isEmpty (trim line) = true ->
  inCodeBlock st = false -> inList st = false ->
  lastNonEmptyLineIndex st = i - 1 ->
  scanLine lines i line st bs
  = (setCurrentIndex (currentIndex st + strlen line + 1) st, bs).
Proof.
  intros Hb Hc Hl Hlast.
  assert (Hf : fenceMatch line = None).
  { unfold fenceMatch. by rewrite blank_dropWhile. }
  assert (Hh : headingMatch line = false).
  { unfold headingMatch. destruct line as [|c line]; [done|].
    cbn [takeWhile dropWhile]. destruct (N.eqb_spec 35 c) as [<-|Hne]; [|done].
    apply blank_dropWhile in Hb. cbn in Hb. done. }
  unfold scanLine, processCodeBlock, processHeading, processListItem,
    processEmptyLine, gapBefore.
  rewrite Hf, Hc, Hh, Hb. cbn. rewrite Hl, Hlast, Z.ltb_irrefl, andb_false_r.
  reflexivity.
Qed.

Lemma scanLines_paragraph ls : forall lines i st bs final,
  Forall (fun l => plainLine l = true) ls ->
  plainLine final = true \/ isEmpty (trim final) = true ->
  inCodeBlock st = false -> inList st = false ->
  lastNonEmptyLineIndex st = i - 1 ->
  scanLines lines (ls ++ [final]) i st bs = bs.
Proof.
  induction ls as [|l ls IH]; intros lines i st bs final Hls Hfinal Hc Hl Hlast.
  - simpl. destruct Hfinal as [Hp|Hb].
    + by rewrite scanLine_plain.
    + by rewrite scanLine_blank.
  - inversion Hls as [|? ? Hp Hls']; subst. simpl.
    rewrite scanLine_plain by done.
    apply IH; try done. cbn. lia.
Qed.

(** X1: a paragraph of running text holds no boundary, whether its last
    line is complete (ended by a line feed) or still being written: the
    detector never flushes in the middle of a paragraph. *)
Theorem paragraph_no_boundary (ls : list jsstring) (final : jsstring) :
  Forall (fun l => plainLine l = true) ls ->
  plainLine final = true \/ final = [] ->
  detectBlockBoundaries (paragraphText ls final) = [].
Proof.
  intros Hls Hfinal. unfold detectBlockBoundaries.
  rewrite splitLines_paragraph.
  - apply scanLines_paragraph; try done.
    destruct Hfinal as [?| ->]; [by left | by right].
  - eapply Forall_impl; [exact Hls|]. intros l Hl. unfold plainLine in Hl.
    by repeat (apply andb_true_iff in Hl as [Hl ?]).
  - destruct Hfinal as [Hp| ->]; [|done]. unfold plainLine in Hp.
    by repeat (apply andb_true_iff in Hp as [Hp ?]).
Qed.

Lemma paragraph_no_boundary_witness :
  detectBlockBoundaries (js "The quick brown\nfox jumps over\nthe lazy") = [].
Proof.
  apply (paragraph_no_boundary [js "The quick brown"; js "fox jumps over"]
           (js "the lazy")).
  - repeat constructor.
  - left. reflexivity.
Defined.

Lemma processHeading_shape line i e st bs s hit st' bs' :
  processHeading line i e st bs s = (hit, st', bs') ->
  currentIndex st' = currentIndex st /\
  (if hit then lineCuts s e bs bs' else bs' = bs /\ st' = st).
Proof.
  unfold processHeading, lineCuts. intros H.
  destruct (negb (headingMatch line) || inList st); [by inversion H|].
  destruct (gapBefore st i); inversion H; subst; cbn; split; auto.
  rewrite <- app_assoc. auto.
Qed.

Lemma processListItem_shape line i em e st bs s hit st' bs' :
  processListItem line i em e st bs s = (hit, st', bs') ->
  currentIndex st' = currentIndex st /\
  (if hit then lineCuts s e bs bs' else bs' = bs /\ st' = st).
Proof.
  unfold processListItem, lineCuts. intros H.
  destruct em; [by inversion H|].
  destruct (listMatch line) as [indent|]; [|by inversion H].
  destruct (negb (inList st) || (indent <? listIndent st)); [|by inversion H; auto].
  destruct (inList st && (0 <=? lastNonEmptyLineIndex st));
    inversion H; subst; cbn; auto.
Qed.

Lemma processEmptyLine_shape line i em lines s e st bs st' bs' :
  processEmptyLine line i em lines s st bs = (st', bs') ->
  currentIndex st' = currentIndex st /\ lineCuts s e bs bs'.
Proof.
  intros H. pose proof H as H'.
  apply processEmptyLine_spec in H as [(_ & _ & Hcur) _]. split; [done|].
  unfold processEmptyLine in H'. unfold lineCuts.
  destruct (negb em); [inversion H'; auto|].
  assert (Hb : forall x : ScanState,
    (x, if gapBefore st i then bs ++ [s - 1] else bs) = (st', bs') ->
    bs' = bs \/ bs' = bs ++ [s - 1] \/ bs' = bs ++ [e] \/ bs' = bs ++ [s - 1; e]).
  { intros x Hx. destruct (gapBefore st i); inversion Hx; auto. }
  repeat match type of H' with
         | (if ?c then _ else _) = _ => destruct c
         | match ?c with _ => _ end = _ => destruct c
         end; eauto.
Qed.

(** One turn of the loop moves the cursor past the line and adds at most
    the offset before the line and the offset at its end, in this order. *)
Lemma scanLine_shape lines i line st bs st' bs' :
  scanLine lines i line st bs = (st', bs') ->
  currentIndex st' = currentIndex st + strlen line + 1 /\
  lineCuts (currentIndex st) (currentIndex st + strlen line) bs bs'.
Proof.
  intros H. pose proof (scanLine_spec _ _ _ _ _ _ _ H) as [Hcur _].
  split; [done|]. clear Hcur.
  unfold scanLine, processCodeBlock in H.
  set (s := currentIndex st) in *. set (e := s + strlen line) in *.
  assert (Hrest : forall st1,
    currentIndex st1 = s ->
    (let '(hit, st2, b2) := processHeading line i e st1 bs s in
     if hit then (setCurrentIndex (e + 1) st2, b2)
     else
       let '(hit0, st3, b3) :=
         processListItem line i (isEmpty (trim line)) e st2 b2 s in
       if hit0 then (setCurrentIndex (e + 1) st3, b3)
       else
         let '(st5, b5) :=
           processEmptyLine line i (isEmpty (trim line)) lines s st3 b3 in
         (setCurrentIndex (e + 1) st5, b5)) = (st', bs') ->
    lineCuts s e bs bs').
  { intros st1 Hs1 Hrun.
    destruct (processHeading line i e st1 bs s) as [[hit st2] b2] eqn:Hh.
    apply processHeading_shape in Hh as [_ Hh].
    destruct hit; [by inversion Hrun; subst|]. destruct Hh as [-> ->].
    destruct (processListItem line i (isEmpty (trim line)) e st1 bs s)
      as [[hit st3] b3] eqn:Hl.
    apply processListItem_shape in Hl as [_ Hl].
    destruct hit; [by inversion Hrun; subst|]. destruct Hl as [-> ->].
    destruct (processEmptyLine line i (isEmpty (trim line)) lines s st1 bs)
      as [st5 b5] eqn:He.
    apply (processEmptyLine_shape _ _ _ _ _ e) in He as [_ He].
    by inversion Hrun; subst. }
  unfold lineCuts in *.
  destruct (fenceMatch line) as [g|].
  - destruct (inCodeBlock st) eqn:Hc; cbn [negb] in H.
    + destruct (streq g (codeBlockFence st)); cbn in H.
      * inversion H; subst. auto.
      * rewrite Hc in H. inversion H; subst. auto.
    + cbn in H. destruct (gapBefore st i); inversion H; subst; auto.
  - destruct (inCodeBlock st) eqn:Hc.
    + inversion H; subst. auto.
    + by apply (Hrest st).
Qed.

Lemma cutsFrom_app a l l' :
  cutsFrom a (l ++ l') <-> cutsFrom a l /\ cutsFrom (lastCut a l) l'.
Proof.
  revert a. induction l as [|b l IH]; intros a; simpl; [tauto|].
  rewrite IH. tauto.
Qed.

Lemma lastCut_app a l l' : lastCut a (l ++ l') = lastCut (lastCut a l) l'.
Proof. revert a. induction l as [|b l IH]; intros a; simpl; auto. Qed.

(** The boundaries recorded so far cut forward and end at or before the
    cursor; the loop keeps it so and ends with the cursor one past the end
    of the text it has scanned. *)
Lemma scanLines_cuts lines rest : forall i st bs,
  0 <= currentIndex st ->
  cutsFrom 0 bs -> lastCut 0 bs <= currentIndex st ->
  cutsFrom 0 (scanLines lines rest i st bs) /\
  lastCut 0 (scanLines lines rest i st bs)
  <= currentIndex st + fold_right (fun l n => strlen l + 1 + n) 0 rest.
Proof.
  induction rest as [|line rest IH]; intros i st bs Hpos Hcuts Hlast; simpl.
  - split; [done | lia].
  - destruct (scanLine lines i line st bs) as [st' bs'] eqn:Hstep.
    apply scanLine_shape in Hstep as [Hcur Hshape].
    pose proof (strlen_nonneg line) as Hlen.
    assert (Hnew : cutsFrom 0 bs' /\ lastCut 0 bs' <= currentIndex st').
    { destruct Hshape as [-> |[-> |[-> | ->]]];
        rewrite ?cutsFrom_app, ?lastCut_app; simpl; repeat split; auto; lia. }
    destruct Hnew as [Hc' Hl'].
    destruct (IH (i + 1) st' bs') as [IH1 IH2]; [lia | done | done |].
    split; [done | lia].
Qed.

Lemma splitLines_total s :
  fold_right (fun l n => strlen l + 1 + n) 0 (splitLines s) = strlen s + 1.
Proof.
  induction s as [|c s IH]; [done|]. simpl.
  destruct (c =? 10)%N.
  - simpl. rewrite IH. unfold strlen. simpl length. lia.
  - destruct (splitLines s) as [|l ls]; simpl in *; unfold strlen in *;
      simpl length in *; lia.
Qed.

(** The cut points of a buffer are in ascending order, start at or after
    offset 0 and end at most one past the end of the buffer. *)
Lemma detectBlockBoundaries_cuts markdown :
  cutsFrom 0 (detectBlockBoundaries markdown) /\
  lastCut 0 (detectBlockBoundaries markdown) <= strlen markdown + 1.
Proof.
  unfold detectBlockBoundaries.
  destruct (scanLines_cuts (splitLines markdown) (splitLines markdown) 0
              initialScan []) as [H1 H2]; try done.
  split; [done|]. rewrite splitLines_total in H2. exact H2.
Qed.

Lemma clamp_mono (s : jsstring) a b : a <= b -> (clamp s a <= clamp s b)%nat.
Proof. unfold clamp. lia. Qed.

Lemma substring_slice (s : jsstring) a b :
  a <= b ->
  substring s a b = take (clamp s b - clamp s a) (drop (clamp s a) s).
Proof.
  intros Hab. unfold substring. pose proof (clamp_mono s a b Hab).
  by rewrite Nat.max_r, Nat.min_l by lia.
Qed.

Lemma substringFrom_zero (s : jsstring) : substringFrom s 0 = s.
Proof. unfold substringFrom, clamp. by replace (Z.to_nat _) with 0%nat by lia. Qed.

(** Slices cut forward, followed by the rest, give back the text from the
    first cut point on. *)
Lemma slices_concat (s : jsstring) bs : forall a,
  cutsFrom a bs ->
  concat (slices s a bs) ++ substringFrom s (lastCut a bs) = substringFrom s a.
Proof.
  induction bs as [|b bs IH]; intros a Hcuts; simpl; [done|].
  destruct Hcuts as [Hab Hrest]. rewrite <- app_assoc, IH by done.
  rewrite substring_slice by done. unfold substringFrom.
  pose proof (clamp_mono s a (b + 1) Hab).
  replace (clamp s (b + 1)) with (clamp s a + (clamp s (b + 1) - clamp s a))%nat
    at 2 by lia.
  rewrite <- drop_drop. apply take_drop.
Qed.

Section FlushFacts.

Variables marked sanitizeAllowList sanitize : jsstring -> completion.

#[local] Abbreviation appendNewContent :=
  (appendNewContent marked sanitizeAllowList sanitize).
#[local] Abbreviation flushBoundaries :=
  (flushBoundaries marked sanitizeAllowList sanitize).
#[local] Abbreviation flushOverflow :=
  (flushOverflow marked sanitizeAllowList sanitize).
#[local] Abbreviation processAccumulatedContent :=
  (processAccumulatedContent marked sanitizeAllowList sanitize).
#[local] Abbreviation renderChunks :=
  (renderChunks marked sanitizeAllowList sanitize).

Lemma renderChunks_accumulated chunks : forall st,
  accumulatedMarkdown (stateOf (renderChunks st chunks)) = accumulatedMarkdown st.
Proof.
  induction chunks as [|c chunks IH]; intros st; simpl; [done|].
  destruct (isEmpty (trim c)); [apply IH|].
  pose proof (appendNewContent_accumulated marked sanitizeAllowList sanitize st c)
    as Hacc.
  destruct (appendNewContent st c) as [st1|st1]; cbn [stateOf] in *;
    [by rewrite IH | done].
Qed.

(** The loop over the boundaries renders the slices of the buffer, in
    order, and ends with [lastIndex] at the last cut point. *)
Lemma flushBoundaries_slices bs : forall st a,
  fst (flushBoundaries st a bs)
  = renderChunks st (slices (accumulatedMarkdown st) a bs) /\
  (forall st1 lastIndex,
     flushBoundaries st a bs = (Returned st1, lastIndex) ->
     lastIndex = lastCut a bs).
Proof.
  induction bs as [|b bs IH]; intros st a; simpl.
  - split; [done|]. by intros st1 lastIndex [= _ <-].
  - destruct (isEmpty (trim _)) eqn:Hblank.
    + destruct (IH st (b + 1)) as [IH1 IH2]. split; [done | exact IH2].
    + pose proof (appendNewContent_accumulated marked sanitizeAllowList sanitize
                    st (substring (accumulatedMarkdown st) a (b + 1))) as Hacc.
      destruct (appendNewContent st _) as [st1|st1]; cbn [stateOf] in Hacc.
      * destruct (IH st1 (b + 1)) as [IH1 IH2]. rewrite Hacc in IH1.
        split; [done | exact IH2].
      * split; [done|]. intros ? ? [=].
Qed.

(** X2: the boundary-driven flush loses nothing and renders in order.  The
    slices that the loop over the detected boundaries takes, followed by
    what it leaves in the buffer, are the buffer itself, and what the loop
    passes to appendNewContent are these slices, first to last, the blank
    ones skipped. *)
Theorem boundary_flush_partitions (st : State) :
  let buffer := accumulatedMarkdown st in
  let bs := detectBlockBoundaries buffer in
  concat (slices buffer 0 bs) ++ substringFrom buffer (lastCut 0 bs) = buffer /\
  fst (flushBoundaries st 0 bs) = renderChunks st (slices buffer 0 bs) /\
  (forall st1 lastIndex,
     flushBoundaries st 0 bs = (Returned st1, lastIndex) ->
     lastIndex = lastCut 0 bs /\ accumulatedMarkdown st1 = buffer).
Proof.
  intros buffer bs.
  destruct (detectBlockBoundaries_cuts buffer) as [Hcuts _].
  destruct (flushBoundaries_slices bs st 0) as [Hrun Hlast].
  split; [|split; [exact Hrun|]].
  - rewrite slices_concat by done. apply substringFrom_zero.
  - intros st1 lastIndex Hret. split; [by eapply Hlast|].
    pose proof (renderChunks_accumulated (slices buffer 0 bs) st) as Hacc.
    fold buffer in Hrun. rewrite <- Hrun, Hret in Hacc. exact Hacc.
Qed.

Lemma lastIndexOf_absent c s : ~ In c s -> lastIndexOf c s = -1.
Proof.
  intros Hno. unfold lastIndexOf.
  destruct (lastIndexOfFrom_spec c s 0 (-1)) as [[Hk _]|(_ & Hat & _)];
    [done|].
  apply list_elem_of_lookup_2, list_elem_of_In in Hat. done.
Qed.

Lemma flushOverflow_buffer st st' :
  flushOverflow st = Returned st' ->
  (exists flushed,
     accumulatedMarkdown st = flushed ++ accumulatedMarkdown st') /\
  (strlen (accumulatedMarkdown st') <= 1000 \/
   lastIndexOf 10%N (accumulatedMarkdown st') <= 100).
Proof.
  unfold Component.flushOverflow.
  destruct (Z.ltb_spec 1000 (strlen (accumulatedMarkdown st))) as [Hlong|Hshort].
  - destruct (Z.ltb_spec 100 (lastIndexOf 10%N (accumulatedMarkdown st)))
      as [Hfar|Hnear].
    + destruct (lastIndexOf_found 10%N (accumulatedMarkdown st) _ eq_refl)
        as (Hlt & _ & Hno); [lia|].
      set (k := lastIndexOf 10%N (accumulatedMarkdown st)) in *.
      rewrite substring_prefix by lia.
      pose proof (appendNewContent_accumulated marked sanitizeAllowList sanitize
                    st (take (Z.to_nat (k + 1)) (accumulatedMarkdown st))) as Hacc.
      destruct (appendNewContent st _) as [st1|st1]; [|done].
      cbn [stateOf] in Hacc. intros [= <-]. cbn [accumulatedMarkdown setAccumulated].
      rewrite Hacc, substringFrom_drop by lia. split.
      * exists (take (Z.to_nat (k + 1)) (accumulatedMarkdown st)).
        by rewrite take_drop.
      * right. replace (Z.to_nat (k + 1)) with (S (Z.to_nat k)) by lia.
        rewrite lastIndexOf_absent by done. lia.
    + intros [= <-]. split; [by exists [] | by right].
  - intros [= <-]. split; [by exists [] | by left].
Qed.

Lemma processAccumulatedContent_buffer st st' :
  processAccumulatedContent st = Returned st' ->
  (exists flushed,
     accumulatedMarkdown st = flushed ++ accumulatedMarkdown st') /\
  (strlen (accumulatedMarkdown st') <= 1000 \/
   lastIndexOf 10%N (accumulatedMarkdown st') <= 100).
Proof.
  unfold Component.processAccumulatedContent.
  destruct (accumulatedMarkdown st) as [|c0 buffer0] eqn:Hbuf.
  { cbn [isEmpty]. intros [= <-]. rewrite Hbuf.
    split; [by exists [] | by left]. }
  cbn [isEmpty]. rewrite <- Hbuf.
  destruct (negb (isEmpty (detectBlockBoundaries (accumulatedMarkdown st)))).
  - destruct (detectBlockBoundaries_cuts (accumulatedMarkdown st)) as [Hcuts _].
    pose proof (slices_concat (accumulatedMarkdown st) _ 0 Hcuts) as Hpart.
    rewrite substringFrom_zero in Hpart.
    destruct (flushBoundaries_slices
                (detectBlockBoundaries (accumulatedMarkdown st)) st 0)
      as [Hrun Hlast].
    pose proof (renderChunks_accumulated
                  (slices (accumulatedMarkdown st) 0
                     (detectBlockBoundaries (accumulatedMarkdown st))) st) as Hacc.
    rewrite <- Hrun in Hacc.
    destruct (flushBoundaries st 0 _) as [[st1|st1] lastIndex]; [|done].
    rewrite (Hlast st1 lastIndex eq_refl). cbn [fst stateOf] in Hacc.
    intros Hover. apply flushOverflow_buffer in Hover as [[flushed Hfl] Hbound].
    cbn [accumulatedMarkdown setAccumulated] in Hfl. split; [|exact Hbound].
    rewrite Hacc in Hfl.
    exists (concat (slices (accumulatedMarkdown st) 0
                      (detectBlockBoundaries (accumulatedMarkdown st))) ++ flushed).
    rewrite <- app_assoc, <- Hfl. by rewrite Hpart.
  - apply flushOverflow_buffer.
Qed.

(** X3: when processAccumulatedContent returns, the buffer it leaves is
    the end of the buffer it found (the text in front of it is what was
    flushed), and it is either at most 1000 code units long or has no line
    feed beyond offset 100. *)
Theorem buffer_after_flush (st st' : State) :
  processAccumulatedContent st = Returned st' ->
  (exists flushed,
     accumulatedMarkdown st = flushed ++ accumulatedMarkdown st') /\
  (strlen (accumulatedMarkdown st') <= 1000 \/
   lastIndexOf 10%N (accumulatedMarkdown st') <= 100).
Proof. apply processAccumulatedContent_buffer. Qed.

End FlushFacts.

Lemma buffer_after_flush_witness :
  (exists flushed,
     longParagraph = flushed ++ js "wo") /\
  (strlen (js "wo") <= 1000 \/ lastIndexOf 10%N (js "wo") <= 100).
Proof.
  assert (H : processAccumulatedContent echo echo echo
                (setAccumulated longParagraph initialState)
              = Returned (mkState [mkBlock (js "md-block-0") (take 1500 longParagraph)]
                            0 1 (js "wo")))
    by (vm_compute; reflexivity).
  exact (buffer_after_flush echo echo echo _ _ H).
Defined.

(* ================================================================== *)
(** ** Further properties of the block store *)
(* ================================================================== *)

Lemma pushBlock_sequential st h : sequential st -> sequential (pushBlock st h).
Proof.
  intros [Hc Hids]. unfold sequential, pushBlock. cbn [renderBlocks blockCounter].
  split; [rewrite length_app; cbn; lia|].
  intros i b Hb. apply lookup_app_Some in Hb as [Hb|[Hi Hb]]; [by apply Hids|].
  apply list_lookup_singleton_Some in Hb as [Hi0 <-]. cbn [id].
  f_equal. lia.
Qed.

Lemma assignLast_sequential st lastBlock merged :
  last (renderBlocks st) = Some lastBlock -> id merged = id lastBlock ->
  sequential st -> sequential (assignLast st merged).
Proof.
  intros Hlast Hid [Hc Hids]. rewrite last_lookup in Hlast.
  unfold sequential, assignLast. cbn [renderBlocks blockCounter].
  rewrite length_insert. split; [done|].
  intros i b Hb.
  destruct (decide (i = (length (renderBlocks st) - 1)%nat)) as [->|Hne].
  - apply lookup_lt_Some in Hlast as Hlt.
    rewrite list_lookup_insert_eq in Hb by lia. inversion Hb; subst b.
    rewrite Hid. apply Hids.
    by replace (length (renderBlocks st) - 1)%nat
      with (Nat.pred (length (renderBlocks st))) by lia.
  - rewrite list_lookup_insert_ne in Hb by done. by apply Hids.
Qed.

Lemma appendBlock_sequential st blockHtml :
  sequential st -> sequential (appendBlock st blockHtml).
Proof.
  intros Hs. unfold appendBlock.
  destruct (isEmpty (trim blockHtml)); [done|].
  destruct (last (renderBlocks st)) as [lastBlock|] eqn:Hlast;
    [|by apply pushBlock_sequential].
  destruct (shouldMergeBlocks _ _); [|by apply pushBlock_sequential].
  destruct (containsImage _); [by apply pushBlock_sequential|].
  destruct (mergeBlocks lastBlock blockHtml) as [merged|] eqn:Hm; [|done].
  eapply assignLast_sequential; eauto using mergeBlocks_id.
Qed.

Lemma fold_appendBlock_sequential blocks : forall st,
  sequential st -> sequential (fold_left appendBlock blocks st).
Proof.
  induction blocks as [|b blocks IH]; intros st Hs; simpl; [done|].
  by apply IH, appendBlock_sequential.
Qed.

Section StoreFacts.

Variables marked sanitizeAllowList sanitize : jsstring -> completion.

#[local] Abbreviation appendNewContent :=
  (appendNewContent marked sanitizeAllowList sanitize).
#[local] Abbreviation flushBoundaries :=
  (flushBoundaries marked sanitizeAllowList sanitize).
#[local] Abbreviation flushOverflow :=
  (flushOverflow marked sanitizeAllowList sanitize).
#[local] Abbreviation processAccumulatedContent :=
  (processAccumulatedContent marked sanitizeAllowList sanitize).
#[local] Abbreviation handleContentUpdate :=
  (handleContentUpdate marked sanitizeAllowList sanitize).
#[local] Abbreviation handleCompleted :=
  (handleCompleted marked sanitizeAllowList sanitize).
Lemma step_wellFormed st ev :
  wellFormed st -> wellFormed (step marked sanitizeAllowList sanitize st ev).
Proof.
  intros Hwf. destruct ev as [c|b]; unfold step.
  - by apply handleContentUpdate_wellFormed.
  - by apply (handleCompleted_evolves marked sanitizeAllowList sanitize st b).
Qed.

Lemma run_wellFormed events : forall st,
  wellFormed st -> wellFormed (run marked sanitizeAllowList sanitize st events).
Proof.
  induction events as [|ev events IH]; intros st Hwf; [done|].
  apply IH, step_wellFormed, Hwf.
Qed.

(** X4: whatever values the two props take, in whatever order, and whatever
    the converter and the sanitizer do (return or throw), the identifiers
    of the stored blocks are pairwise distinct in every state the component
    reaches, resets and failed renders included. *)
Theorem identifiers_always_distinct (events : list event) :
  NoDup (map id (renderBlocks
                   (run marked sanitizeAllowList sanitize initialState events))).
Proof.
  destruct (run_wellFormed events initialState initialState_wellFormed)
    as (_ & Hnd & _).
  exact Hnd.
Qed.

Lemma appendNewContent_sequential st newPart st' :
  appendNewContent st newPart = Returned st' -> sequential st -> sequential st'.
Proof.
  unfold Component.appendNewContent, Component.renderFallback.
  intros Hrun Hs.
  destruct (marked newPart) as [h|]; [destruct (sanitizeAllowList h)|].
  - inversion Hrun; subst. by apply fold_appendBlock_sequential.
  - destruct (sanitize newPart); inversion Hrun; subst.
    by apply pushBlock_sequential.
  - destruct (sanitize newPart); inversion Hrun; subst.
    by apply pushBlock_sequential.
Qed.

Lemma flushBoundaries_sequential bs : forall st a st' lastIndex,
  flushBoundaries st a bs = (Returned st', lastIndex) ->
  sequential st -> sequential st'.
Proof.
  induction bs as [|b bs IH]; intros st a st' lastIndex; simpl.
  - by intros [= <- _].
  - destruct (isEmpty (trim _)); [apply IH|].
    destruct (appendNewContent st _) as [st1|st1] eqn:Hrun; [|done].
    intros Hrest Hs. eapply IH; [exact Hrest|].
    by eapply appendNewContent_sequential.
Qed.

Lemma flushOverflow_sequential st st' :
  flushOverflow st = Returned st' -> sequential st -> sequential st'.
Proof.
  unfold Component.flushOverflow.
  destruct (1000 <? _); [|by intros [= <-]].
  destruct (100 <? _); [|by intros [= <-]].
  destruct (appendNewContent st _) as [st1|st1] eqn:Hrun; [|done].
  intros [= <-] Hs. by eapply (appendNewContent_sequential st _ st1).
Qed.

Lemma processAccumulatedContent_sequential st st' :
  processAccumulatedContent st = Returned st' -> sequential st -> sequential st'.
Proof.
  unfold Component.processAccumulatedContent.
  destruct (isEmpty (accumulatedMarkdown st)); [by intros [= <-]|].
  destruct (negb _); [|apply flushOverflow_sequential].
  destruct (flushBoundaries st 0 _) as [[st1|st1] lastIndex] eqn:Hrun; [|done].
  intros Hover Hs. apply flushOverflow_sequential in Hover; [done|].
  by apply (flushBoundaries_sequential _ _ _ _ _ Hrun).
Qed.

Lemma initialState_sequential : sequential initialState.
Proof. split; [done|]. intros i b Hb. done. Qed.

Lemma handleContentUpdate_sequential st newContent st' :
  handleContentUpdate st newContent = Returned st' ->
  sequential st -> sequential st'.
Proof.
  unfold Component.handleContentUpdate. intros Hrun Hs.
  destruct newContent as [content|];
    [|inversion Hrun; apply initialState_sequential].
  destruct (isEmpty content); [inversion Hrun; apply initialState_sequential|].
  set (st1 := if strlen content <? processedLength st then initialState else st)
    in *.
  assert (Hs1 : sequential st1).
  { subst st1. destruct (_ <? _); [apply initialState_sequential | done]. }
  destruct (negb _); [|by inversion Hrun].
  destruct (processAccumulatedContent _) as [st2|st2] eqn:Hp; [|done].
  inversion Hrun; subst.
  by apply (processAccumulatedContent_sequential _ _ Hp).
Qed.

Lemma handleCompleted_sequential st isCompleted st' :
  handleCompleted st isCompleted = Returned st' ->
  sequential st -> sequential st'.
Proof.
  unfold Component.handleCompleted. intros Hrun Hs.
  destruct (isCompleted && _); [|by inversion Hrun; subst].
  destruct (negb (isEmpty (trim _))); [|by inversion Hrun; subst].
  destruct (appendNewContent st _) as [st1|st1] eqn:Hp; [|done].
  inversion Hrun; subst.
  by apply (appendNewContent_sequential _ _ _ Hp).
Qed.

Lemma handleCompleted_returns st isCompleted :
  (forall s, sanitize s <> Exception) ->
  exists st', handleCompleted st isCompleted = Returned st'.
Proof.
  intros Hsan. unfold Component.handleCompleted.
  destruct (isCompleted && _); [|eauto].
  destruct (negb (isEmpty (trim _))); [|eauto].
  destruct (appendNewContent_returns marked sanitizeAllowList sanitize st
              (accumulatedMarkdown st) Hsan) as [st1 ->].
  eauto.
Qed.

Lemma run_sequential events : forall st,
  (forall s, sanitize s <> Exception) ->
  sequential st -> sequential (run marked sanitizeAllowList sanitize st events).
Proof.
  induction events as [|ev events IH]; intros st Hsan Hs; [done|].
  apply IH; [done|]. unfold step. destruct ev as [c|b].
  - destruct (handleContentUpdate_returns marked sanitizeAllowList sanitize
                st c Hsan) as [st' Hrun].
    rewrite Hrun. by apply (handleContentUpdate_sequential _ _ _ Hrun).
  - destruct (handleCompleted_returns st b Hsan) as [st' Hrun].
    rewrite Hrun. by apply (handleCompleted_sequential _ _ _ Hrun).
Qed.

(** X5: with a sanitizer that returns on raw text, in every state the
    component reaches the counter is the number of stored blocks and the
    block at index [i] carries the identifier made from [i]: identifiers
    are issued in display order, without gaps, and start again at 0 after a
    reset. *)
Theorem identifiers_sequential (events : list event) :
  (forall s, sanitize s <> Exception) ->
  sequential (run marked sanitizeAllowList sanitize initialState events).
Proof.
  intros Hsan. apply run_sequential; [done | apply initialState_sequential].
Qed.

End StoreFacts.

Lemma identifiers_sequential_witness :
  sequential (run echo echo echo initialState
                [ContentIs (Some (js "# One\n\nTwo"));
                 ContentIs (Some (js "# One\n\nTwo words\n\n"));
                 CompletedIs true]).
Proof.
  apply identifiers_sequential. intros s. discriminate.
Defined.

(* ================================================================== *)
(** ** Further properties of the merge engine *)
(* ================================================================== *)

Lemma dropWhile_keeps f y pat c r :
  pat = c :: r -> f c = false -> exists pre, dropWhile f (y ++ pat) = pre ++ pat.
Proof.
  intros -> Hc. induction y as [|d y IH]; simpl.
  - rewrite Hc. by exists [].
  - destruct (f d); [exact IH|]. by exists (d :: y).
Qed.

Lemma trimEnd_id x c :
  last x = Some c -> isWhiteSpace c = false -> trimEnd x = x.
Proof.
  intros Hl Hc. unfold trimEnd. apply last_Some in Hl as [x' ->].
  rewrite rev_app_distr. simpl. rewrite Hc. simpl.
  by rewrite rev_involutive.
Qed.

(** [trim] leaves alone a text at the end that starts and ends with code
    units other than white space. *)
Lemma trim_keeps_end y pat c r d :
  pat = c :: r -> isWhiteSpace c = false ->
  last pat = Some d -> isWhiteSpace d = false ->
  exists pre, trim (y ++ pat) = pre ++ pat.
Proof.
  intros Hpat Hc Hlast Hd. unfold trim, trimStart.
  destruct (dropWhile_keeps isWhiteSpace y pat c r Hpat Hc) as [pre ->].
  exists pre. apply (trimEnd_id _ d); [|done].
  by rewrite last_app, Hlast.
Qed.

Lemma isIncompleteList_closed y tag :
  tag = js "ul" \/ tag = js "ol" ->
  isIncompleteList (y ++ js "</" ++ tag ++ js ">") = false.
Proof.
  intros Htag. unfold isIncompleteList.
  destruct (isEmpty _); [done|].
  assert (Hend : existsSuffix
            (fun t => bool_decide (is_Some (closeTag true listNames t)))
            (trim (y ++ js "</" ++ tag ++ js ">")) = true).
  { destruct (trim_keeps_end y (js "</" ++ tag ++ js ">") 60%N
                (js "/" ++ tag ++ js ">") 62%N) as [pre ->]; try done.
    { by destruct Htag as [-> | ->]. }
    apply existsSuffix_true. exists pre, (js "</" ++ tag ++ js ">").
    split; [done|]. by destruct Htag as [-> | ->]. }
  rewrite Hend. apply andb_false_r.
Qed.

Lemma contains_closed ci y pat c r d :
  pat = c :: r -> isWhiteSpace c = false ->
  last pat = Some d -> isWhiteSpace d = false ->
  contains ci pat (trim (y ++ pat)) = true.
Proof.
  intros Hpat Hc Hlast Hd.
  destruct (trim_keeps_end y pat c r d Hpat Hc Hlast Hd) as [pre ->].
  unfold contains. apply existsSuffix_true. exists pre, pat.
  split; [done|].
  pose proof (stripPrefix_app ci pat []) as Hs. rewrite app_nil_r in Hs.
  by rewrite Hs.
Qed.

Lemma isIncompleteTable_closed y : isIncompleteTable (y ++ js "</table>") = false.
Proof.
  unfold isIncompleteTable. destruct (isEmpty _); [done|].
  rewrite (contains_closed true y (js "</table>") 60%N (js "/table>") 62%N)
    by done.
  apply andb_false_r.
Qed.

Lemma isIncompleteBlockquote_closed y :
  isIncompleteBlockquote (y ++ js "</blockquote>") = false.
Proof.
  unfold isIncompleteBlockquote. destruct (isEmpty _); [done|].
  rewrite (contains_closed true y (js "</blockquote>") 60%N (js "/blockquote>")
             62%N) by done.
  apply andb_false_r.
Qed.

(** X6: the guard and the merge agree.  Whenever shouldMergeBlocks accepts
    a pair, mergeBlocks returns a block, under the identifier of the last
    block: the branch of the callback of appendNewContent in which
    mergeBlocks returns nothing is never taken.  With a last stored block
    and a new block that is not blank, the callback therefore does one of
    two things: when the pair is accepted and the last block holds no
    image, it replaces the last entry by the block that mergeBlocks
    returns; otherwise it pushes the new block. *)
Theorem accepted_merge_is_defined (st : State) (lastBlock : Block)
    (blockHtml : jsstring) :
  last (renderBlocks st) = Some lastBlock ->
  isEmpty (trim blockHtml) = false ->
  (shouldMergeBlocks (html lastBlock) blockHtml = true ->
   exists merged,
     mergeBlocks lastBlock blockHtml = Some merged /\
     id merged = id lastBlock /\
     appendBlock st blockHtml
     = if containsImage (html lastBlock) then pushBlock st blockHtml
       else assignLast st merged) /\
  (shouldMergeBlocks (html lastBlock) blockHtml = false ->
   appendBlock st blockHtml = pushBlock st blockHtml).
Proof.
  intros Hlast Hblank. unfold appendBlock. rewrite Hblank, Hlast.
  split; intros Hs; rewrite Hs; [|done].
  assert (Hm : exists merged, mergeBlocks lastBlock blockHtml = Some merged).
  { unfold shouldMergeBlocks in Hs. unfold mergeBlocks.
    destruct (isEmpty (html lastBlock) || isEmpty blockHtml); [done|].
    destruct (isParagraphBlock (html lastBlock) && isParagraphBlock blockHtml);
      [eauto|].
    destruct (isIncompleteList (html lastBlock)).
    { repeat match goal with
             | |- context [if ?c then _ else _] => destruct c
             end; eauto. }
    destruct (isIncompleteTable (html lastBlock)).
    { repeat match goal with
             | |- context [if ?c then _ else _] => destruct c
             end; eauto. }
    destruct (isIncompleteBlockquote (html lastBlock)); [eauto | done]. }
  destruct Hm as [merged Hm]. exists merged. rewrite Hm.
  split; [done|]. split; [by eapply mergeBlocks_id | done].
Qed.

Lemma accepted_merge_is_defined_witness :
  exists merged,
    mergeBlocks (mkBlock (js "md-block-0") (js "<ul><li>a</li>")) (js "<li>b</li>")
    = Some merged /\
    id merged = js "md-block-0" /\
    appendBlock (mkState [mkBlock (js "md-block-0") (js "<ul><li>a</li>")] 9 1 [])
      (js "<li>b</li>")
    = assignLast (mkState [mkBlock (js "md-block-0") (js "<ul><li>a</li>")] 9 1 [])
        merged.
Proof.
  assert (Hlast : last (renderBlocks
                          (mkState [mkBlock (js "md-block-0") (js "<ul><li>a</li>")]
                             9 1 []))
                  = Some (mkBlock (js "md-block-0") (js "<ul><li>a</li>")))
    by reflexivity.
  assert (Hblank : isEmpty (trim (js "<li>b</li>")) = false) by reflexivity.
  assert (Hs : shouldMergeBlocks
                 (html (mkBlock (js "md-block-0") (js "<ul><li>a</li>")))
                 (js "<li>b</li>") = true) by (vm_compute; reflexivity).
  exact (proj1 (accepted_merge_is_defined _ _ _ Hlast Hblank) Hs).
Defined.

(** X7: a merge by the list, table or blockquote rule closes the block it
    merges into.  The merged html ends with the closing tag, so the test
    that made the last block accept the merge (an opening tag without a
    closing one) fails on the result: the same rule does not merge a second
    block into it. *)
Theorem merge_closes_open_block (lastBlock : Block) (blockHtml : jsstring)
    (merged : Block) :
  shouldMergeBlocks (html lastBlock) blockHtml = true ->
  isParagraphBlock (html lastBlock) && isParagraphBlock blockHtml = false ->
  mergeBlocks lastBlock blockHtml = Some merged ->
  (isIncompleteList (html lastBlock) = true ->
   isIncompleteList (html merged) = false) /\
  (isIncompleteList (html lastBlock) = false ->
   isIncompleteTable (html lastBlock) = true ->
   isIncompleteTable (html merged) = false) /\
  (isIncompleteList (html lastBlock) = false ->
   isIncompleteTable (html lastBlock) = false ->
   isIncompleteBlockquote (html merged) = false).
Proof.
  intros Hs Hp Hm. unfold shouldMergeBlocks in Hs. unfold mergeBlocks in Hm.
  rewrite Hp in Hs, Hm.
  destruct (isEmpty (html lastBlock) || isEmpty blockHtml); [done|].
  destruct (isIncompleteList (html lastBlock)) eqn:Hl.
  - split; [intros _|split; intros; done].
    set (tag := if streq _ (js "ul") then js "ul" else js "ol") in Hm.
    assert (Htag : tag = js "ul" \/ tag = js "ol")
      by (subst tag; destruct (streq _ _); auto).
    clearbody tag.
    destruct (isListItemBlock blockHtml).
    { apply (inj Some) in Hm; subst merged; cbn [html].
      match goal with
      | |- isIncompleteList (?a ++ ?b ++ js "</" ++ tag ++ js ">") = false =>
          replace (a ++ b ++ js "</" ++ tag ++ js ">")
            with ((a ++ b) ++ js "</" ++ tag ++ js ">")
            by (by rewrite <- !app_assoc)
      end.
      by apply isIncompleteList_closed. }
    destruct (isListBlock blockHtml).
    { apply (inj Some) in Hm; subst merged; cbn [html].
      match goal with
      | |- isIncompleteList (?a ++ ?b ++ js "</" ++ tag ++ js ">") = false =>
          replace (a ++ b ++ js "</" ++ tag ++ js ">")
            with ((a ++ b) ++ js "</" ++ tag ++ js ">")
            by (by rewrite <- !app_assoc)
      end.
      by apply isIncompleteList_closed. }
    destruct (isParagraphBlock blockHtml); [|done].
    apply (inj Some) in Hm; subst merged; cbn [html].
    match goal with
    | |- isIncompleteList (?a ++ js "<li>" ++ ?b ++ js "</li></" ++ tag ++ js ">")
         = false =>
        replace (a ++ js "<li>" ++ b ++ js "</li></" ++ tag ++ js ">")
          with ((a ++ js "<li>" ++ b ++ js "</li>") ++ js "</" ++ tag ++ js ">")
          by (by rewrite <- !app_assoc)
    end.
    by apply isIncompleteList_closed.
  - split; [done|].
    destruct (isIncompleteTable (html lastBlock)) eqn:Ht.
    + split; [intros _ _|intros; done].
      destruct (isTableRowBlock blockHtml).
      { apply (inj Some) in Hm; subst merged; cbn [html].
        rewrite app_assoc. apply isIncompleteTable_closed. }
      destruct (isTableBlock blockHtml); [|done].
      apply (inj Some) in Hm; subst merged; cbn [html].
      rewrite app_assoc. apply isIncompleteTable_closed.
    + split; [intros; done|intros _ _].
      destruct (isIncompleteBlockquote (html lastBlock)); [|done].
      apply (inj Some) in Hm; subst merged; cbn [html].
      rewrite app_assoc. apply isIncompleteBlockquote_closed.
Qed.

Lemma merge_closes_open_block_witness :
  isIncompleteList
    (html (mkBlock (js "md-block-0") (js "<ul><li>a</li><li>b</li></ul>")))
  = false.
Proof.
  assert (H1 : shouldMergeBlocks (js "<ul><li>a</li>") (js "<li>b</li>") = true)
    by reflexivity.
  assert (H2 : isParagraphBlock (js "<ul><li>a</li>")
               && isParagraphBlock (js "<li>b</li>") = false) by reflexivity.
  assert (H3 : mergeBlocks (mkBlock (js "md-block-0") (js "<ul><li>a</li>"))
                 (js "<li>b</li>")
               = Some (mkBlock (js "md-block-0")
                         (js "<ul><li>a</li><li>b</li></ul>"))) by reflexivity.
  destruct (merge_closes_open_block
              (mkBlock (js "md-block-0") (js "<ul><li>a</li>"))
              (js "<li>b</li>") _ H1 H2 H3) as [H _].
  apply H. reflexivity.
Defined.

Lemma trim_core z w c d :
  head z = Some c -> isWhiteSpace c = false ->
  last z = Some d -> isWhiteSpace d = false ->
  forallb isWhiteSpace w = true ->
  trim (z ++ w) = z.
Proof.
  intros Hh Hc Hl Hd Hw. unfold trim, trimStart, trimEnd.
  destruct z as [|c' z']; [done|]. injection Hh as ->.
  cbn [app dropWhile]. rewrite Hc.
  change (c :: z' ++ w) with ((c :: z') ++ w).
  rewrite rev_app_distr, dropWhile_skip by (by rewrite forallb_rev).
  apply last_Some in Hl as [z'' Hz]. rewrite Hz, rev_app_distr. cbn.
  rewrite Hd. cbn. by rewrite rev_involutive.
Qed.

Lemma tagAttributes_tail attrs rest :
  tagAttributes attrs = true ->
  tagTail (attrs ++ 62%N :: rest) = Some rest /\ ~ In 62%N attrs.
Proof.
  destruct attrs as [|c r]; intros Hattrs.
  - split; [reflexivity | intros []].
  - cbn [tagAttributes] in Hattrs. apply andb_true_iff in Hattrs as [Hc Hr].
    assert (Hno : ~ In 62%N r).
    { intros Hin. rewrite forallb_forall in Hr. by apply Hr in Hin. }
    cbn [app tagTail].
    destruct (N.eqb_spec c 62) as [->|Hne]; [done|]. rewrite Hc.
    split; [by apply afterFirstGt_skip|]. intros [?|?]; done.
Qed.

(** A paragraph element, with white space after it or not, is a paragraph
    block. *)
Lemma isParagraphBlock_span attrs inner white :
  tagAttributes attrs = true -> forallb isWhiteSpace white = true ->
  isParagraphBlock (paragraphSpan attrs inner white) = true.
Proof.
  intros Hattrs Hw. unfold isParagraphBlock, paragraphSpan.
  assert (isEmpty (js "<p" ++ attrs ++ js ">" ++ inner ++ js "</p>" ++ white) = false)
    as -> by reflexivity.
  cbv zeta.
  assert (Htrim : trim (js "<p" ++ attrs ++ js ">" ++ inner ++ js "</p>" ++ white)
                  = js "<p" ++ attrs ++ js ">" ++ inner ++ js "</p>").
  { replace (js "<p" ++ attrs ++ js ">" ++ inner ++ js "</p>" ++ white)
      with ((js "<p" ++ attrs ++ js ">" ++ inner ++ js "</p>") ++ white)
      by (by rewrite <- !app_assoc).
    apply (trim_core _ _ 60%N 62%N); try done.
    rewrite !app_assoc. by rewrite last_app. }
  rewrite Htrim. apply andb_true_iff. split.
  - apply bool_decide_eq_true. cbn [openTag].
    change (60%N :: js "p") with (js "<p"). rewrite stripPrefix_app.
    change (js ">" ++ inner ++ js "</p>") with (62%N :: inner ++ js "</p>").
    destruct (tagAttributes_tail attrs (inner ++ js "</p>") Hattrs) as [-> _].
    eauto.
  - apply existsSuffix_true. exists (js "<p" ++ attrs ++ js ">" ++ inner), (js "</p>").
    split; [by rewrite <- !app_assoc | done].
Qed.

(** X8: two paragraph elements always merge into one paragraph element:
    mergeBlocks gives the opening tag of the first, the inner content of
    the first followed by that of the second, and one closing tag, under
    the identifier of the first; and the result is a paragraph block again,
    ready to take a further fragment. *)
Theorem paragraph_elements_merge (blockId0 attrs1 inner1 white1
    attrs2 inner2 white2 : jsstring) :
  tagAttributes attrs1 = true -> tagAttributes attrs2 = true ->
  forallb isWhiteSpace white1 = true -> forallb isWhiteSpace white2 = true ->
  mergeBlocks (mkBlock blockId0 (paragraphSpan attrs1 inner1 white1))
    (paragraphSpan attrs2 inner2 white2)
  = Some (mkBlock blockId0 (paragraphSpan attrs1 (inner1 ++ inner2) [])) /\
  isParagraphBlock (paragraphSpan attrs1 (inner1 ++ inner2) []) = true.
Proof.
  intros Ha1 Ha2 Hw1 Hw2. split; [|by apply isParagraphBlock_span].
  unfold mergeBlocks. cbn [html id].
  rewrite !isParagraphBlock_span by done. cbn [andb]. do 2 f_equal.
  unfold paragraphSpan.
  assert (Hdrop : dropOpening false (js "p")
                    (js "<p" ++ attrs2 ++ js ">" ++ inner2 ++ js "</p>" ++ white2)
                  = inner2 ++ js "</p>" ++ white2).
  { unfold dropOpening.
    change (60%N :: js "p") with (js "<p"). rewrite stripPrefix_app.
    change (js ">" ++ inner2 ++ js "</p>" ++ white2)
      with (62%N :: inner2 ++ js "</p>" ++ white2).
    destruct (tagAttributes_tail attrs2 [] Ha2) as [_ Hno].
    by rewrite afterFirstGt_skip. }
  rewrite Hdrop, cut_closing_paragraph by done.
  replace (js "<p" ++ attrs1 ++ js ">" ++ inner1 ++ js "</p>" ++ white1)
    with ((js "<p" ++ attrs1 ++ js ">" ++ inner1) ++ js "</p>" ++ white1)
    by (by rewrite <- !app_assoc).
  rewrite cut_closing_paragraph by done.
  rewrite app_nil_r, <- !app_assoc. reflexivity.
Qed.

Lemma paragraph_elements_merge_witness :
  mergeBlocks (mkBlock (js "md-block-3") (js "<p class=a>One </p>\n"))
    (js "<p>two</p>")
  = Some (mkBlock (js "md-block-3") (js "<p class=a>One two</p>")).
Proof.
  exact (proj1 (paragraph_elements_merge (js "md-block-3") (js " class=a")
                  (js "One ") (js "\n") [] (js "two") []
                  eq_refl eq_refl eq_refl eq_refl)).
Defined.

(* ================================================================== *)
(** ** Further properties of the HTML block splitter *)
(* ================================================================== *)

(** X9: a text without any [<] that is not blank comes back whole, as the
    only block. *)
Theorem plain_text_single_block (html : jsstring) :
  ~ In 60%N html -> isEmpty (trim html) = false ->
  splitIntoCompleteBlocks html = [html].
Proof.
  intros Hno Hblank. unfold splitIntoCompleteBlocks. rewrite Hblank.
  assert (isEmpty html = false) as -> by (by destruct html).
  cbn [orb].
  replace (length html) with (length html + 0)%nat by lia.
  change 0 with (Z.of_nat 0).
  rewrite splitLoop_skip; [done|].
  intros j Hj. destruct (lookup_lt_is_Some_2 html j) as [d Hd]; [lia|].
  exists d. split; [done|]. intros ->.
  apply list_elem_of_lookup_2, list_elem_of_In in Hd. done.
Qed.

Lemma plain_text_single_block_witness :
  splitIntoCompleteBlocks (js "1 > 0 and so on") = [js "1 > 0 and so on"].
Proof.
  apply plain_text_single_block; [|reflexivity].
  vm_compute. intuition discriminate.
Defined.


(* ================================================================== *)
(** ** Further properties of the boundary detector: headings *)
(* ================================================================== *)

Lemma headingMatch_no_fence h : headingMatch h = true -> fenceMatch h = None.
Proof.
  unfold headingMatch, fenceMatch. destruct h as [|c h]; [done|].
  cbn [takeWhile dropWhile]. destruct (N.eqb_spec 35 c) as [<-|Hne]; [done|].
  done.
Qed.

(** A heading outside fences and lists, right after the last non-blank
    line or before any, records the offset of its end and nothing else. *)
Lemma scanLine_heading lines i line st bs :
  headingMatch line = true ->
  inCodeBlock st = false -> inList st = false ->
  lastNonEmptyLineIndex st < 0 \/ lastNonEmptyLineIndex st = i - 1 ->
  scanLine lines i line st bs
  = (setCurrentIndex (currentIndex st + strlen line + 1) (setLastNonEmpty i st),
     bs ++ [currentIndex st + strlen line]).
Proof.
  intros Hh Hc Hl Hlast.
  unfold scanLine, processCodeBlock, processHeading, gapBefore.
  rewrite (headingMatch_no_fence _ Hh), Hc, Hh, Hl. cbn [negb orb].
  assert ((0 <=? lastNonEmptyLineIndex st)
          && (lastNonEmptyLineIndex st <? i - 1) = false) as ->.
  { apply andb_false_iff. destruct Hlast; [left|right]; lia. }
  reflexivity.
Qed.

Lemma paragraphText_length ls final :
  strlen (paragraphText ls final) = strlen (paragraphText ls []) + strlen final.
Proof. unfold paragraphText, strlen. rewrite !length_app. cbn. lia. Qed.

Lemma paragraphText_cons l ls final :
  strlen (paragraphText (l :: ls) final)
  = strlen l + 1 + strlen (paragraphText ls final).
Proof.
  unfold paragraphText, strlen. cbn [map concat].
  rewrite !length_app. cbn. lia.
Qed.

Lemma paragraphText_snoc ls l final :
  paragraphText (ls ++ [l]) final = paragraphText ls l ++ 10%N :: final.
Proof.
  unfold paragraphText. rewrite map_app, concat_app. cbn.
  by rewrite app_nil_r, <- !app_assoc.
Qed.

(** Lines of running text outside fences and lists move the scan forward
    and record nothing. *)
Lemma scanLines_plain_prefix ls : forall lines rest i st bs,
  Forall (fun l => plainLine l = true) ls ->
  inCodeBlock st = false -> inList st = false ->
  lastNonEmptyLineIndex st < 0 \/ lastNonEmptyLineIndex st = i - 1 ->
  exists st',
    scanLines lines (ls ++ rest) i st bs
    = scanLines lines rest (i + Z.of_nat (length ls)) st' bs /\
    inCodeBlock st' = false /\ inList st' = false /\
    (lastNonEmptyLineIndex st' < 0 \/
     lastNonEmptyLineIndex st' = i + Z.of_nat (length ls) - 1) /\
    currentIndex st' = currentIndex st + strlen (paragraphText ls []).
Proof.
  induction ls as [|l ls IH]; intros lines rest i st bs Hls Hc Hl Hlast.
  - exists st. cbn [app length]. rewrite Z.add_0_r.
    split; [done|]. split; [done|]. split; [done|]. split.
    + destruct Hlast; [left | right]; lia.
    + change (strlen (paragraphText [] [])) with 0. lia.
  - inversion Hls as [|? ? Hp Hls']; subst. cbn [app scanLines].
    rewrite scanLine_plain by done.
    destruct (IH lines rest (i + 1)
                (setCurrentIndex (currentIndex st + strlen l + 1)
                   (setLastNonEmpty i st)) bs Hls' Hc Hl)
      as (st' & Hrun & Hc' & Hl' & Hlast' & Hidx).
    { right. cbn. lia. }
    exists st'. rewrite Hrun. cbn [length].
    replace (i + Z.of_nat (S (length ls))) with (i + 1 + Z.of_nat (length ls))
      by lia.
    split; [done|]. split; [done|]. split; [done|]. split.
    + destruct Hlast' as [?|Heq]; [by left | right; lia].
    + rewrite Hidx, paragraphText_cons.
      cbn [currentIndex setCurrentIndex setLastNonEmpty]. lia.
Qed.

(** X11: a heading line is flushed as soon as it is in the buffer.  When
    only running text stands before it (no blank line), the detector
    records one boundary, at the end of the heading line, whether the line
    feed after the heading has arrived or not: the heading is rendered
    while it may still be growing, in one chunk with the text before it. *)
Theorem heading_line_flushed (ls : list jsstring) (heading : jsstring) :
  Forall (fun l => plainLine l = true) ls ->
  headingMatch heading = true ->
  forallb (fun c => negb (c =? 10)%N) heading = true ->
  detectBlockBoundaries (paragraphText ls heading)
  = [strlen (paragraphText ls heading)] /\
  detectBlockBoundaries (paragraphText ls heading ++ [10%N])
  = [strlen (paragraphText ls heading)].
Proof.
  intros Hls Hh Hnl.
  assert (Hlines : Forall (fun l => forallb (fun c => negb (c =? 10)%N) l = true) ls).
  { eapply Forall_impl; [exact Hls|]. intros l Hl. unfold plainLine in Hl.
    by repeat (apply andb_true_iff in Hl as [Hl ?]). }
  split; unfold detectBlockBoundaries.
  - rewrite splitLines_paragraph by done.
    destruct (scanLines_plain_prefix ls (ls ++ [heading]) [heading] 0
                initialScan [] Hls eq_refl eq_refl)
      as (st' & -> & Hc & Hl & Hlast & Hidx); [by left|].
    cbn [scanLines]. rewrite scanLine_heading by (done || (cbn; lia)).
    cbn [app]. rewrite Hidx, (paragraphText_length ls heading). reflexivity.
  - rewrite <- paragraphText_snoc, splitLines_paragraph;
      [|by apply Forall_app; split; [|constructor] | done].
    rewrite <- app_assoc.
    destruct (scanLines_plain_prefix ls (ls ++ [heading] ++ [[]])
                ([heading] ++ [[]]) 0 initialScan [] Hls eq_refl eq_refl)
      as (st' & -> & Hc & Hl & Hlast & Hidx); [by left|].
    cbn [app scanLines]. rewrite scanLine_heading by (done || (cbn; lia)).
    rewrite scanLine_blank by (done || (cbn; lia)).
    cbn [app]. rewrite Hidx, (paragraphText_length ls heading). reflexivity.
Qed.

Lemma heading_line_flushed_witness :
  detectBlockBoundaries (js "Some text\n## Sec") = [16] /\
  detectBlockBoundaries (js "Some text\n## Sec\n") = [16].
Proof.
  apply (heading_line_flushed [js "Some text"] (js "## Sec")).
  - repeat constructor.
  - reflexivity.
  - reflexivity.
Defined.

(* ================================================================== *)
(** ** Further properties of the update handler *)
(* ================================================================== *)

Section UpdateFacts.

Variables marked sanitizeAllowList sanitize : jsstring -> completion.

#[local] Abbreviation processAccumulatedContent :=
  (processAccumulatedContent marked sanitizeAllowList sanitize).
#[local] Abbreviation handleContentUpdate :=
  (handleContentUpdate marked sanitizeAllowList sanitize).
#[local] Abbreviation handleCompleted :=
  (handleCompleted marked sanitizeAllowList sanitize).

(** X12: the handler keeps track of the stream.  When the state follows
    the content delivered before and the new content extends it, or when
    the new content is shorter than the cursor (a restart), then after the
    handler has returned the state follows the new content: the cursor is
    its length and the buffer is its end, so that no code unit of the
    stream is buffered twice or skipped. *)
Theorem buffer_follows_content (st st' : State) (content : jsstring) :
  content <> [] ->
  (strlen content < processedLength st) \/
  (exists old delta, content = old ++ delta /\ follows st old) ->
  handleContentUpdate st (Some content) = Returned st' ->
  follows st' content.
Proof.
  intros Hne Hcase. unfold Component.handleContentUpdate.
  assert (isEmpty content = false) as -> by (by destruct content).
  destruct Hcase as [Hshort|(old & delta & -> & Hcur & flushed & Hold)].
  - apply Z.ltb_lt in Hshort. rewrite Hshort.
    change (processedLength initialState) with 0. rewrite substringFrom_zero.
    assert (isEmpty content = false) as -> by (by destruct content).
    cbn [negb].
    destruct (processAccumulatedContent _) as [st2|st2] eqn:Hrun; [|done].
    intros [= <-].
    apply processAccumulatedContent_buffer in Hrun as [[fl Hfl] _].
    cbn [accumulatedMarkdown setAccumulated initialState app] in Hfl.
    split; [done|]. by exists fl.
  - assert ((strlen (old ++ delta) <? processedLength st) = false) as ->.
    { apply Z.ltb_ge. rewrite Hcur. unfold strlen. rewrite length_app. lia. }
    assert (substringFrom (old ++ delta) (processedLength st) = delta) as ->
      by (rewrite Hcur; apply substringFrom_app).
    destruct delta as [|d delta].
    + cbn [isEmpty negb]. intros [= <-]. split; [done|].
      exists flushed. cbn [accumulatedMarkdown setProcessedLength].
      by rewrite app_nil_r.
    + cbn [isEmpty negb].
      destruct (processAccumulatedContent _) as [st2|st2] eqn:Hrun; [|done].
      intros [= <-].
      apply processAccumulatedContent_buffer in Hrun as [[fl Hfl] _].
      cbn [accumulatedMarkdown setAccumulated] in Hfl.
      split; [done|]. exists (flushed ++ fl).
      cbn [accumulatedMarkdown setProcessedLength].
      rewrite <- app_assoc, <- Hfl, app_assoc, <- Hold. reflexivity.
Qed.

End UpdateFacts.

Lemma buffer_follows_content_witness :
  follows (mkState [mkBlock (js "md-block-0") (js "# Title\n")] 13 1 (js "Hello"))
    (js "# Title\nHello").
Proof.
  apply (buffer_follows_content echo echo echo
           (mkState [mkBlock (js "md-block-0") (js "# Title\n")] 11 1 (js "Hel"))
           _ (js "# Title\nHello")).
  - discriminate.
  - right. exists (js "# Title\nHel"), (js "lo"). split; [reflexivity|].
    split; [reflexivity|]. by exists (js "# Title\n").
  - vm_compute. reflexivity.
Defined.

(* ================================================================== *)
(** ** The splitter on nested top-level elements *)
(* ================================================================== *)


Lemma splitLoop_from fuel html i stack cbs blocks :
  strlen html - i <= Z.of_nat fuel ->
  splitLoop fuel html i stack cbs blocks = splitFrom html i stack cbs blocks.
Proof.
  intros Hfuel. unfold splitFrom.
  replace fuel
    with (Z.to_nat (strlen html - i) + (fuel - Z.to_nat (strlen html - i)))%nat
    at 1 by lia.
  apply splitLoop_fuel. lia.
Qed.

Lemma splitFrom_end html i stack cbs blocks :
  strlen html <= i -> splitFrom html i stack cbs blocks = (cbs, blocks).
Proof.
  intros Hi. unfold splitFrom.
  replace (Z.to_nat (strlen html - i)) with 0%nat by lia. reflexivity.
Qed.

(** One turn of the loop. *)
Lemma splitFrom_step html i stack cbs blocks :
  i < strlen html ->
  splitFrom html i stack cbs blocks
  = if charIs html i 60 && negb (charIs html (i + 1) 47)
       && negb (charIs html (i + 1) 33) then
      match processStartTag html i stack cbs blocks topLevelBlockElements with
      | (Some r, stack1, blocks1) =>
          splitFrom html (nextIndex r) stack1 (startOf r) blocks1
      | (None, stack1, blocks1) => splitFrom html (i + 1) stack1 cbs blocks1
      end
    else if charIs html i 60 && charIs html (i + 1) 47 then
      match processCloseTag html i stack cbs blocks topLevelBlockElements with
      | (Some c, stack1, blocks1) => splitFrom html (i + 1) stack1 c blocks1
      | (None, stack1, blocks1) => splitFrom html (i + 1) stack1 cbs blocks1
      end
    else splitFrom html (i + 1) stack cbs blocks.
Proof.
  intros Hi. unfold splitFrom at 1.
  destruct (Z.to_nat (strlen html - i)) as [|fuel] eqn:Hfuel; [lia|].
  cbn [splitLoop]. destruct (Z.ltb_spec i (strlen html)); [|lia]. cbn [negb].
  destruct (_ && _ && _).
  - destruct (processStartTag _ _ _ _ _ _) as [[[r|] stack1] blocks1] eqn:Hp.
    + apply processStartTag_advances in Hp. apply splitLoop_from. lia.
    + apply splitLoop_from. lia.
  - destruct (_ && _).
    + destruct (processCloseTag _ _ _ _ _ _) as [[[c|] stack1] blocks1];
        apply splitLoop_from; lia.
    + apply splitLoop_from. lia.
Qed.

Lemma splitIntoCompleteBlocks_from html :
  splitIntoCompleteBlocks html
  = if isEmpty html || isEmpty (trim html) then []
    else let '(currentBlockStart, blocks) := splitFrom html 0 [] (-1) [] in
         processLastBlock html currentBlockStart blocks.
Proof.
  unfold splitIntoCompleteBlocks, splitFrom.
  replace (Z.to_nat (strlen html - 0)) with (length html)
    by (unfold strlen; lia).
  reflexivity.
Qed.

(** The code units at an offset given by a prefix. *)
Lemma substringFrom_at html pre rest i :
  html = pre ++ rest -> i = strlen pre -> substringFrom html i = rest.
Proof. intros -> ->. apply substringFrom_app. Qed.

Lemma charIs_at html pre d rest i c :
  html = pre ++ d :: rest -> i = strlen pre -> charIs html i c = (d =? c)%N.
Proof.
  intros -> ->. unfold strlen. rewrite charIs_nat.
  by rewrite lookup_app_r, Nat.sub_diag by lia.
Qed.

Lemma charIs_next html pre d e rest i c :
  html = pre ++ d :: e :: rest -> i = strlen pre ->
  charIs html (i + 1) c = (e =? c)%N.
Proof.
  intros -> ->. unfold strlen.
  replace (Z.of_nat (length pre) + 1) with (Z.of_nat (length pre + 1)) by lia.
  rewrite charIs_nat, lookup_app_r by lia.
  by replace (length pre + 1 - length pre)%nat with 1%nat by lia.
Qed.

Lemma substring_at html pre mid post a b :
  html = pre ++ mid ++ post -> a = strlen pre -> b = strlen pre + strlen mid ->
  substring html a b = mid.
Proof. intros -> -> ->. apply substring_middle. Qed.

(** A run of code units other than [<]. *)
Lemma splitFrom_skip html pre text post i j stack cbs blocks :
  html = pre ++ text ++ post -> ~ In 60%N text ->
  i = strlen pre -> j = strlen pre + strlen text ->
  splitFrom html i stack cbs blocks = splitFrom html j stack cbs blocks.
Proof.
  intros Hhtml Hno -> ->. revert pre Hhtml.
  induction text as [|d text IH]; intros pre Hhtml.
  - f_equal. unfold strlen. cbn. lia.
  - assert (Hd : d <> 60%N) by (intros ->; apply Hno; by left).
    rewrite splitFrom_step
      by (rewrite Hhtml; unfold strlen; rewrite !length_app; cbn; lia).
    rewrite (charIs_at html pre d (text ++ post) _ 60 Hhtml eq_refl).
    destruct (N.eqb_spec d 60) as [?|_]; [done|]. cbn [andb].
    replace (strlen pre + 1) with (strlen (pre ++ [d]))
      by (unfold strlen; rewrite length_app; cbn; lia).
    replace (strlen pre + strlen (d :: text))
      with (strlen (pre ++ [d]) + strlen text)
      by (unfold strlen; rewrite length_app; cbn; lia).
    apply IH; [by intros H; apply Hno; right | by rewrite <- app_assoc].
Qed.

Ltac js_lengths :=
  repeat match goal with
         | |- context [length (js ?s)] =>
             let n := eval vm_compute in (length (js s)) in
             change (length (js s)) with n
         end.

Ltac solve_index := unfold strlen; rewrite ?length_app; js_lengths; cbn [length]; lia.

Lemma lastNamed_nonempty tagName stack j :
  lastNamed tagName stack = Some j -> isEmpty stack = false.
Proof. by destruct stack. Qed.

Lemma startTagMatch_head s m :
  startTagMatch s = Some m ->
  exists c rest, s = 60%N :: c :: rest /\ isWordChar c = true.
Proof.
  destruct s as [|a r]; [done|].
  destruct (N.eq_dec a 60%N) as [->|Hne].
  - destruct r as [|c r]; [done|]. unfold startTagMatch. cbn [takeWhile].
    destruct (isWordChar c) eqn:Hc; [by exists c, r | done].
  - intros Hm. exfalso. destruct a as [|p]; [done|].
    do 6 (destruct p as [p|p|]; try done).
Qed.

Lemma closeTagMatch_head s m :
  closeTagMatch s = Some m -> exists rest, s = 60%N :: 47%N :: rest.
Proof.
  destruct s as [|a r]; [done|]. destruct r as [|b r].
  { intros Hm. exfalso. destruct a as [|p]; [done|].
    do 6 (destruct p as [p|p|]; try done). }
  destruct (N.eq_dec a 60%N) as [->|Hne].
  - destruct (N.eq_dec b 47%N) as [->|Hne]; [by exists r|].
    intros Hm. exfalso. destruct b as [|p]; [done|].
    do 6 (destruct p as [p|p|]; try done).
  - intros Hm. exfalso. destruct a as [|p]; [done|].
    do 6 (destruct p as [p|p|]; try done).
Qed.

(** The opening tag of a top-level element that is not self-closing. *)
Lemma splitFrom_open html pre tag tagName post i stack cbs blocks :
  html = pre ++ tag ++ post -> i = strlen pre ->
  startTagMatch (tag ++ post) = Some (tag, tagName) ->
  includes topLevelBlockElements (toLowerCase tagName) = true ->
  endsWith tag (js "/>") || isSelfClosingTag (toLowerCase tagName) = false ->
  splitFrom html i stack cbs blocks
  = splitFrom html (i + 1) (stack ++ [mkEntry (toLowerCase tagName) i]) i
      (pushPrevBlock html i cbs blocks).
Proof.
  intros Hhtml Hi Hm Htop Hself.
  destruct (startTagMatch_head _ _ Hm) as (c & rest & Hrest & Hc).
  assert (Hlt : i < strlen html).
  { rewrite Hhtml, Hi. unfold strlen. rewrite length_app, Hrest. cbn. lia. }
  pose proof Hhtml as Hcode. rewrite Hrest in Hcode.
  rewrite splitFrom_step by done.
  rewrite (charIs_at html pre _ _ i 60 Hcode Hi).
  rewrite (charIs_next html pre _ _ _ i 47 Hcode Hi).
  rewrite (charIs_next html pre _ _ _ i 33 Hcode Hi).
  assert ((c =? 47)%N = false) as ->
    by (destruct (N.eqb_spec c 47) as [->|]; done).
  assert ((c =? 33)%N = false) as ->
    by (destruct (N.eqb_spec c 33) as [->|]; done).
  cbn [N.eqb Pos.eqb negb andb].
  unfold processStartTag, handleNonSelfClosingBlock.
  rewrite (substringFrom_at html pre _ i Hhtml Hi), Hm.
  cbn zeta. cbn [fst snd]. rewrite Htop, Hself. reflexivity.
Qed.

(** A closing tag whose opening tag is on the stack. *)
Lemma splitFrom_close html pre tag tagName post i stack cbs blocks j :
  html = pre ++ tag ++ post -> i = strlen pre ->
  closeTagMatch (tag ++ post) = Some (tag, tagName) ->
  lastNamed (toLowerCase tagName) stack = Some j ->
  splitFrom html i stack cbs blocks
  = if isEmpty (take j stack) && (0 <=? cbs)
       && includes topLevelBlockElements (toLowerCase tagName)
    then splitFrom html (i + 1) (take j stack) (-1)
           (blocks ++ [substring html cbs (i + strlen tag)])
    else splitFrom html (i + 1) (take j stack) cbs blocks.
Proof.
  intros Hhtml Hi Hm Hj.
  destruct (closeTagMatch_head _ _ Hm) as (rest & Hrest).
  assert (Hlt : i < strlen html).
  { rewrite Hhtml, Hi. unfold strlen. rewrite length_app, Hrest. cbn. lia. }
  pose proof Hhtml as Hcode. rewrite Hrest in Hcode.
  rewrite splitFrom_step by done.
  rewrite (charIs_at html pre _ _ i 60 Hcode Hi).
  rewrite (charIs_next html pre _ _ _ i 47 Hcode Hi).
  cbn [N.eqb Pos.eqb negb andb].
  unfold processCloseTag.
  rewrite (substringFrom_at html pre _ i Hhtml Hi), Hm.
  rewrite (lastNamed_nonempty _ _ _ Hj). cbn zeta. cbn [fst snd]. rewrite Hj.
  by destruct (_ && _ && _).
Qed.


Lemma blank_no_bracket w : forallb isWhiteSpace w = true -> ~ In 60%N w.
Proof.
  intros Hw Hin. rewrite forallb_forall in Hw. by apply Hw in Hin.
Qed.

Lemma no_bracket_app (a b : jsstring) :
  ~ In 60%N a -> ~ In 60%N b -> ~ In 60%N (a ++ b).
Proof. intros Ha Hb [?|?]%in_app_or; auto. Qed.

Lemma quotedParagraph_split w1 inner w2 w3 :
  forallb isWhiteSpace w1 = true -> forallb isWhiteSpace w2 = true ->
  forallb isWhiteSpace w3 = true -> ~ In 60%N inner ->
  splitIntoCompleteBlocks (quotedParagraph w1 inner w2 w3)
  = [js "<blockquote>";
     js "<p>" ++ inner ++ js "</p>" ++ w2 ++ js "</blockquote>"].
Proof.
  intros Hw1 Hw2 Hw3 Hinner.
  pose proof (blank_no_bracket _ Hw1) as Hn1.
  pose proof (blank_no_bracket _ Hw2) as Hn2.
  pose proof (blank_no_bracket _ Hw3) as Hn3.
  set (html := quotedParagraph w1 inner w2 w3).
  rewrite splitIntoCompleteBlocks_from. fold html.
  assert (isEmpty html = false) as -> by reflexivity.
  rewrite (trim_nonblank html 60%N); [|by left|done].
  cbn [orb].
  (* the opening tag of the blockquote *)
  rewrite (splitFrom_open html [] (js "<blockquote>") (js "blockquote")
             (w1 ++ js "<p>" ++ inner ++ js "</p>" ++ w2 ++ js "</blockquote>" ++ w3)
             0 [] (-1) []); [|reflexivity..].
  change (pushPrevBlock html 0 (-1) []) with (@nil jsstring).
  cbn [app].
  (* the rest of the tag and the white space *)
  rewrite (splitFrom_skip html [60%N] (js "blockquote>" ++ w1)
             (js "<p>" ++ inner ++ js "</p>" ++ w2 ++ js "</blockquote>" ++ w3)
             (0 + 1) (strlen (js "<blockquote>" ++ w1))).
  2: { subst html. unfold quotedParagraph. by rewrite <- !app_assoc. }
  2: { apply no_bracket_app; [|done]. vm_compute. intuition discriminate. }
  2, 3: solve_index.
  (* the opening tag of the paragraph *)
  rewrite (splitFrom_open html (js "<blockquote>" ++ w1) (js "<p>") (js "p")
             (inner ++ js "</p>" ++ w2 ++ js "</blockquote>" ++ w3)).
  2: { subst html. unfold quotedParagraph. by rewrite <- !app_assoc. }
  2-5: reflexivity.
  assert (pushPrevBlock html (strlen (js "<blockquote>" ++ w1)) 0 []
          = [js "<blockquote>"]) as ->.
  { unfold pushPrevBlock.
    assert ((0 <=? 0) && (0 <? strlen (js "<blockquote>" ++ w1)) = true) as ->
      by (apply andb_true_iff; split; [done | apply Z.ltb_lt; solve_index]).
    rewrite (substring_at html [] (js "<blockquote>" ++ w1)
               (js "<p>" ++ inner ++ js "</p>" ++ w2 ++ js "</blockquote>" ++ w3));
      [| subst html; unfold quotedParagraph; by rewrite <- !app_assoc
       | reflexivity | solve_index].
    by rewrite (trim_core (js "<blockquote>") w1 60%N 62%N). }
  change (toLowerCase (js "blockquote")) with (js "blockquote").
  change (toLowerCase (js "p")) with (js "p").
  (* the rest of the tag and the inner content *)
  rewrite (splitFrom_skip html (js "<blockquote>" ++ w1 ++ [60%N])
             (js "p>" ++ inner) (js "</p>" ++ w2 ++ js "</blockquote>" ++ w3)
             _ (strlen (js "<blockquote>" ++ w1 ++ js "<p>" ++ inner))).
  2: { subst html. unfold quotedParagraph. by rewrite <- !app_assoc. }
  2: { apply no_bracket_app; [|done]. vm_compute. intuition discriminate. }
  2, 3: solve_index.
  (* the closing tag of the paragraph *)
  rewrite (splitFrom_close html (js "<blockquote>" ++ w1 ++ js "<p>" ++ inner)
             (js "</p>") (js "p") (w2 ++ js "</blockquote>" ++ w3) _ _ _ _ 1%nat).
  2: { subst html. unfold quotedParagraph. by rewrite <- !app_assoc. }
  2-4: reflexivity.
  cbn [app take isEmpty andb].
  (* the rest of the tag and the white space *)
  rewrite (splitFrom_skip html (js "<blockquote>" ++ w1 ++ js "<p>" ++ inner ++ [60%N])
             (js "/p>" ++ w2) (js "</blockquote>" ++ w3)
             _ (strlen (js "<blockquote>" ++ w1 ++ js "<p>" ++ inner ++ js "</p>" ++ w2))).
  2: { subst html. unfold quotedParagraph. by rewrite <- !app_assoc. }
  2: { apply no_bracket_app; [|done]. vm_compute. intuition discriminate. }
  2, 3: solve_index.
  (* the closing tag of the blockquote *)
  rewrite (splitFrom_close html
             (js "<blockquote>" ++ w1 ++ js "<p>" ++ inner ++ js "</p>" ++ w2)
             (js "</blockquote>") (js "blockquote") w3 _ _ _ _ 0%nat).
  2: { subst html. unfold quotedParagraph. by rewrite <- !app_assoc. }
  2-4: reflexivity.
  cbn [app take isEmpty andb].
  assert ((0 <=? strlen (js "<blockquote>" ++ w1)) = true) as ->
    by (apply Z.leb_le; solve_index).
  change (includes topLevelBlockElements (toLowerCase (js "blockquote"))) with true.
  cbn [andb].
  rewrite (substring_at html (js "<blockquote>" ++ w1)
             (js "<p>" ++ inner ++ js "</p>" ++ w2 ++ js "</blockquote>") w3);
    [| subst html; unfold quotedParagraph; by rewrite <- !app_assoc
     | reflexivity | solve_index].
  (* the rest of the tag and the white space after it *)
  rewrite (splitFrom_skip html
             (js "<blockquote>" ++ w1 ++ js "<p>" ++ inner ++ js "</p>" ++ w2 ++ [60%N])
             (js "/blockquote>" ++ w3) [] _ (strlen html)).
  2: { subst html. unfold quotedParagraph. by rewrite <- !app_assoc, app_nil_r. }
  2: { apply no_bracket_app; [|done]. vm_compute. intuition discriminate. }
  2, 3: subst html; unfold quotedParagraph; solve_index.
  rewrite splitFrom_end by lia. reflexivity.
Qed.

Lemma stripPrefix_length ci pat : forall s r,
  stripPrefix ci pat s = Some r ->
  exists m, s = m ++ r /\ length m = length pat.
Proof.
  induction pat as [|p pat IH]; intros s r; simpl.
  - intros [= ->]. by exists [].
  - destruct s as [|c s]; [done|]. destruct (charEq ci p c); [|done].
    intros (m & -> & Hm)%IH. exists (c :: m). split; [done | by rewrite <- Hm].
Qed.

(** Removing a closing tag at the end removes exactly the last closing tag
    and the white space after it. *)
Lemma cut_closing_tag ci tagName x w :
  forallb isWhiteSpace w = true ->
  cutAtSuffix (closeTagToEnd ci [tagName])
    (x ++ (js "</" ++ tagName ++ js ">") ++ w) = x.
Proof.
  intros Hw. apply cutAtSuffix_app.
  - unfold closeTagToEnd. cbn [closeTag]. by rewrite stripPrefix_app.
  - intros x1 c x2 ->.
    destruct (closeTagToEnd ci [tagName] _) eqn:Hc; [|done].
    exfalso. unfold closeTagToEnd in Hc. cbn [closeTag] in Hc.
    destruct (stripPrefix ci (js "</" ++ tagName ++ js ">") _) as [r|] eqn:Hs;
      [|done].
    apply stripPrefix_length in Hs as (m & Hs & Hm).
    (* the closing bracket of the tag at the end lies in [r] *)
    set (pat := js "</" ++ tagName ++ js ">") in *.
    assert (Hgt : (c :: x2 ++ pat ++ w) !! (S (length x2) + (length pat - 1))%nat
                  = Some 62%N).
    { change (c :: x2 ++ pat ++ w) with ((c :: x2) ++ pat ++ w).
      rewrite lookup_app_r by (cbn; lia).
      replace (S (length x2) + (length pat - 1) - length (c :: x2))%nat
        with (length pat - 1)%nat by (cbn; lia).
      rewrite lookup_app_l
        by (subst pat; rewrite !length_app; cbn; lia).
      subst pat. rewrite app_assoc, lookup_app_r by (rewrite !length_app; cbn; lia).
      by replace (length ((js "</" ++ tagName) ++ js ">") - 1
                  - length (js "</" ++ tagName))%nat with 0%nat
        by (rewrite !length_app; cbn; lia). }
    rewrite Hs, lookup_app_r in Hgt by lia.
    apply list_elem_of_lookup_2, list_elem_of_In in Hgt.
    rewrite forallb_forall in Hc. by apply Hc in Hgt.
Qed.

Lemma pushBlock_assignLast st a b :
  assignLast (pushBlock st a) (mkBlock (blockId (blockCounter st)) b)
  = pushBlock st b.
Proof.
  unfold assignLast, pushBlock. cbn [renderBlocks processedLength blockCounter
    accumulatedMarkdown]. f_equal.
  rewrite length_app. cbn [length].
  replace (length (renderBlocks st) + 1 - 1)%nat
    with (length (renderBlocks st) + 0)%nat by lia.
  by rewrite insert_app_r.
Qed.

(** X13: a blockquote that holds one paragraph, as the converter writes
    it, is cut in two by splitIntoCompleteBlocks: at the opening tag of the
    paragraph the block of the blockquote is still open, and the text
    before the tag is pushed as a block of its own.  The store then puts
    the two halves together again: the opening tag alone is an open
    blockquote, the second half merges into it, and one block is stored,
    the blockquote without the white space after its opening tag. *)
Theorem quote_split_and_reassembled (st : State) (w1 inner w2 w3 : jsstring) :
  forallb isWhiteSpace w1 = true -> forallb isWhiteSpace w2 = true ->
  forallb isWhiteSpace w3 = true -> ~ In 60%N inner ->
  (forall lastBlock, last (renderBlocks st) = Some lastBlock ->
     shouldMergeBlocks (html lastBlock) (js "<blockquote>") = false) ->
  splitIntoCompleteBlocks (quotedParagraph w1 inner w2 w3)
  = [js "<blockquote>";
     js "<p>" ++ inner ++ js "</p>" ++ w2 ++ js "</blockquote>"] /\
  fold_left appendBlock
    (splitIntoCompleteBlocks (quotedParagraph w1 inner w2 w3)) st
  = pushBlock st (quotedParagraph [] inner w2 []).
Proof.
  intros Hw1 Hw2 Hw3 Hinner Hlast.
  rewrite quotedParagraph_split by done. split; [done|].
  cbn [fold_left].
  set (quote := js "<p>" ++ inner ++ js "</p>" ++ w2 ++ js "</blockquote>").
  assert (Hfirst : appendBlock st (js "<blockquote>")
                   = pushBlock st (js "<blockquote>")).
  { unfold appendBlock.
    assert (isEmpty (trim (js "<blockquote>")) = false) as -> by reflexivity.
    destruct (last (renderBlocks st)) as [lastBlock|] eqn:Hl; [|done].
    by rewrite (Hlast lastBlock). }
  rewrite Hfirst.
  assert (Htrim : trim quote = quote).
  { pose proof (trim_core quote [] 60%N 62%N) as Hcore.
    rewrite app_nil_r in Hcore. apply Hcore; try done.
    subst quote. rewrite !app_assoc. by rewrite last_app. }
  assert (Hshould : shouldMergeBlocks (js "<blockquote>") quote = true).
  { unfold shouldMergeBlocks.
    assert (isEmpty (js "<blockquote>") || isEmpty quote = false) as ->
      by reflexivity.
    assert (isParagraphBlock (js "<blockquote>") = false) as ->
      by (vm_compute; reflexivity).
    assert (isIncompleteList (js "<blockquote>") = false) as ->
      by (vm_compute; reflexivity).
    assert (isIncompleteTable (js "<blockquote>") = false) as ->
      by (vm_compute; reflexivity).
    assert (isIncompleteBlockquote (js "<blockquote>") = true) as ->
      by (vm_compute; reflexivity).
    cbn [andb]. unfold isBlockquoteContent.
    assert (isEmpty quote = false) as -> by reflexivity.
    rewrite Htrim. reflexivity. }
  assert (Hmerge : mergeBlocks (mkBlock (blockId (blockCounter st)) (js "<blockquote>"))
                     quote
                   = Some (mkBlock (blockId (blockCounter st))
                             (quotedParagraph [] inner w2 []))).
  { unfold mergeBlocks. cbn [html id].
    assert (isParagraphBlock (js "<blockquote>") = false) as ->
      by (vm_compute; reflexivity).
    assert (isIncompleteList (js "<blockquote>") = false) as ->
      by (vm_compute; reflexivity).
    assert (isIncompleteTable (js "<blockquote>") = false) as ->
      by (vm_compute; reflexivity).
    assert (isIncompleteBlockquote (js "<blockquote>") = true) as ->
      by (vm_compute; reflexivity).
    cbn [andb].
    assert (cutAtSuffix (closeTagToEnd true [js "blockquote"]) (js "<blockquote>")
            = js "<blockquote>") as -> by (vm_compute; reflexivity).
    assert (dropOpening true (js "blockquote") quote = quote) as -> by reflexivity.
    assert (cutAtSuffix (closeTagToEnd true [js "blockquote"]) quote
            = js "<p>" ++ inner ++ js "</p>" ++ w2) as ->.
    { subst quote.
      replace (js "<p>" ++ inner ++ js "</p>" ++ w2 ++ js "</blockquote>")
        with ((js "<p>" ++ inner ++ js "</p>" ++ w2)
              ++ (js "</" ++ js "blockquote" ++ js ">") ++ [])
        by (rewrite <- !app_assoc; by rewrite app_nil_r).
      by apply cut_closing_tag. }
    unfold quotedParagraph. do 2 f_equal.
    by rewrite <- !app_assoc, app_nil_r. }
  unfold appendBlock.
  rewrite (trim_nonblank quote 60%N); [|by left|done].
  assert (last (renderBlocks (pushBlock st (js "<blockquote>")))
          = Some (mkBlock (blockId (blockCounter st)) (js "<blockquote>"))) as ->
    by (unfold pushBlock; cbn [renderBlocks]; apply last_snoc).
  cbn [html]. rewrite Hshould.
  assert (containsImage (js "<blockquote>") = false) as ->
    by (vm_compute; reflexivity).
  rewrite Hmerge. apply pushBlock_assignLast.
Qed.

Lemma quote_split_and_reassembled_witness :
  splitIntoCompleteBlocks (js "<blockquote>\n<p>Hi</p>\n</blockquote>\n")
  = [js "<blockquote>"; js "<p>Hi</p>\n</blockquote>"] /\
  fold_left appendBlock
    (splitIntoCompleteBlocks (js "<blockquote>\n<p>Hi</p>\n</blockquote>\n"))
    initialState
  = pushBlock initialState (js "<blockquote><p>Hi</p>\n</blockquote>").
Proof.
  apply (quote_split_and_reassembled initialState (js "\n") (js "Hi") (js "\n")
           (js "\n")).
  - reflexivity.
  - reflexivity.
  - reflexivity.
  - vm_compute. intuition discriminate.
  - intros lastBlock Hl. vm_compute in Hl. discriminate.
Defined.

(** The opening tag of an element that is not top-level, inside an open
    element. *)
Lemma splitFrom_open_inner html pre tag tagName post i stack cbs blocks :
  html = pre ++ tag ++ post -> i = strlen pre ->
  startTagMatch (tag ++ post) = Some (tag, tagName) ->
  includes topLevelBlockElements (toLowerCase tagName) = false ->
  endsWith tag (js "/>") || isSelfClosingTag (toLowerCase tagName) = false ->
  isEmpty stack = false ->
  splitFrom html i stack cbs blocks
  = splitFrom html (i + 1) (stack ++ [mkEntry (toLowerCase tagName) i]) cbs blocks.
Proof.
  intros Hhtml Hi Hm Htop Hself Hstack.
  destruct (startTagMatch_head _ _ Hm) as (c & rest & Hrest & Hc).
  assert (Hlt : i < strlen html).
  { rewrite Hhtml, Hi. unfold strlen. rewrite length_app, Hrest. cbn. lia. }
  pose proof Hhtml as Hcode. rewrite Hrest in Hcode.
  rewrite splitFrom_step by done.
  rewrite (charIs_at html pre _ _ i 60 Hcode Hi).
  rewrite (charIs_next html pre _ _ _ i 47 Hcode Hi).
  rewrite (charIs_next html pre _ _ _ i 33 Hcode Hi).
  assert ((c =? 47)%N = false) as ->
    by (destruct (N.eqb_spec c 47) as [->|]; done).
  assert ((c =? 33)%N = false) as ->
    by (destruct (N.eqb_spec c 33) as [->|]; done).
  cbn [N.eqb Pos.eqb negb andb].
  unfold processStartTag.
  rewrite (substringFrom_at html pre _ i Hhtml Hi), Hm.
  cbn zeta. cbn [fst snd]. rewrite Htop, Hself, Hstack. reflexivity.
Qed.

Lemma charEq_bracket ci c : charEq ci 60 c = true -> c = 60%N.
Proof.
  unfold charEq, lowerChar. destruct ci.
  - change ((65 <=? 60)%N && (60 <=? 90)%N) with false. cbn match.
    destruct ((65 <=? c)%N && (c <=? 90)%N) eqn:Hup.
    + apply andb_true_iff in Hup as [H1%N.leb_le H2%N.leb_le].
      intros H%N.eqb_eq. lia.
    + by intros H%N.eqb_eq.
  - by intros H%N.eqb_eq.
Qed.

(** White space holds the start of no tag. *)
Lemma existsSuffix_blank f w rest :
  forallb isWhiteSpace w = true ->
  (forall c t, isWhiteSpace c = true -> f (c :: t) = false) ->
  existsSuffix f (w ++ rest) = existsSuffix f rest.
Proof.
  intros Hw Hf. induction w as [|c w IH]; [done|].
  cbn [forallb] in Hw. apply andb_true_iff in Hw as [Hc Hw].
  cbn [app existsSuffix]. rewrite (Hf c _ Hc). cbn [orb]. by apply IH.
Qed.

Lemma closeTag_blank ci names c t :
  isWhiteSpace c = true -> closeTag ci names (c :: t) = None.
Proof.
  intros Hc. induction names as [|n names IH]; [done|].
  cbn [closeTag]. change (js "</" ++ n ++ js ">") with (60%N :: 47%N :: n ++ js ">").
  cbn [stripPrefix]. destruct (charEq ci 60 c) eqn:He; [|done].
  apply charEq_bracket in He. by subst c.
Qed.

Lemma openTag_blank ci names c t :
  isWhiteSpace c = true -> openTag ci names (c :: t) = None.
Proof.
  intros Hc. induction names as [|n names IH]; [done|].
  cbn [openTag stripPrefix]. destruct (charEq ci 60 c) eqn:He; [|done].
  apply charEq_bracket in He. by subst c.
Qed.

(** The first half of a loose list is an open list. *)
Lemma open_list_head w1 :
  forallb isWhiteSpace w1 = true ->
  isIncompleteList (js "<ul>" ++ w1 ++ js "<li>") = true /\
  isParagraphBlock (js "<ul>" ++ w1 ++ js "<li>") = false /\
  containsImage (js "<ul>" ++ w1 ++ js "<li>") = false.
Proof.
  intros Hw.
  assert (Htrim : trim (js "<ul>" ++ w1 ++ js "<li>") = js "<ul>" ++ w1 ++ js "<li>").
  { pose proof (trim_core (js "<ul>" ++ w1 ++ js "<li>") [] 60%N 62%N) as Hcore.
    rewrite app_nil_r in Hcore. apply Hcore; try done.
    rewrite !app_assoc. by rewrite last_app. }
  split; [|split].
  - unfold isIncompleteList.
    assert (isEmpty (js "<ul>" ++ w1 ++ js "<li>") = false) as -> by reflexivity.
    rewrite Htrim. apply andb_true_iff. split; [reflexivity|].
    apply negb_true_iff.
    change (js "<ul>" ++ w1 ++ js "<li>")
      with (60%N :: 117%N :: 108%N :: 62%N :: w1 ++ js "<li>").
    cbn [existsSuffix].
    rewrite existsSuffix_blank;
      [reflexivity | done | by intros c t Hc; rewrite closeTag_blank].
  - unfold isParagraphBlock.
    assert (isEmpty (js "<ul>" ++ w1 ++ js "<li>") = false) as -> by reflexivity.
    rewrite Htrim. reflexivity.
  - unfold containsImage.
    assert (isEmpty (js "<ul>" ++ w1 ++ js "<li>") = false) as -> by reflexivity.
    change (js "<ul>" ++ w1 ++ js "<li>")
      with (60%N :: 117%N :: 108%N :: 62%N :: w1 ++ js "<li>").
    cbn [existsSuffix].
    rewrite existsSuffix_blank; [reflexivity | done |].
    intros c t Hc. cbn [js stripPrefix].
    destruct (charEq true _ c) eqn:He; [|done].
    apply charEq_bracket in He. by subst c.
Qed.

(** The second half of a loose list is neither a list item, nor a list,
    nor a paragraph block. *)
Lemma loose_list_tail inner w3 w4 :
  let tail := js "<p>" ++ inner ++ js "</p>" ++ w3 ++ js "</li>" ++ w4 ++ js "</ul>" in
  isListItemBlock tail = false /\ isListBlock tail = false /\
  isParagraphBlock tail = false.
Proof.
  intros tail.
  assert (Htrim : trim tail = tail).
  { pose proof (trim_core tail [] 60%N 62%N) as Hcore.
    rewrite app_nil_r in Hcore. apply Hcore; try done.
    subst tail. rewrite !app_assoc. by rewrite last_app. }
  split; [|split].
  - unfold isListItemBlock.
    assert (isEmpty tail = false) as -> by reflexivity.
    rewrite Htrim. reflexivity.
  - unfold isListBlock.
    assert (isEmpty tail = false) as -> by reflexivity.
    rewrite Htrim. reflexivity.
  - unfold isParagraphBlock.
    assert (isEmpty tail = false) as -> by reflexivity.
    rewrite Htrim. apply andb_false_iff. right.
    destruct (existsSuffix _ tail) eqn:Hex; [|done]. exfalso.
    apply existsSuffix_true in Hex as (pre & t & Ht & Hc).
    unfold closeTagToEnd in Hc. cbn [closeTag] in Hc.
    destruct (stripPrefix false (js "</" ++ js "p" ++ js ">") t) as [r|] eqn:Hs;
      [|done].
    apply stripPrefix_exact in Hs. subst t.
    assert (Hlast : last tail = Some 62%N).
    { subst tail. rewrite !app_assoc. by rewrite last_app. }
    destruct r as [|d r] using rev_ind.
    + (* the text would end in the closing tag of a paragraph *)
      assert (Heq : (js "<p>" ++ inner ++ js "</p>" ++ w3 ++ js "</li>" ++ w4
                     ++ js "</u") ++ [108%N; 62%N]
                    = (pre ++ js "</") ++ [112%N; 62%N]).
      { rewrite <- !app_assoc. rewrite app_nil_r in Ht. exact Ht. }
      apply app_inj_2 in Heq as [_ Heq]; [|done]. discriminate.
    + clear IHr. rewrite Ht in Hlast. rewrite !app_assoc, last_snoc in Hlast.
      injection Hlast as ->. rewrite forallb_app in Hc.
      apply andb_true_iff in Hc as [_ Hc]. done.
Qed.

(** X16: a list whose item holds a paragraph is stored as two blocks that
    are no elements.  splitIntoCompleteBlocks cuts it at the opening tag
    of the paragraph: the first block is the opening tags of the list and
    of the item, the second is the paragraph with the closing tags of the
    item and of the list.  The first is an open list, but the second is
    neither a list item, nor a list, nor a paragraph block, so that
    shouldMergeBlocks refuses it and both are pushed. *)
Theorem loose_list_stored_in_two (st : State) (w1 w2 inner w3 w4 w5 : jsstring) :
  forallb isWhiteSpace w1 = true -> forallb isWhiteSpace w2 = true ->
  forallb isWhiteSpace w3 = true -> forallb isWhiteSpace w4 = true ->
  forallb isWhiteSpace w5 = true -> ~ In 60%N inner ->
  (forall lastBlock, last (renderBlocks st) = Some lastBlock ->
     shouldMergeBlocks (html lastBlock) (js "<ul>" ++ w1 ++ js "<li>") = false) ->
  let head := js "<ul>" ++ w1 ++ js "<li>" in
  let tail := js "<p>" ++ inner ++ js "</p>" ++ w3 ++ js "</li>" ++ w4 ++ js "</ul>" in
  splitIntoCompleteBlocks (looseList w1 w2 inner w3 w4 w5) = [head; tail] /\
  fold_left appendBlock
    (splitIntoCompleteBlocks (looseList w1 w2 inner w3 w4 w5)) st
  = pushBlock (pushBlock st head) tail.
Proof.
  intros Hw1 Hw2 Hw3 Hw4 Hw5 Hinner Hlast head tail.
  pose proof (blank_no_bracket _ Hw1) as Hn1.
  pose proof (blank_no_bracket _ Hw2) as Hn2.
  pose proof (blank_no_bracket _ Hw3) as Hn3.
  pose proof (blank_no_bracket _ Hw4) as Hn4.
  pose proof (blank_no_bracket _ Hw5) as Hn5.
  assert (Hsplit : splitIntoCompleteBlocks (looseList w1 w2 inner w3 w4 w5)
                   = [head; tail]).
  { set (html := looseList w1 w2 inner w3 w4 w5).
    rewrite splitIntoCompleteBlocks_from. fold html.
    assert (isEmpty html = false) as -> by reflexivity.
    rewrite (trim_nonblank html 60%N); [|by left|done].
    cbn [orb].
    (* the opening tag of the list *)
    rewrite (splitFrom_open html [] (js "<ul>") (js "ul")
               (w1 ++ js "<li>" ++ w2 ++ js "<p>" ++ inner ++ js "</p>" ++ w3
                ++ js "</li>" ++ w4 ++ js "</ul>" ++ w5)
               0 [] (-1) []); [|reflexivity..].
    change (pushPrevBlock html 0 (-1) []) with (@nil jsstring).
    cbn [app].
    rewrite (splitFrom_skip html [60%N] (js "ul>" ++ w1)
               (js "<li>" ++ w2 ++ js "<p>" ++ inner ++ js "</p>" ++ w3
                ++ js "</li>" ++ w4 ++ js "</ul>" ++ w5)
               (0 + 1) (strlen (js "<ul>" ++ w1))).
    2: { subst html. unfold looseList. by rewrite <- !app_assoc. }
    2: { apply no_bracket_app; [|done]. vm_compute. intuition discriminate. }
    2, 3: solve_index.
    (* the opening tag of the item *)
    rewrite (splitFrom_open_inner html (js "<ul>" ++ w1) (js "<li>") (js "li")
               (w2 ++ js "<p>" ++ inner ++ js "</p>" ++ w3
                ++ js "</li>" ++ w4 ++ js "</ul>" ++ w5)).
    2: { subst html. unfold looseList. by rewrite <- !app_assoc. }
    2-6: reflexivity.
    cbn [app].
    rewrite (splitFrom_skip html (js "<ul>" ++ w1 ++ [60%N]) (js "li>" ++ w2)
               (js "<p>" ++ inner ++ js "</p>" ++ w3
                ++ js "</li>" ++ w4 ++ js "</ul>" ++ w5)
               _ (strlen (js "<ul>" ++ w1 ++ js "<li>" ++ w2))).
    2: { subst html. unfold looseList. by rewrite <- !app_assoc. }
    2: { apply no_bracket_app; [|done]. vm_compute. intuition discriminate. }
    2, 3: solve_index.
    (* the opening tag of the paragraph: the list is cut here *)
    rewrite (splitFrom_open html (js "<ul>" ++ w1 ++ js "<li>" ++ w2) (js "<p>")
               (js "p")
               (inner ++ js "</p>" ++ w3 ++ js "</li>" ++ w4 ++ js "</ul>" ++ w5)).
    2: { subst html. unfold looseList. by rewrite <- !app_assoc. }
    2-5: reflexivity.
    cbn [app].
    assert (pushPrevBlock html (strlen (js "<ul>" ++ w1 ++ js "<li>" ++ w2)) 0 []
            = [head]) as ->.
    { unfold pushPrevBlock.
      assert ((0 <=? 0) && (0 <? strlen (js "<ul>" ++ w1 ++ js "<li>" ++ w2)) = true)
        as -> by (apply andb_true_iff; split; [done | apply Z.ltb_lt; solve_index]).
      rewrite (substring_at html [] (js "<ul>" ++ w1 ++ js "<li>" ++ w2)
                 (js "<p>" ++ inner ++ js "</p>" ++ w3
                  ++ js "</li>" ++ w4 ++ js "</ul>" ++ w5));
        [| subst html; unfold looseList; by rewrite <- !app_assoc
         | reflexivity | solve_index].
      replace (js "<ul>" ++ w1 ++ js "<li>" ++ w2) with (head ++ w2)
        by (subst head; by rewrite <- !app_assoc).
      rewrite (trim_core head w2 60%N 62%N); try done.
      subst head. rewrite !app_assoc. by rewrite last_app. }
    change (toLowerCase (js "ul")) with (js "ul").
    change (toLowerCase (js "li")) with (js "li").
    change (toLowerCase (js "p")) with (js "p").
    rewrite (splitFrom_skip html (js "<ul>" ++ w1 ++ js "<li>" ++ w2 ++ [60%N])
               (js "p>" ++ inner)
               (js "</p>" ++ w3 ++ js "</li>" ++ w4 ++ js "</ul>" ++ w5)
               _ (strlen (js "<ul>" ++ w1 ++ js "<li>" ++ w2 ++ js "<p>" ++ inner))).
    2: { subst html. unfold looseList. by rewrite <- !app_assoc. }
    2: { apply no_bracket_app; [|done]. vm_compute. intuition discriminate. }
    2, 3: solve_index.
    (* the closing tag of the paragraph *)
    rewrite (splitFrom_close html
               (js "<ul>" ++ w1 ++ js "<li>" ++ w2 ++ js "<p>" ++ inner)
               (js "</p>") (js "p")
               (w3 ++ js "</li>" ++ w4 ++ js "</ul>" ++ w5) _ _ _ _ 2%nat).
    2: { subst html. unfold looseList. by rewrite <- !app_assoc. }
    2-4: reflexivity.
    cbn [app take isEmpty andb].
    rewrite (splitFrom_skip html
               (js "<ul>" ++ w1 ++ js "<li>" ++ w2 ++ js "<p>" ++ inner ++ [60%N])
               (js "/p>" ++ w3) (js "</li>" ++ w4 ++ js "</ul>" ++ w5)
               _ (strlen (js "<ul>" ++ w1 ++ js "<li>" ++ w2 ++ js "<p>" ++ inner
                          ++ js "</p>" ++ w3))).
    2: { subst html. unfold looseList. by rewrite <- !app_assoc. }
    2: { apply no_bracket_app; [|done]. vm_compute. intuition discriminate. }
    2, 3: solve_index.
    (* the closing tag of the item *)
    rewrite (splitFrom_close html
               (js "<ul>" ++ w1 ++ js "<li>" ++ w2 ++ js "<p>" ++ inner
                ++ js "</p>" ++ w3)
               (js "</li>") (js "li") (w4 ++ js "</ul>" ++ w5) _ _ _ _ 1%nat).
    2: { subst html. unfold looseList. by rewrite <- !app_assoc. }
    2-4: reflexivity.
    cbn [app take isEmpty andb].
    rewrite (splitFrom_skip html
               (js "<ul>" ++ w1 ++ js "<li>" ++ w2 ++ js "<p>" ++ inner
                ++ js "</p>" ++ w3 ++ [60%N])
               (js "/li>" ++ w4) (js "</ul>" ++ w5)
               _ (strlen (js "<ul>" ++ w1 ++ js "<li>" ++ w2 ++ js "<p>" ++ inner
                          ++ js "</p>" ++ w3 ++ js "</li>" ++ w4))).
    2: { subst html. unfold looseList. by rewrite <- !app_assoc. }
    2: { apply no_bracket_app; [|done]. vm_compute. intuition discriminate. }
    2, 3: solve_index.
    (* the closing tag of the list *)
    rewrite (splitFrom_close html
               (js "<ul>" ++ w1 ++ js "<li>" ++ w2 ++ js "<p>" ++ inner
                ++ js "</p>" ++ w3 ++ js "</li>" ++ w4)
               (js "</ul>") (js "ul") w5 _ _ _ _ 0%nat).
    2: { subst html. unfold looseList. by rewrite <- !app_assoc. }
    2-4: reflexivity.
    cbn [app take isEmpty andb].
    assert ((0 <=? strlen (js "<ul>" ++ w1 ++ js "<li>" ++ w2)) = true) as ->
      by (apply Z.leb_le; solve_index).
    change (includes topLevelBlockElements (toLowerCase (js "ul"))) with true.
    cbn [andb].
    rewrite (substring_at html (js "<ul>" ++ w1 ++ js "<li>" ++ w2) tail w5);
      [| subst html tail; unfold looseList; by rewrite <- !app_assoc
       | reflexivity | subst tail; solve_index].
    rewrite (splitFrom_skip html
               (js "<ul>" ++ w1 ++ js "<li>" ++ w2 ++ js "<p>" ++ inner
                ++ js "</p>" ++ w3 ++ js "</li>" ++ w4 ++ [60%N])
               (js "/ul>" ++ w5) [] _ (strlen html)).
    2: { subst html. unfold looseList. by rewrite <- !app_assoc, app_nil_r. }
    2: { apply no_bracket_app; [|done]. vm_compute. intuition discriminate. }
    2, 3: subst html; unfold looseList; solve_index.
    rewrite splitFrom_end by lia. reflexivity. }
  split; [exact Hsplit|]. rewrite Hsplit. cbn [fold_left].
  destruct (open_list_head w1 Hw1) as (Hopen & Hpar & Himg).
  destruct (loose_list_tail inner w3 w4) as (Hitem & Hlist & Hpar').
  fold head in Hopen, Hpar, Himg. fold tail in Hitem, Hlist, Hpar'.
  assert (Hfirst : appendBlock st head = pushBlock st head).
  { unfold appendBlock.
    rewrite (trim_nonblank head 60%N); [|by left|done].
    destruct (last (renderBlocks st)) as [lastBlock|] eqn:Hl; [|done].
    pose proof (Hlast lastBlock eq_refl) as Hno. fold head in Hno.
    by rewrite Hno. }
  rewrite Hfirst. unfold appendBlock.
  rewrite (trim_nonblank tail 60%N); [|by left|done].
  assert (last (renderBlocks (pushBlock st head))
          = Some (mkBlock (blockId (blockCounter st)) head)) as ->
    by (unfold pushBlock; cbn [renderBlocks]; apply last_snoc).
  cbn [html]. unfold shouldMergeBlocks.
  assert (isEmpty head || isEmpty tail = false) as -> by reflexivity.
  by rewrite Hpar, Hopen, Hitem, Hlist, Hpar'.
Qed.

Lemma loose_list_stored_in_two_witness :
  splitIntoCompleteBlocks (js "<ul>\n<li><p>a</p>\n</li>\n</ul>\n")
  = [js "<ul>\n<li>"; js "<p>a</p>\n</li>\n</ul>"] /\
  fold_left appendBlock
    (splitIntoCompleteBlocks (js "<ul>\n<li><p>a</p>\n</li>\n</ul>\n"))
    initialState
  = pushBlock (pushBlock initialState (js "<ul>\n<li>"))
      (js "<p>a</p>\n</li>\n</ul>").
Proof.
  apply (loose_list_stored_in_two initialState (js "\n") [] (js "a") (js "\n")
           (js "\n") (js "\n")).
  - reflexivity.
  - reflexivity.
  - reflexivity.
  - reflexivity.
  - reflexivity.
  - vm_compute. intuition discriminate.
  - intros lastBlock Hl. vm_compute in Hl. discriminate.
Defined.

(* ================================================================== *)
(** ** The earlier version of the component *)
(* ================================================================== *)




Lemma legacy_splitLoop_fuel fuel : forall extra html i stack cbs blocks,
  strlen html - i <= Z.of_nat fuel ->
  Legacy.splitLoop (fuel + extra) html i stack cbs blocks
  = Legacy.splitLoop fuel html i stack cbs blocks.
Proof.
  induction fuel as [|fuel IH]; intros extra html i stack cbs blocks Hleft.
  - destruct extra as [|extra]; [done|]. cbn [Nat.add Legacy.splitLoop].
    destruct (Z.ltb_spec i (strlen html)); [lia | done].
  - cbn [Nat.add Legacy.splitLoop].
    destruct (negb (i <? strlen html)); [done|].
    destruct (_ && _ && _).
    + destruct (startTagMatch (substringFrom html i)) as [m|] eqn:Hm;
        [|apply IH; lia].
      apply startTagMatch_length in Hm. cbn zeta.
      repeat match goal with
             | |- context [if ?c then _ else _] => destruct c
             end; apply IH; lia.
    + destruct (_ && _); [|apply IH; lia].
      destruct (processCloseTag _ _ _ _ _ _) as [[[c|] stack1] blocks1];
        apply IH; lia.
Qed.

Lemma legacy_splitLoop_from fuel html i stack cbs blocks :
  strlen html - i <= Z.of_nat fuel ->
  Legacy.splitLoop fuel html i stack cbs blocks
  = Legacy.splitFrom html i stack cbs blocks.
Proof.
  intros Hfuel. unfold Legacy.splitFrom.
  replace fuel
    with (Z.to_nat (strlen html - i) + (fuel - Z.to_nat (strlen html - i)))%nat
    at 1 by lia.
  apply legacy_splitLoop_fuel. lia.
Qed.

Lemma legacy_splitFrom_end html i stack cbs blocks :
  strlen html <= i -> Legacy.splitFrom html i stack cbs blocks = (cbs, blocks).
Proof.
  intros Hi. unfold Legacy.splitFrom.
  replace (Z.to_nat (strlen html - i)) with 0%nat by lia. reflexivity.
Qed.

Lemma legacy_splitFrom_other html pre d rest i stack cbs blocks :
  html = pre ++ d :: rest -> i = strlen pre -> d <> 60%N ->
  Legacy.splitFrom html i stack cbs blocks
  = Legacy.splitFrom html (i + 1) stack cbs blocks.
Proof.
  intros Hhtml Hi Hd. unfold Legacy.splitFrom at 1.
  assert (Hlt : i < strlen html).
  { rewrite Hhtml, Hi. unfold strlen. rewrite length_app. cbn. lia. }
  destruct (Z.to_nat (strlen html - i)) as [|fuel] eqn:Hfuel; [lia|].
  cbn [Legacy.splitLoop]. destruct (Z.ltb_spec i (strlen html)); [|lia].
  cbn [negb]. rewrite (charIs_at html pre d rest i 60 Hhtml Hi).
  destruct (N.eqb_spec d 60) as [?|_]; [done|]. cbn [andb].
  apply legacy_splitLoop_from. lia.
Qed.

Lemma legacy_splitFrom_skip html pre text post i j stack cbs blocks :
  html = pre ++ text ++ post -> ~ In 60%N text ->
  i = strlen pre -> j = strlen pre + strlen text ->
  Legacy.splitFrom html i stack cbs blocks
  = Legacy.splitFrom html j stack cbs blocks.
Proof.
  intros Hhtml Hno -> ->. revert pre Hhtml.
  induction text as [|d text IH]; intros pre Hhtml.
  - f_equal. unfold strlen. cbn. lia.
  - assert (Hd : d <> 60%N) by (intros ->; apply Hno; by left).
    rewrite (legacy_splitFrom_other html pre d (text ++ post)) by done.
    replace (strlen pre + 1) with (strlen (pre ++ [d]))
      by (unfold strlen; rewrite length_app; cbn; lia).
    replace (strlen pre + strlen (d :: text))
      with (strlen (pre ++ [d]) + strlen text)
      by (unfold strlen; rewrite length_app; cbn; lia).
    apply IH; [by intros H; apply Hno; right | by rewrite <- app_assoc].
Qed.

(** The opening tag of a top-level element that is not self-closing: it
    starts a block only when no element is open. *)
Lemma legacy_splitFrom_open html pre tag tagName post i stack cbs blocks :
  html = pre ++ tag ++ post -> i = strlen pre ->
  startTagMatch (tag ++ post) = Some (tag, tagName) ->
  includes topLevelBlockElements (toLowerCase tagName) = true ->
  endsWith tag (js "/>") || isSelfClosingTag (toLowerCase tagName) = false ->
  Legacy.splitFrom html i stack cbs blocks
  = if isEmpty stack then
      Legacy.splitFrom html (i + 1) (stack ++ [mkEntry (toLowerCase tagName) i]) i
        (pushPrevBlock html i cbs blocks)
    else
      Legacy.splitFrom html (i + 1) (stack ++ [mkEntry (toLowerCase tagName) i])
        cbs blocks.
Proof.
  intros Hhtml Hi Hm Htop Hself.
  destruct (startTagMatch_head _ _ Hm) as (c & rest & Hrest & Hc).
  assert (Hlt : i < strlen html).
  { rewrite Hhtml, Hi. unfold strlen. rewrite length_app, Hrest. cbn. lia. }
  pose proof Hhtml as Hcode. rewrite Hrest in Hcode.
  unfold Legacy.splitFrom at 1.
  destruct (Z.to_nat (strlen html - i)) as [|fuel] eqn:Hfuel; [lia|].
  cbn [Legacy.splitLoop]. destruct (Z.ltb_spec i (strlen html)); [|lia].
  cbn [negb].
  rewrite (charIs_at html pre _ _ i 60 Hcode Hi).
  rewrite (charIs_next html pre _ _ _ i 47 Hcode Hi).
  rewrite (charIs_next html pre _ _ _ i 33 Hcode Hi).
  assert ((c =? 47)%N = false) as ->
    by (destruct (N.eqb_spec c 47) as [->|]; done).
  assert ((c =? 33)%N = false) as ->
    by (destruct (N.eqb_spec c 33) as [->|]; done).
  cbn [N.eqb Pos.eqb negb andb].
  rewrite (substringFrom_at html pre _ i Hhtml Hi), Hm.
  cbn zeta. cbn [fst snd]. rewrite Htop, Hself.
  destruct (isEmpty stack); apply legacy_splitLoop_from; lia.
Qed.

Lemma legacy_splitFrom_close html pre tag tagName post i stack cbs blocks j :
  html = pre ++ tag ++ post -> i = strlen pre ->
  closeTagMatch (tag ++ post) = Some (tag, tagName) ->
  lastNamed (toLowerCase tagName) stack = Some j ->
  Legacy.splitFrom html i stack cbs blocks
  = if isEmpty (take j stack) && (0 <=? cbs)
       && includes topLevelBlockElements (toLowerCase tagName)
    then Legacy.splitFrom html (i + 1) (take j stack) (-1)
           (blocks ++ [substring html cbs (i + strlen tag)])
    else Legacy.splitFrom html (i + 1) (take j stack) cbs blocks.
Proof.
  intros Hhtml Hi Hm Hj.
  destruct (closeTagMatch_head _ _ Hm) as (rest & Hrest).
  assert (Hlt : i < strlen html).
  { rewrite Hhtml, Hi. unfold strlen. rewrite length_app, Hrest. cbn. lia. }
  pose proof Hhtml as Hcode. rewrite Hrest in Hcode.
  unfold Legacy.splitFrom at 1.
  destruct (Z.to_nat (strlen html - i)) as [|fuel] eqn:Hfuel; [lia|].
  cbn [Legacy.splitLoop]. destruct (Z.ltb_spec i (strlen html)); [|lia].
  cbn [negb].
  rewrite (charIs_at html pre _ _ i 60 Hcode Hi).
  rewrite (charIs_next html pre _ _ _ i 47 Hcode Hi).
  cbn [N.eqb Pos.eqb negb andb].
  unfold processCloseTag.
  rewrite (substringFrom_at html pre _ i Hhtml Hi), Hm.
  rewrite (lastNamed_nonempty _ _ _ Hj). cbn zeta. cbn [fst snd]. rewrite Hj.
  destruct (_ && _ && _); apply legacy_splitLoop_from; lia.
Qed.

Lemma legacy_splitIntoCompleteBlocks_from html :
  Legacy.splitIntoCompleteBlocks html
  = if isEmpty html || isEmpty (trim html) then []
    else let '(currentBlockStart, blocks) := Legacy.splitFrom html 0 [] (-1) [] in
         processLastBlock html currentBlockStart blocks.
Proof.
  unfold Legacy.splitIntoCompleteBlocks, Legacy.splitFrom.
  replace (Z.to_nat (strlen html - 0)) with (length html)
    by (unfold strlen; lia).
  reflexivity.
Qed.

(** The earlier splitter on a blockquote that holds a paragraph. *)
Lemma legacy_quote_whole (w1 inner w2 w3 : jsstring) :
  forallb isWhiteSpace w1 = true -> forallb isWhiteSpace w2 = true ->
  forallb isWhiteSpace w3 = true -> ~ In 60%N inner ->
  Legacy.splitIntoCompleteBlocks (quotedParagraph w1 inner w2 w3)
  = [quotedParagraph w1 inner w2 []].
Proof.
  intros Hw1 Hw2 Hw3 Hinner.
  pose proof (blank_no_bracket _ Hw1) as Hn1.
  pose proof (blank_no_bracket _ Hw2) as Hn2.
  pose proof (blank_no_bracket _ Hw3) as Hn3.
  set (html := quotedParagraph w1 inner w2 w3).
  rewrite legacy_splitIntoCompleteBlocks_from. fold html.
  assert (isEmpty html = false) as -> by reflexivity.
  rewrite (trim_nonblank html 60%N); [|by left|done].
  cbn [orb].
  rewrite (legacy_splitFrom_open html [] (js "<blockquote>") (js "blockquote")
             (w1 ++ js "<p>" ++ inner ++ js "</p>" ++ w2 ++ js "</blockquote>" ++ w3)
             0 [] (-1) []); [|reflexivity..].
  change (pushPrevBlock html 0 (-1) []) with (@nil jsstring).
  cbn [app isEmpty].
  rewrite (legacy_splitFrom_skip html [60%N] (js "blockquote>" ++ w1)
             (js "<p>" ++ inner ++ js "</p>" ++ w2 ++ js "</blockquote>" ++ w3)
             (0 + 1) (strlen (js "<blockquote>" ++ w1))).
  2: { subst html. unfold quotedParagraph. by rewrite <- !app_assoc. }
  2: { apply no_bracket_app; [|done]. vm_compute. intuition discriminate. }
  2, 3: solve_index.
  (* the paragraph opens inside the blockquote: no block starts *)
  rewrite (legacy_splitFrom_open html (js "<blockquote>" ++ w1) (js "<p>") (js "p")
             (inner ++ js "</p>" ++ w2 ++ js "</blockquote>" ++ w3)).
  2: { subst html. unfold quotedParagraph. by rewrite <- !app_assoc. }
  2-5: reflexivity.
  cbn [app isEmpty].
  change (toLowerCase (js "blockquote")) with (js "blockquote").
  change (toLowerCase (js "p")) with (js "p").
  rewrite (legacy_splitFrom_skip html (js "<blockquote>" ++ w1 ++ [60%N])
             (js "p>" ++ inner) (js "</p>" ++ w2 ++ js "</blockquote>" ++ w3)
             _ (strlen (js "<blockquote>" ++ w1 ++ js "<p>" ++ inner))).
  2: { subst html. unfold quotedParagraph. by rewrite <- !app_assoc. }
  2: { apply no_bracket_app; [|done]. vm_compute. intuition discriminate. }
  2, 3: solve_index.
  rewrite (legacy_splitFrom_close html (js "<blockquote>" ++ w1 ++ js "<p>" ++ inner)
             (js "</p>") (js "p") (w2 ++ js "</blockquote>" ++ w3) _ _ _ _ 1%nat).
  2: { subst html. unfold quotedParagraph. by rewrite <- !app_assoc. }
  2-4: reflexivity.
  cbn [app take isEmpty andb].
  rewrite (legacy_splitFrom_skip html
             (js "<blockquote>" ++ w1 ++ js "<p>" ++ inner ++ [60%N])
             (js "/p>" ++ w2) (js "</blockquote>" ++ w3)
             _ (strlen (js "<blockquote>" ++ w1 ++ js "<p>" ++ inner ++ js "</p>" ++ w2))).
  2: { subst html. unfold quotedParagraph. by rewrite <- !app_assoc. }
  2: { apply no_bracket_app; [|done]. vm_compute. intuition discriminate. }
  2, 3: solve_index.
  rewrite (legacy_splitFrom_close html
             (js "<blockquote>" ++ w1 ++ js "<p>" ++ inner ++ js "</p>" ++ w2)
             (js "</blockquote>") (js "blockquote") w3 _ _ _ _ 0%nat).
  2: { subst html. unfold quotedParagraph. by rewrite <- !app_assoc. }
  2-4: reflexivity.
  cbn [app take isEmpty andb].
  change (0 <=? 0) with true.
  change (includes topLevelBlockElements (toLowerCase (js "blockquote"))) with true.
  cbn [andb].
  rewrite (substring_at html []
             (js "<blockquote>" ++ w1 ++ js "<p>" ++ inner ++ js "</p>" ++ w2
              ++ js "</blockquote>") w3);
    [| subst html; unfold quotedParagraph; by rewrite <- !app_assoc
     | reflexivity | solve_index].
  rewrite (legacy_splitFrom_skip html
             (js "<blockquote>" ++ w1 ++ js "<p>" ++ inner ++ js "</p>" ++ w2 ++ [60%N])
             (js "/blockquote>" ++ w3) [] _ (strlen html)).
  2: { subst html. unfold quotedParagraph. by rewrite <- !app_assoc, app_nil_r. }
  2: { apply no_bracket_app; [|done]. vm_compute. intuition discriminate. }
  2, 3: subst html; unfold quotedParagraph; solve_index.
  rewrite legacy_splitFrom_end by lia.
  unfold quotedParagraph. cbn [processLastBlock]. unfold processLastBlock.
  cbn [Z.leb andb isEmpty app]. by rewrite app_nil_r.
Qed.

Lemma legacy_splitFrom_open_inner html pre tag tagName post i stack cbs blocks :
  html = pre ++ tag ++ post -> i = strlen pre ->
  startTagMatch (tag ++ post) = Some (tag, tagName) ->
  includes topLevelBlockElements (toLowerCase tagName) = false ->
  endsWith tag (js "/>") || isSelfClosingTag (toLowerCase tagName) = false ->
  isEmpty stack = false ->
  Legacy.splitFrom html i stack cbs blocks
  = Legacy.splitFrom html (i + 1) (stack ++ [mkEntry (toLowerCase tagName) i])
      cbs blocks.
Proof.
  intros Hhtml Hi Hm Htop Hself Hstack.
  destruct (startTagMatch_head _ _ Hm) as (c & rest & Hrest & Hc).
  assert (Hlt : i < strlen html).
  { rewrite Hhtml, Hi. unfold strlen. rewrite length_app, Hrest. cbn. lia. }
  pose proof Hhtml as Hcode. rewrite Hrest in Hcode.
  unfold Legacy.splitFrom at 1.
  destruct (Z.to_nat (strlen html - i)) as [|fuel] eqn:Hfuel; [lia|].
  cbn [Legacy.splitLoop]. destruct (Z.ltb_spec i (strlen html)); [|lia].
  cbn [negb].
  rewrite (charIs_at html pre _ _ i 60 Hcode Hi).
  rewrite (charIs_next html pre _ _ _ i 47 Hcode Hi).
  rewrite (charIs_next html pre _ _ _ i 33 Hcode Hi).
  assert ((c =? 47)%N = false) as ->
    by (destruct (N.eqb_spec c 47) as [->|]; done).
  assert ((c =? 33)%N = false) as ->
    by (destruct (N.eqb_spec c 33) as [->|]; done).
  cbn [N.eqb Pos.eqb negb andb].
  rewrite (substringFrom_at html pre _ i Hhtml Hi), Hm.
  cbn zeta. cbn [fst snd]. rewrite Htop, Hself, Hstack. cbn [negb andb].
  apply legacy_splitLoop_from. lia.
Qed.

(** The earlier splitter on a list whose item holds a paragraph. *)
Lemma legacy_loose_list_whole (w1 w2 inner w3 w4 w5 : jsstring) :
  forallb isWhiteSpace w1 = true -> forallb isWhiteSpace w2 = true ->
  forallb isWhiteSpace w3 = true -> forallb isWhiteSpace w4 = true ->
  forallb isWhiteSpace w5 = true -> ~ In 60%N inner ->
  Legacy.splitIntoCompleteBlocks (looseList w1 w2 inner w3 w4 w5)
  = [looseList w1 w2 inner w3 w4 []].
Proof.
  intros Hw1 Hw2 Hw3 Hw4 Hw5 Hinner.
  pose proof (blank_no_bracket _ Hw1) as Hn1.
  pose proof (blank_no_bracket _ Hw2) as Hn2.
  pose proof (blank_no_bracket _ Hw3) as Hn3.
  pose proof (blank_no_bracket _ Hw4) as Hn4.
  pose proof (blank_no_bracket _ Hw5) as Hn5.
  set (html := looseList w1 w2 inner w3 w4 w5).
  rewrite legacy_splitIntoCompleteBlocks_from. fold html.
  assert (isEmpty html = false) as -> by reflexivity.
  rewrite (trim_nonblank html 60%N); [|by left|done].
  cbn [orb].
  rewrite (legacy_splitFrom_open html [] (js "<ul>") (js "ul")
             (w1 ++ js "<li>" ++ w2 ++ js "<p>" ++ inner ++ js "</p>" ++ w3
              ++ js "</li>" ++ w4 ++ js "</ul>" ++ w5)
             0 [] (-1) []); [|reflexivity..].
  change (pushPrevBlock html 0 (-1) []) with (@nil jsstring).
  cbn [app isEmpty].
  rewrite (legacy_splitFrom_skip html [60%N] (js "ul>" ++ w1)
             (js "<li>" ++ w2 ++ js "<p>" ++ inner ++ js "</p>" ++ w3
              ++ js "</li>" ++ w4 ++ js "</ul>" ++ w5)
             (0 + 1) (strlen (js "<ul>" ++ w1))).
  2: { subst html. unfold looseList. by rewrite <- !app_assoc. }
  2: { apply no_bracket_app; [|done]. vm_compute. intuition discriminate. }
  2, 3: solve_index.
  rewrite (legacy_splitFrom_open_inner html (js "<ul>" ++ w1) (js "<li>") (js "li")
             (w2 ++ js "<p>" ++ inner ++ js "</p>" ++ w3
              ++ js "</li>" ++ w4 ++ js "</ul>" ++ w5)).
  2: { subst html. unfold looseList. by rewrite <- !app_assoc. }
  2-6: reflexivity.
  cbn [app].
  rewrite (legacy_splitFrom_skip html (js "<ul>" ++ w1 ++ [60%N]) (js "li>" ++ w2)
             (js "<p>" ++ inner ++ js "</p>" ++ w3
              ++ js "</li>" ++ w4 ++ js "</ul>" ++ w5)
             _ (strlen (js "<ul>" ++ w1 ++ js "<li>" ++ w2))).
  2: { subst html. unfold looseList. by rewrite <- !app_assoc. }
  2: { apply no_bracket_app; [|done]. vm_compute. intuition discriminate. }
  2, 3: solve_index.
  (* the paragraph opens inside the item: no block starts *)
  rewrite (legacy_splitFrom_open html (js "<ul>" ++ w1 ++ js "<li>" ++ w2) (js "<p>")
             (js "p")
             (inner ++ js "</p>" ++ w3 ++ js "</li>" ++ w4 ++ js "</ul>" ++ w5)).
  2: { subst html. unfold looseList. by rewrite <- !app_assoc. }
  2-5: reflexivity.
  cbn [app isEmpty].
  change (toLowerCase (js "ul")) with (js "ul").
  change (toLowerCase (js "li")) with (js "li").
  change (toLowerCase (js "p")) with (js "p").
  rewrite (legacy_splitFrom_skip html (js "<ul>" ++ w1 ++ js "<li>" ++ w2 ++ [60%N])
             (js "p>" ++ inner)
             (js "</p>" ++ w3 ++ js "</li>" ++ w4 ++ js "</ul>" ++ w5)
             _ (strlen (js "<ul>" ++ w1 ++ js "<li>" ++ w2 ++ js "<p>" ++ inner))).
  2: { subst html. unfold looseList. by rewrite <- !app_assoc. }
  2: { apply no_bracket_app; [|done]. vm_compute. intuition discriminate. }
  2, 3: solve_index.
  rewrite (legacy_splitFrom_close html
             (js "<ul>" ++ w1 ++ js "<li>" ++ w2 ++ js "<p>" ++ inner)
             (js "</p>") (js "p")
             (w3 ++ js "</li>" ++ w4 ++ js "</ul>" ++ w5) _ _ _ _ 2%nat).
  2: { subst html. unfold looseList. by rewrite <- !app_assoc. }
  2-4: reflexivity.
  cbn [app take isEmpty andb].
  rewrite (legacy_splitFrom_skip html
             (js "<ul>" ++ w1 ++ js "<li>" ++ w2 ++ js "<p>" ++ inner ++ [60%N])
             (js "/p>" ++ w3) (js "</li>" ++ w4 ++ js "</ul>" ++ w5)
             _ (strlen (js "<ul>" ++ w1 ++ js "<li>" ++ w2 ++ js "<p>" ++ inner
                        ++ js "</p>" ++ w3))).
  2: { subst html. unfold looseList. by rewrite <- !app_assoc. }
  2: { apply no_bracket_app; [|done]. vm_compute. intuition discriminate. }
  2, 3: solve_index.
  rewrite (legacy_splitFrom_close html
             (js "<ul>" ++ w1 ++ js "<li>" ++ w2 ++ js "<p>" ++ inner
              ++ js "</p>" ++ w3)
             (js "</li>") (js "li") (w4 ++ js "</ul>" ++ w5) _ _ _ _ 1%nat).
  2: { subst html. unfold looseList. by rewrite <- !app_assoc. }
  2-4: reflexivity.
  cbn [app take isEmpty andb].
  rewrite (legacy_splitFrom_skip html
             (js "<ul>" ++ w1 ++ js "<li>" ++ w2 ++ js "<p>" ++ inner
              ++ js "</p>" ++ w3 ++ [60%N])
             (js "/li>" ++ w4) (js "</ul>" ++ w5)
             _ (strlen (js "<ul>" ++ w1 ++ js "<li>" ++ w2 ++ js "<p>" ++ inner
                        ++ js "</p>" ++ w3 ++ js "</li>" ++ w4))).
  2: { subst html. unfold looseList. by rewrite <- !app_assoc. }
  2: { apply no_bracket_app; [|done]. vm_compute. intuition discriminate. }
  2, 3: solve_index.
  rewrite (legacy_splitFrom_close html
             (js "<ul>" ++ w1 ++ js "<li>" ++ w2 ++ js "<p>" ++ inner
              ++ js "</p>" ++ w3 ++ js "</li>" ++ w4)
             (js "</ul>") (js "ul") w5 _ _ _ _ 0%nat).
  2: { subst html. unfold looseList. by rewrite <- !app_assoc. }
  2-4: reflexivity.
  cbn [app take isEmpty andb].
  change (0 <=? 0) with true.
  change (includes topLevelBlockElements (toLowerCase (js "ul"))) with true.
  cbn [andb].
  rewrite (substring_at html []
             (js "<ul>" ++ w1 ++ js "<li>" ++ w2 ++ js "<p>" ++ inner
              ++ js "</p>" ++ w3 ++ js "</li>" ++ w4 ++ js "</ul>") w5);
    [| subst html; unfold looseList; by rewrite <- !app_assoc
     | reflexivity | solve_index].
  rewrite (legacy_splitFrom_skip html
             (js "<ul>" ++ w1 ++ js "<li>" ++ w2 ++ js "<p>" ++ inner
              ++ js "</p>" ++ w3 ++ js "</li>" ++ w4 ++ [60%N])
             (js "/ul>" ++ w5) [] _ (strlen html)).
  2: { subst html. unfold looseList. by rewrite <- !app_assoc, app_nil_r. }
  2: { apply no_bracket_app; [|done]. vm_compute. intuition discriminate. }
  2, 3: subst html; unfold looseList; solve_index.
  rewrite legacy_splitFrom_end by lia.
  unfold looseList, processLastBlock.
  cbn [Z.leb andb isEmpty app]. by rewrite app_nil_r.
Qed.

(** X14: the earlier splitter keeps nested top-level elements whole.  It
    starts a block at a top-level opening tag only when no element is
    open, so the paragraph inside a blockquote or inside a list item
    starts none: the one block of the output is the blockquote, or the
    list, from its opening to its closing tag. *)
Theorem legacy_keeps_nested_whole (w1 w2 inner w3 w4 w5 : jsstring) :
  forallb isWhiteSpace w1 = true -> forallb isWhiteSpace w2 = true ->
  forallb isWhiteSpace w3 = true -> forallb isWhiteSpace w4 = true ->
  forallb isWhiteSpace w5 = true -> ~ In 60%N inner ->
  Legacy.splitIntoCompleteBlocks (quotedParagraph w1 inner w2 w3)
  = [quotedParagraph w1 inner w2 []] /\
  Legacy.splitIntoCompleteBlocks (looseList w1 w2 inner w3 w4 w5)
  = [looseList w1 w2 inner w3 w4 []].
Proof.
  intros Hw1 Hw2 Hw3 Hw4 Hw5 Hinner. split.
  - by apply legacy_quote_whole.
  - by apply legacy_loose_list_whole.
Qed.

Lemma legacy_keeps_nested_whole_witness :
  Legacy.splitIntoCompleteBlocks (js "<blockquote>\n<p>Hi</p>\n</blockquote>\n")
  = [js "<blockquote>\n<p>Hi</p>\n</blockquote>"] /\
  Legacy.splitIntoCompleteBlocks (js "<ul>\n<li>\n<p>Hi</p>\n</li>\n</ul>\n")
  = [js "<ul>\n<li>\n<p>Hi</p>\n</li>\n</ul>"].
Proof.
  apply (legacy_keeps_nested_whole (js "\n") (js "\n") (js "Hi") (js "\n")
           (js "\n") (js "\n")).
  - reflexivity.
  - reflexivity.
  - reflexivity.
  - reflexivity.
  - reflexivity.
  - vm_compute. intuition discriminate.
Defined.

Lemma withoutBuffer_pushBlock st h :
  withoutBuffer (pushBlock st h) = Legacy.pushBlock (withoutBuffer st) h.
Proof. reflexivity. Qed.

(** X15: the later store does what the earlier one did wherever the
    earlier one could act.  When the last stored block is no open list,
    table or blockquote, and an image tag in it, if any, is written in
    lower case, the callback of the later appendNewContent leaves the
    blocks and the counter exactly as the callback of the earlier one
    does: the paragraph rule is unchanged, and the rules for lists, tables
    and blockquotes and the refusal on images are all that was added. *)
Theorem legacy_store_agrees (st : State) (blockHtml : jsstring) :
  (forall lastBlock, last (renderBlocks st) = Some lastBlock ->
     isIncompleteList (html lastBlock) = false /\
     isIncompleteTable (html lastBlock) = false /\
     isIncompleteBlockquote (html lastBlock) = false /\
     (containsImage (html lastBlock) = true ->
      contains false (js "<img") (html lastBlock) = true)) ->
  Legacy.appendBlock (withoutBuffer st) blockHtml
  = withoutBuffer (appendBlock st blockHtml).
Proof.
  intros Hlast. unfold Legacy.appendBlock, appendBlock.
  destruct (isEmpty (trim blockHtml)) eqn:Hblank; [done|].
  cbn [Legacy.renderBlocks withoutBuffer].
  destruct (last (renderBlocks st)) as [lastBlock|] eqn:Hl; [|done].
  destruct (Hlast lastBlock eq_refl) as (Hlist & Htable & Hquote & Himg).
  unfold shouldMergeBlocks. rewrite Hlist, Htable, Hquote.
  destruct (isParagraphBlock (html lastBlock)) eqn:Hp1; cbn [andb].
  2: { by destruct (isEmpty (html lastBlock) || isEmpty blockHtml). }
  destruct (isParagraphBlock blockHtml) eqn:Hp2; cbn [andb].
  2: { by destruct (isEmpty (html lastBlock) || isEmpty blockHtml). }
  destruct (isParagraphBlock_nonblank _ Hp1) as [He1 _].
  destruct (isParagraphBlock_nonblank _ Hp2) as [He2 _].
  rewrite He1, He2. cbn [orb].
  destruct (isParagraphComplete (html lastBlock)) eqn:Hcomplete; cbn [negb];
    [done|].
  assert (containsImage (html lastBlock) = false) as ->.
  { destruct (containsImage (html lastBlock)); [|done].
    unfold isParagraphComplete in Hcomplete.
    rewrite He1 in Hcomplete.
    rewrite Himg in Hcomplete by done. by rewrite orb_true_r in Hcomplete. }
  unfold mergeBlocks. rewrite Hp1, Hp2. cbn [andb].
  unfold Legacy.setLastHtml, assignLast, withoutBuffer.
  cbn [Legacy.renderBlocks Legacy.processedLength Legacy.blockCounter
       renderBlocks processedLength blockCounter]. by rewrite Hl.
Qed.

Lemma legacy_store_agrees_witness :
  Legacy.appendBlock (withoutBuffer paragraphState) (js "<p>two</p>")
  = withoutBuffer (appendBlock paragraphState (js "<p>two</p>")).
Proof.
  apply (legacy_store_agrees paragraphState (js "<p>two</p>")).
  intros lastBlock Hl. vm_compute in Hl. injection Hl as <-.
  repeat split; try (vm_compute; reflexivity).
  vm_compute. discriminate.
Defined.

Lemma legacy_pushBlock_wellFormed st h :
  wellFormed (withBuffer st) -> wellFormed (withBuffer (Legacy.pushBlock st h)).
Proof. apply (pushBlock_evolves (withBuffer st) h). Qed.

Lemma legacy_setLastHtml_wellFormed st h :
  wellFormed (withBuffer st) -> wellFormed (withBuffer (Legacy.setLastHtml st h)).
Proof.
  intros Hwf. unfold Legacy.setLastHtml.
  destruct (last (Legacy.renderBlocks st)) as [lastBlock|] eqn:Hlast; [|done].
  rewrite last_lookup in Hlast.
  assert (Hlen : (0 < length (Legacy.renderBlocks st))%nat).
  { apply lookup_lt_Some in Hlast. lia. }
  replace (Nat.pred (length (Legacy.renderBlocks st)))
    with (length (Legacy.renderBlocks st) - 1)%nat in Hlast by lia.
  assert (Hids :
    map id (<[(length (Legacy.renderBlocks st) - 1)%nat := mkBlock (id lastBlock) h]>
              (Legacy.renderBlocks st))
    = map id (Legacy.renderBlocks st)).
  { change (map id) with (fmap (M:=list) id).
    rewrite list_fmap_insert, list_insert_id; [done|].
    by rewrite list_lookup_fmap, Hlast. }
  destruct Hwf as (Hpos & Hnd & Hk).
  unfold wellFormed, withBuffer in *.
  cbn [renderBlocks blockCounter Legacy.renderBlocks Legacy.blockCounter] in *.
  rewrite Hids. split; [done|]. split; [done|].
  intros b Hb. apply list_elem_of_In, list_elem_of_lookup in Hb as [i Hb].
  destruct (decide (i = (length (Legacy.renderBlocks st) - 1)%nat)) as [->|Hne].
  - rewrite list_lookup_insert_eq in Hb by lia. inversion Hb; subst b.
    cbn [id]. apply Hk, list_elem_of_In, list_elem_of_lookup. eauto.
  - rewrite list_lookup_insert_ne in Hb by done.
    apply Hk, list_elem_of_In, list_elem_of_lookup. eauto.
Qed.

Lemma legacy_appendBlock_wellFormed st blockHtml :
  wellFormed (withBuffer st) ->
  wellFormed (withBuffer (Legacy.appendBlock st blockHtml)).
Proof.
  intros Hwf. unfold Legacy.appendBlock.
  destruct (isEmpty (trim blockHtml)); [done|].
  destruct (last (Legacy.renderBlocks st)) as [lastBlock|];
    [|by apply legacy_pushBlock_wellFormed].
  destruct (_ && _ && _);
    [by apply legacy_setLastHtml_wellFormed | by apply legacy_pushBlock_wellFormed].
Qed.

Lemma legacy_fold_appendBlock_wellFormed blocks : forall st,
  wellFormed (withBuffer st) ->
  wellFormed (withBuffer (fold_left Legacy.appendBlock blocks st)).
Proof.
  induction blocks as [|b blocks IH]; intros st Hwf; [done|].
  by apply IH, legacy_appendBlock_wellFormed.
Qed.

Section LegacyFacts.

Variables marked sanitizeAllowList sanitize : jsstring -> completion.

Lemma legacy_renderFallback_wellFormed st newPart :
  wellFormed (withBuffer st) ->
  match Legacy.renderFallback sanitize st newPart with
  | Legacy.Returned st' => wellFormed (withBuffer st')
  | Legacy.Threw st' => wellFormed (withBuffer st')
  end.
Proof.
  intros Hwf. unfold Legacy.renderFallback.
  destruct (sanitize newPart); [by apply legacy_pushBlock_wellFormed|].
  destruct Hwf as (Hpos & Hnd & Hk). unfold wellFormed, withBuffer in *.
  cbn [renderBlocks blockCounter Legacy.renderBlocks Legacy.blockCounter] in *.
  split; [lia|]. split; [done|].
  intros b Hb. apply Hk in Hb as (k & ? & ?). exists k. split; [lia | done].
Qed.

Lemma legacy_appendNewContent_wellFormed st newPart :
  wellFormed (withBuffer st) ->
  match Legacy.appendNewContent marked sanitizeAllowList sanitize st newPart with
  | Legacy.Returned st' => wellFormed (withBuffer st')
  | Legacy.Threw st' => wellFormed (withBuffer st')
  end.
Proof.
  intros Hwf. unfold Legacy.appendNewContent.
  destruct (marked newPart) as [h|];
    [|by apply legacy_renderFallback_wellFormed].
  destruct (sanitizeAllowList h) as [c|];
    [|by apply legacy_renderFallback_wellFormed].
  by apply legacy_fold_appendBlock_wellFormed.
Qed.

Lemma legacy_handleContentUpdate_wellFormed st newContent :
  wellFormed (withBuffer st) ->
  match Legacy.handleContentUpdate marked sanitizeAllowList sanitize st
          newContent with
  | Legacy.Returned st' => wellFormed (withBuffer st')
  | Legacy.Threw st' => wellFormed (withBuffer st')
  end.
Proof.
  intros Hwf. unfold Legacy.handleContentUpdate.
  destruct newContent as [content|]; [|apply initialState_wellFormed].
  destruct (isEmpty content); [apply initialState_wellFormed|].
  set (st1 := if strlen content <? Legacy.processedLength st
              then Legacy.initialState else st).
  assert (Hwf1 : wellFormed (withBuffer st1)).
  { subst st1. destruct (_ <? _); [apply initialState_wellFormed | done]. }
  destruct (negb _); [|done].
  pose proof (legacy_appendNewContent_wellFormed st1
                (substringFrom content (Legacy.processedLength st1)) Hwf1) as Hrun.
  by destruct (Legacy.appendNewContent _ _ _ _ _).
Qed.

Lemma legacyRun_wellFormed contents : forall st,
  wellFormed (withBuffer st) ->
  wellFormed (withBuffer (legacyRun marked sanitizeAllowList sanitize st contents)).
Proof.
  induction contents as [|c contents IH]; intros st Hwf; [done|].
  cbn [legacyRun fold_left]. apply IH.
  pose proof (legacy_handleContentUpdate_wellFormed st c Hwf) as Hstep.
  by destruct (Legacy.handleContentUpdate _ _ _ _ _).
Qed.

(** X17: the keys of the earlier component are stable and unique.
    Whatever values the [content] prop takes, in whatever order, and
    whatever the converter and the sanitizers do (return or throw), the
    identifiers of the stored blocks are pairwise distinct. *)
Theorem legacy_identifiers_distinct (contents : list (option jsstring)) :
  NoDup (map id (Legacy.renderBlocks
                   (legacyRun marked sanitizeAllowList sanitize
                      Legacy.initialState contents))).
Proof.
  destruct (legacyRun_wellFormed contents Legacy.initialState
              initialState_wellFormed) as (_ & Hnd & _).
  exact Hnd.
Qed.

End LegacyFacts.

(* ================================================================== *)
(** ** Both splitters on flat documents *)
(* ================================================================== *)

Lemma splitFrom_paragraphs items : forall html pre blocks,
  html = pre ++ paragraphs items -> Forall flatItem items ->
  splitFrom html (strlen pre) [] (-1) blocks
  = (-1, blocks ++ map (fun item => paragraphSpan [] (fst item) []) items).
Proof.
  induction items as [|[inner w] items IH]; intros html pre blocks Hhtml Hitems.
  - rewrite splitFrom_end; [by rewrite app_nil_r|].
    rewrite Hhtml. unfold paragraphs. cbn. rewrite app_nil_r. lia.
  - inversion Hitems as [|? ? [Hinner Hw] Hrest]; subst. cbn [fst snd] in *.
    pose proof (blank_no_bracket _ Hw) as Hnw.
    set (html := pre ++ paragraphs ((inner, w) :: items)).
    assert (Hdoc : html = pre ++ js "<p>" ++ inner ++ js "</p>" ++ w
                          ++ paragraphs items).
    { subst html. unfold paragraphs, paragraphSpan. cbn [map concat fst snd app].
      by rewrite <- !app_assoc. }
    (* the opening tag *)
    rewrite (splitFrom_open html pre (js "<p>") (js "p")
               (inner ++ js "</p>" ++ w ++ paragraphs items)); try done.
    change (pushPrevBlock html (strlen pre) (-1) blocks) with blocks.
    cbn [app]. change (toLowerCase (js "p")) with (js "p").
    rewrite (splitFrom_skip html (pre ++ [60%N]) (js "p>" ++ inner)
               (js "</p>" ++ w ++ paragraphs items)
               _ (strlen (pre ++ js "<p>" ++ inner))).
    2: { rewrite Hdoc. by rewrite <- !app_assoc. }
    2: { apply no_bracket_app; [|done]. vm_compute. intuition discriminate. }
    2, 3: solve_index.
    (* the closing tag *)
    rewrite (splitFrom_close html (pre ++ js "<p>" ++ inner) (js "</p>") (js "p")
               (w ++ paragraphs items) _ _ _ _ 0%nat).
    2: { rewrite Hdoc. by rewrite <- !app_assoc. }
    2: done.
    2: reflexivity.
    2: reflexivity.
    cbn [take isEmpty andb].
    assert ((0 <=? strlen pre) = true) as -> by (apply Z.leb_le; solve_index).
    change (includes topLevelBlockElements (toLowerCase (js "p"))) with true.
    cbn [andb].
    rewrite (substring_at html pre (js "<p>" ++ inner ++ js "</p>")
               (w ++ paragraphs items));
      [| rewrite Hdoc; by rewrite <- !app_assoc | reflexivity | solve_index].
    rewrite (splitFrom_skip html (pre ++ js "<p>" ++ inner ++ [60%N])
               (js "/p>" ++ w) (paragraphs items)
               _ (strlen (pre ++ js "<p>" ++ inner ++ js "</p>" ++ w))).
    2: { rewrite Hdoc. by rewrite <- !app_assoc. }
    2: { apply no_bracket_app; [|done]. vm_compute. intuition discriminate. }
    2, 3: solve_index.
    rewrite (IH html (pre ++ js "<p>" ++ inner ++ js "</p>" ++ w)
               (blocks ++ [js "<p>" ++ inner ++ js "</p>"]));
      [| rewrite Hdoc; by rewrite <- !app_assoc | done].
    cbn [map fst]. unfold paragraphSpan at 2. cbn [app].
    by rewrite <- app_assoc, app_nil_r.
Qed.

Lemma legacy_splitFrom_paragraphs items : forall html pre blocks,
  html = pre ++ paragraphs items -> Forall flatItem items ->
  Legacy.splitFrom html (strlen pre) [] (-1) blocks
  = (-1, blocks ++ map (fun item => paragraphSpan [] (fst item) []) items).
Proof.
  induction items as [|[inner w] items IH]; intros html pre blocks Hhtml Hitems.
  - rewrite legacy_splitFrom_end; [by rewrite app_nil_r|].
    rewrite Hhtml. unfold paragraphs. cbn. rewrite app_nil_r. lia.
  - inversion Hitems as [|? ? [Hinner Hw] Hrest]; subst. cbn [fst snd] in *.
    pose proof (blank_no_bracket _ Hw) as Hnw.
    set (html := pre ++ paragraphs ((inner, w) :: items)).
    assert (Hdoc : html = pre ++ js "<p>" ++ inner ++ js "</p>" ++ w
                          ++ paragraphs items).
    { subst html. unfold paragraphs, paragraphSpan. cbn [map concat fst snd app].
      by rewrite <- !app_assoc. }
    rewrite (legacy_splitFrom_open html pre (js "<p>") (js "p")
               (inner ++ js "</p>" ++ w ++ paragraphs items)); try done.
    cbn [isEmpty].
    change (pushPrevBlock html (strlen pre) (-1) blocks) with blocks.
    cbn [app]. change (toLowerCase (js "p")) with (js "p").
    rewrite (legacy_splitFrom_skip html (pre ++ [60%N]) (js "p>" ++ inner)
               (js "</p>" ++ w ++ paragraphs items)
               _ (strlen (pre ++ js "<p>" ++ inner))).
    2: { rewrite Hdoc. by rewrite <- !app_assoc. }
    2: { apply no_bracket_app; [|done]. vm_compute. intuition discriminate. }
    2, 3: solve_index.
    rewrite (legacy_splitFrom_close html (pre ++ js "<p>" ++ inner) (js "</p>")
               (js "p") (w ++ paragraphs items) _ _ _ _ 0%nat).
    2: { rewrite Hdoc. by rewrite <- !app_assoc. }
    2: done.
    2: reflexivity.
    2: reflexivity.
    cbn [take isEmpty andb].
    assert ((0 <=? strlen pre) = true) as -> by (apply Z.leb_le; solve_index).
    change (includes topLevelBlockElements (toLowerCase (js "p"))) with true.
    cbn [andb].
    rewrite (substring_at html pre (js "<p>" ++ inner ++ js "</p>")
               (w ++ paragraphs items));
      [| rewrite Hdoc; by rewrite <- !app_assoc | reflexivity | solve_index].
    rewrite (legacy_splitFrom_skip html (pre ++ js "<p>" ++ inner ++ [60%N])
               (js "/p>" ++ w) (paragraphs items)
               _ (strlen (pre ++ js "<p>" ++ inner ++ js "</p>" ++ w))).
    2: { rewrite Hdoc. by rewrite <- !app_assoc. }
    2: { apply no_bracket_app; [|done]. vm_compute. intuition discriminate. }
    2, 3: solve_index.
    rewrite (IH html (pre ++ js "<p>" ++ inner ++ js "</p>" ++ w)
               (blocks ++ [js "<p>" ++ inner ++ js "</p>"]));
      [| rewrite Hdoc; by rewrite <- !app_assoc | done].
    cbn [map fst]. unfold paragraphSpan at 2. cbn [app].
    by rewrite <- app_assoc, app_nil_r.
Qed.

(** X18: on a document of paragraphs, one after the other, the splitter
    returns the paragraph elements one by one, in order, without the white
    space between them; and the earlier splitter returns the same
    blocks. *)
Theorem paragraphs_split_one_by_one (items : list (jsstring * jsstring)) :
  items <> [] -> Forall flatItem items ->
  splitIntoCompleteBlocks (paragraphs items)
  = map (fun item => paragraphSpan [] (fst item) []) items /\
  Legacy.splitIntoCompleteBlocks (paragraphs items)
  = splitIntoCompleteBlocks (paragraphs items).
Proof.
  intros Hne Hitems.
  assert (Hnew : splitIntoCompleteBlocks (paragraphs items)
                 = map (fun item => paragraphSpan [] (fst item) []) items).
  { rewrite splitIntoCompleteBlocks_from.
    destruct items as [|[inner w] items]; [done|].
    assert (isEmpty (paragraphs ((inner, w) :: items)) = false) as ->
      by reflexivity.
    rewrite (trim_nonblank _ 60%N); [|by left|done]. cbn [orb].
    pose proof (splitFrom_paragraphs ((inner, w) :: items) _ [] [] eq_refl Hitems)
      as Hrun.
    cbn [app] in Hrun. change (strlen []) with 0 in Hrun. rewrite Hrun.
    reflexivity. }
  split; [exact Hnew|]. rewrite Hnew.
  rewrite legacy_splitIntoCompleteBlocks_from.
  destruct items as [|[inner w] items]; [done|].
  assert (isEmpty (paragraphs ((inner, w) :: items)) = false) as ->
    by reflexivity.
  rewrite (trim_nonblank _ 60%N); [|by left|done]. cbn [orb].
  pose proof (legacy_splitFrom_paragraphs ((inner, w) :: items) _ [] [] eq_refl
                Hitems) as Hrun.
  cbn [app] in Hrun. change (strlen []) with 0 in Hrun. rewrite Hrun.
  reflexivity.
Qed.

Lemma paragraphs_split_one_by_one_witness :
  splitIntoCompleteBlocks (js "<p>a</p>\n<p>b</p>\n") = [js "<p>a</p>"; js "<p>b</p>"] /\
  Legacy.splitIntoCompleteBlocks (js "<p>a</p>\n<p>b</p>\n")
  = splitIntoCompleteBlocks (js "<p>a</p>\n<p>b</p>\n").
Proof.
  apply (paragraphs_split_one_by_one [(js "a", js "\n"); (js "b", js "\n")]).
  - discriminate.
  - repeat constructor; vm_compute; intuition discriminate.
Defined.
